(** * SyncFlow deals scraper: a shallow embedding of the curation pipeline

    The development follows [syncflow_deals_scraper_improved.py]: the helper
    functions on text (regular expressions, title cleaning, scoring,
    categorisation, similarity of titles, the affiliate tag), then the main
    loop as a state-passing function over an explicit curation state, then
    the properties of the pipeline.

    Python [str] values are modelled as [string] (8-bit characters); the
    character predicates are the ASCII restrictions of Python's.  Python
    [int] values are [Z].  The helpers are modelled as the functions they
    are when no call raises; the inputs on which the embedding is exact are
    delimited by [ascii_text], [taggable] and [covered] below, and the
    properties that depend on them assume them. *)

From Stdlib Require Import ZArith QArith Ascii String List Bool Lia Permutation Sorted.
From stdpp Require Import gmap strings list fin_maps.

Close Scope Q_scope.

(** ** Characters and strings *)

Module Str.

Definition code (c : ascii) : nat := nat_of_ascii c.

Definition between (lo hi : nat) (c : ascii) : bool :=
  (lo <=? code c) && (code c <=? hi).

(** [str.isspace] on the ASCII range: TAB, LF, VT, FF, CR, the four
    separators 0x1c-0x1f and the space. *)
Definition is_space (c : ascii) : bool :=
  between 9 13 c || between 28 31 c || (code c =? 32).

Definition is_digit (c : ascii) : bool := between 48 57 c.
Definition is_upper (c : ascii) : bool := between 65 90 c.
Definition is_lower (c : ascii) : bool := between 97 122 c.
Definition is_alpha (c : ascii) : bool := is_upper c || is_lower c.
Definition is_alnum (c : ascii) : bool := is_alpha c || is_digit c.

Definition lower_char (c : ascii) : ascii :=
  if is_upper c then ascii_of_nat (code c + 32) else c.

(** [s.lower()] on ASCII text *)
Fixpoint lower (s : string) : string :=
  match s with
  | EmptyString => EmptyString
  | String c s' => String (lower_char c) (lower s')
  end.

Fixpoint rev_onto (s acc : string) : string :=
  match s with
  | EmptyString => acc
  | String c s' => rev_onto s' (String c acc)
  end.

Definition rev (s : string) : string := rev_onto s EmptyString.

Fixpoint lstrip (s : string) : string :=
  match s with
  | EmptyString => EmptyString
  | String c s' => if is_space c then lstrip s' else s
  end.

(** [s.strip()] on ASCII text *)
Definition strip (s : string) : string := rev (lstrip (rev (lstrip s))).

(** [needle in hay] *)
Fixpoint contains (needle hay : string) : bool :=
  String.prefix needle hay ||
  match hay with
  | EmptyString => false
  | String _ hay' => contains needle hay'
  end.

Fixpoint take (n : nat) (s : string) : string :=
  match n, s with
  | S n', String c s' => String c (take n' s')
  | _, _ => EmptyString
  end.

(** [s.replace(c, '')] for a one-character pattern *)
Fixpoint remove_char (c : ascii) (s : string) : string :=
  match s with
  | EmptyString => EmptyString
  | String a s' =>
      if Ascii.eqb a c then remove_char c s' else String a (remove_char c s')
  end.

(** Python truthiness of a string: non-empty. *)
Definition nonempty (s : string) : bool :=
  match s with EmptyString => false | String _ _ => true end.

(** Python truthiness of an optional string: neither [None] nor [""]. *)
Definition truthy (o : option string) : bool :=
  match o with Some s => nonempty s | None => false end.

End Str.

(** ** Regular expressions

    The patterns of the script are values of [regex]; [mtch] is a
    backtracking matcher with the priorities of Python's [re] (leftmost
    alternative first, greedy repetition takes as much as it can, lazy
    repetition as little).  Bounded repetitions of the source are unrolled:
    [r+] is [r r*], [r?] is [(r|)], [r{2}] is [r r], [r{1,2}] is [r r?].
    The body of every repetition in the script consumes one character, so
    the matcher only iterates a body that made progress. *)

Module Re.

Inductive regex : Type :=
| Eps : regex
| Lit : ascii -> regex
| Cls : (ascii -> bool) -> regex
| Dot : regex
| Bol : regex
| Eol : regex
| Cat : regex -> regex -> regex
| Alt : regex -> regex -> regex
| Star : regex -> regex
| StarLazy : regex -> regex
| Group : nat -> regex -> regex.

Definition Plus (r : regex) : regex := Cat r (Star r).
Definition Opt (r : regex) : regex := Alt r Eps.

Fixpoint Word (s : string) : regex :=
  match s with
  | EmptyString => Eps
  | String c s' => Cat (Lit c) (Word s')
  end.

Fixpoint Times (n : nat) (r : regex) : regex :=
  match n with
  | O => Eps
  | S n' => Cat r (Times n' r)
  end.

(** The matcher's cursor: the offset in the subject, what is left of it,
    and the groups captured so far (latest first). *)
Record cursor : Type := Cursor {
  pos : nat;
  rest : string;
  caps : list (nat * string)
}.

Definition advance (st : cursor) (s' : string) : cursor :=
  {| pos := S (pos st); rest := s'; caps := caps st |}.

Definition orelse {A} (x y : option A) : option A :=
  match x with Some _ => x | None => y end.

Section Matcher.
Variable icase : bool.  (* re.IGNORECASE *)

Definition same_char (a b : ascii) : bool :=
  if icase then Ascii.eqb (Str.lower_char a) (Str.lower_char b)
  else Ascii.eqb a b.

Definition one (p : ascii -> bool) (st : cursor)
    (k : cursor -> option cursor) : option cursor :=
  match rest st with
  | String a s' => if p a then k (advance st s') else None
  | EmptyString => None
  end.

Fixpoint star_greedy (fuel : nat)
    (body : cursor -> (cursor -> option cursor) -> option cursor)
    (st : cursor) (k : cursor -> option cursor) : option cursor :=
  match fuel with
  | O => k st
  | S fuel' =>
      orelse
        (body st (fun st' =>
           if pos st <? pos st' then star_greedy fuel' body st' k else None))
        (k st)
  end.

Fixpoint star_lazy (fuel : nat)
    (body : cursor -> (cursor -> option cursor) -> option cursor)
    (st : cursor) (k : cursor -> option cursor) : option cursor :=
  match fuel with
  | O => k st
  | S fuel' =>
      orelse
        (k st)
        (body st (fun st' =>
           if pos st <? pos st' then star_lazy fuel' body st' k else None))
  end.

Fixpoint mtch (r : regex) (st : cursor)
    (k : cursor -> option cursor) : option cursor :=
  match r with
  | Eps => k st
  | Lit c => one (same_char c) st k
  | Cls p => one p st k
  | Dot => one (fun a => negb (Ascii.eqb a "010")) st k
  | Bol => if pos st =? 0 then k st else None
  | Eol =>
      match rest st with
      | EmptyString => k st
      | String a EmptyString => if Ascii.eqb a "010" then k st else None
      | _ => None
      end
  | Cat r1 r2 => mtch r1 st (fun st' => mtch r2 st' k)
  | Alt r1 r2 => orelse (mtch r1 st k) (mtch r2 st k)
  | Star r1 => star_greedy (String.length (rest st)) (mtch r1) st k
  | StarLazy r1 => star_lazy (String.length (rest st)) (mtch r1) st k
  | Group n r1 =>
      mtch r1 st (fun st' =>
        k {| pos := pos st'; rest := rest st';
             caps := (n, Str.take (pos st' - pos st) (rest st)) :: caps st' |})
  end.

(** The match of [r] that starts at offset [p], where [s] is the subject
    from [p] on. *)
Definition match_at (r : regex) (p : nat) (s : string) : option cursor :=
  mtch r {| pos := p; rest := s; caps := [] |} Some.

(** [re.search(r, s)]: the first offset with a match, and the cursor at
    the end of that match. *)
Fixpoint search_from (r : regex) (p : nat) (s : string) : option cursor :=
  match match_at r p s with
  | Some st => Some st
  | None =>
      match s with
      | EmptyString => None
      | String _ s' => search_from r (S p) s'
      end
  end.

Definition search (r : regex) (s : string) : option cursor :=
  search_from r 0 s.

(** [re.sub(r, repl, s)] for a replacement without group references: every
    non-overlapping match, leftmost first, is replaced by [repl].  [skip]
    counts the characters of the current match that are still to be
    dropped.  No pattern of the script matches the empty string, and an
    empty match is left alone here. *)
Fixpoint sub_from (r : regex) (repl : string) (p skip : nat) (s : string)
    : string :=
  match s with
  | EmptyString => EmptyString
  | String c s' =>
      match skip with
      | S skip' => sub_from r repl (S p) skip' s'
      | O =>
          match match_at r p s with
          | Some st =>
              if p <? pos st
              then repl +:+ sub_from r repl (S p) (pos st - p - 1) s'
              else String c (sub_from r repl (S p) 0 s')
          | None => String c (sub_from r repl (S p) 0 s')
          end
      end
  end.

Definition sub (r : regex) (repl s : string) : string := sub_from r repl 0 0 s.

End Matcher.

(** [m.group(n)] *)
Fixpoint group (n : nat) (cs : list (nat * string)) : option string :=
  match cs with
  | [] => None
  | (i, s) :: cs' => if i =? n then Some s else group n cs'
  end.

(** [m.group(1) if m else None] *)
Definition group1 (m : option cursor) : option string :=
  match m with
  | Some st => group 1 (caps st)
  | None => None
  end.

Definition digit : regex := Cls Str.is_digit.   (* \d on ASCII text: [0-9] *)
Definition space : regex := Cls Str.is_space.   (* \s on ASCII text *)

End Re.

Import Re.

(** ** Configuration *)

Definition AFFILIATE_TAG : string := "syncflow-20".
Definition MAX_DEALS : nat := 80.

Definition RSS_FEEDS : list string :=
  [ "https://slickdeals.net/newsearch.php?searchin=first&rss=1";
    "https://www.reddit.com/r/buildapcsales/.rss";
    "https://www.reddit.com/r/deals/.rss";
    "https://www.dealnews.com/?rss=1";
    "https://happydealhappyday.com/category/amazon-deals/feed/";
    "https://www.dealsplus.com/rss.xml";
    "https://www.techbargains.com/rss.xml" ].

(** ** Patterns and extraction helpers *)

(** [(https://www\.amazon\.com/[^\s\x22<]+)]: the excluded characters are
    white space, the double quote (0x22) and [<]. *)
Definition AMAZON_LINK_REGEX : regex :=
  Group 1
    (Cat (Word "https://www.amazon.com/")
         (Plus (Cls (fun c =>
            negb (Str.is_space c || Ascii.eqb c "034" || Ascii.eqb c "<"))))).

(** [([A-Z0-9]{10})] *)
Definition ASIN_REGEX : regex :=
  Group 1 (Times 10 (Cls (fun c => Str.is_upper c || Str.is_digit c))).

(** [(\$[0-9]+(?:\.[0-9]{1,2})?)] *)
Definition PRICE_REGEX : regex :=
  Group 1
    (Cat (Lit "$")
      (Cat (Plus digit)
           (Opt (Cat (Lit ".") (Cat digit (Opt digit)))))).

(** [(\d+)%] *)
Definition DISCOUNT_REGEX : regex :=
  Cat (Group 1 (Plus digit)) (Lit "%").

(** [sys.get_int_max_str_digits()]: [int] raises [ValueError] on a numeral
    with more digits than this. *)
Definition INT_MAX_STR_DIGITS : nat := 4300.

(** [int(s)] on a string of at most [INT_MAX_STR_DIGITS] decimal digits *)
Definition int_of_digits (s : string) : Z :=
  let fix go (acc : Z) (s : string) : Z :=
    match s with
    | EmptyString => acc
    | String c s' => go (10 * acc + (Z.of_nat (Str.code c) - 48))%Z s'
    end in
  go 0%Z s.

Definition amazon_image_from_asin (asin : option string) : option string :=
  match asin with
  | Some a =>
      if Str.nonempty a
      then Some ("https://m.media-amazon.com/images/I/" +:+ a +:+ "._AC_SL1500_.jpg")
      else None
  | None => None
  end.

Definition extract_amazon_url (summary fallback : string) : option string :=
  if Str.contains "amazon.com" fallback then Some fallback
  else group1 (search false AMAZON_LINK_REGEX summary).

Definition extract_asin (url : string) : option string :=
  group1 (search false ASIN_REGEX url).

Definition extract_price_from_title (title : string) : option string :=
  group1 (search false PRICE_REGEX title).

Definition extract_discount_from_title (title : string) : Z :=
  match group1 (search false DISCOUNT_REGEX title) with
  | Some ds => int_of_digits ds
  | None => 0%Z
  end.

(** ** Title cleaning *)

(** [\[.*?\]] *)
Definition BRACKET_TAG : regex :=
  Cat (Lit "[") (Cat (StarLazy Dot) (Lit "]")).

(** [\(\s*\d+%\s*OFF\s*\)], IGNORECASE *)
Definition PAREN_DISCOUNT : regex :=
  Cat (Lit "(") (Cat (Star space) (Cat (Plus digit) (Cat (Lit "%")
    (Cat (Star space) (Cat (Word "OFF") (Cat (Star space) (Lit ")"))))))).

(** [-\s*\$\d+(\.\d{2})?$] *)
Definition TRAILING_PRICE : regex :=
  Cat (Lit "-") (Cat (Star space) (Cat (Lit "$") (Cat (Plus digit)
    (Cat (Opt (Group 1 (Cat (Lit ".") (Times 2 digit)))) Eol)))).

(** [^(Deal:|Hot Deal:|Amazon Deal:)], IGNORECASE *)
Definition DEAL_PREFIX : regex :=
  Cat Bol (Group 1 (Alt (Word "Deal:") (Alt (Word "Hot Deal:") (Word "Amazon Deal:")))).

(** [\s+] *)
Definition SPACES : regex := Plus space.

Definition clean_title (title : string) : string :=
  (* Remove bracketed tags like [GPU] or [Amazon Deal] *)
  let title := sub false BRACKET_TAG "" title in
  (* Remove parenthesized discounts like (50% OFF) *)
  let title := sub true PAREN_DISCOUNT "" title in
  (* Remove trailing price info *)
  let title := sub false TRAILING_PRICE "" title in
  (* Remove common deal site prefixes *)
  let title := sub true DEAL_PREFIX "" title in
  (* Collapse whitespace *)
  Str.strip (sub false SPACES " " title).

(** ** Scoring *)

(** [float(s)] on ASCII text, and the comparison of the result with a small
    integer.  The value of a numeral is kept exact; [float] rounds it to the
    nearest double, ties to the double with an even last bit, so the double
    is at most 10, 25 or 50 exactly when the numeral is at most that integer
    plus half the spacing of the doubles there. *)
Module Float.

Inductive value : Type :=
| Finite : Q -> value
| PosInf : value
| NegInf : value
| NaN : value.

(** White space for the parser: TAB, LF, VT, FF, CR and the space. *)
Definition is_blank (c : ascii) : bool :=
  Str.between 9 13 c || (Str.code c =? 32).

Fixpoint lstrip (s : string) : string :=
  match s with
  | EmptyString => EmptyString
  | String c s' => if is_blank c then lstrip s' else s
  end.

Definition strip (s : string) : string :=
  Str.rev (lstrip (Str.rev (lstrip s))).

(** An underscore may stand between two digits only; the numeral is read
    without its underscores. *)
Fixpoint drop_underscores (prev : ascii) (s : string) : option string :=
  match s with
  | EmptyString => if Ascii.eqb prev "_" then None else Some EmptyString
  | String c s' =>
      if Ascii.eqb c "_" then
        if Str.is_digit prev then drop_underscores c s' else None
      else if Ascii.eqb prev "_" && negb (Str.is_digit c) then None
      else option_map (String c) (drop_underscores c s')
  end.

Fixpoint all_digits (s : string) : bool :=
  match s with
  | EmptyString => true
  | String c s' => Str.is_digit c && all_digits s'
  end.

(** The text before the first character of [p], and the text after that
    character when there is one. *)
Fixpoint split_first (p : ascii -> bool) (s : string) : string * option string :=
  match s with
  | EmptyString => (EmptyString, None)
  | String c s' =>
      if p c
      then (EmptyString, Some s')
      else let '(a, b) := split_first p s' in (String c a, b)
  end.

(** An optional sign: whether it is a minus, and what follows. *)
Definition split_sign (s : string) : bool * string :=
  match s with
  | String "-" s' => (true, s')
  | String "+" s' => (false, s')
  | _ => (false, s)
  end.

(** The exponent after [e]: an optional sign and at least one digit. *)
Definition exponent (s : string) : option Z :=
  let '(neg, ds) := split_sign s in
  if Str.nonempty ds && all_digits ds
  then Some (if neg then - int_of_digits ds else int_of_digits ds)%Z
  else None.

(** [m * 10^e] *)
Definition scale (m e : Z) : Q :=
  if (0 <=? e)%Z then inject_Z (m * 10 ^ e)
  else Qmake m (Z.to_pos (10 ^ (- e))).

(** digits, optionally a point and digits, at least one digit; optionally
    an exponent *)
Definition decimal (s : string) : option Q :=
  let '(mantissa, exp) := split_first (fun c => Ascii.eqb c "e" || Ascii.eqb c "E") s in
  let '(ip, fp) := split_first (Ascii.eqb ".") mantissa in
  let fp := match fp with Some f => f | None => EmptyString end in
  if all_digits ip && all_digits fp && Str.nonempty (ip +:+ fp) then
    match exp with
    | None => Some (scale (int_of_digits (ip +:+ fp)) (- Z.of_nat (String.length fp)))
    | Some e =>
        match exponent e with
        | Some n =>
            Some (scale (int_of_digits (ip +:+ fp)) (n - Z.of_nat (String.length fp)))
        | None => None
        end
    end
  else None.

(** [float(s)], [None] when it raises [ValueError] *)
Definition of_string (s : string) : option value :=
  match drop_underscores " " (strip s) with
  | None => None
  | Some s =>
      let '(neg, body) := split_sign s in
      let word := Str.lower body in
      if String.eqb word "inf" || String.eqb word "infinity"
      then Some (if neg then NegInf else PosInf)
      else if String.eqb word "nan" then Some NaN
      else
        match decimal body with
        | Some q => Some (Finite (if neg then - q else q)%Q)
        | None => None
        end
  end.

(** Half the distance from [t] to the next double, for [8 <= t < 64]. *)
Definition half_spacing (t : Z) : Q :=
  if (t <? 16)%Z then (1 # 2 ^ 50)%Q
  else if (t <? 32)%Z then (1 # 2 ^ 49)%Q
  else (1 # 2 ^ 48)%Q.

(** [v <= t] on doubles, for the thresholds of the script *)
Definition le (v : value) (t : Z) : bool :=
  match v with
  | Finite q => Qle_bool q (inject_Z t + half_spacing t)
  | NegInf => true
  | PosInf | NaN => false
  end.

End Float.

(** [any(word in text for word in words)] *)
Definition any_in (words : list string) (text : string) : bool :=
  existsb (fun w => Str.contains w text) words.

Definition calculate_deal_score (title price : string) (discount : Z) : Z :=
  let score := 0%Z in
  (* Price attractiveness (lower price = higher score) *)
  let score :=
    if Str.nonempty price then
      match Float.of_string (Str.remove_char "$" price) with
      | Some price_val =>
          if Float.le price_val 10 then (score + 3)%Z
          else if Float.le price_val 25 then (score + 2)%Z
          else if Float.le price_val 50 then (score + 1)%Z
          else score
      | None => score     (* except: pass *)
      end
    else score in
  (* Discount attractiveness *)
  let score :=
    if (50 <=? discount)%Z then (score + 3)%Z
    else if (30 <=? discount)%Z then (score + 2)%Z
    else if (20 <=? discount)%Z then (score + 1)%Z
    else score in
  (* Title quality indicators *)
  let title_lower := Str.lower title in
  if any_in ["new"; "hot"; "limited"; "exclusive"] title_lower
  then (score + 1)%Z
  else score.

(** [scrape_amazon_details]: the function returns before its scraping code;
    the result is the fallback price, or the sentinel. *)
Record details : Type := Details {
  d_price : string;
  d_rating : string;
  d_reviews : string
}.

(** [x or y] on optional strings with a string default *)
Definition or_default (x : option string) (y : string) : string :=
  match x with
  | Some s => if Str.nonempty s then s else y
  | None => y
  end.

Definition scrape_amazon_details (asin : string)
    (title_price_fallback : option string) : details :=
  {| d_price := or_default title_price_fallback "$?";
     d_rating := "N/A";
     d_reviews := "N/A" |}.

(** ** Categorisation *)

Definition categorize (title : string) : string :=
  let t := Str.lower title in
  (* Tech categories *)
  if any_in ["ssd"; "hdd"; "nvme"; "gpu"; "graphics card"; "ram"; "memory";
             "keyboard"; "mouse"; "monitor"; "router"; "ipad"; "iphone";
             "tablet"; "laptop"; "pc case"; "cable"; "charger"; "headphones";
             "earbuds"] t then "Tech"
  (* Gaming specific *)
  else if any_in ["gaming"; "nintendo"; "playstation"; "xbox"; "steam"; "game";
                  "controller"; "joystick"] t then "Gaming"
  (* Home & Kitchen *)
  else if any_in ["sofa"; "mattress"; "vacuum"; "kitchen"; "cookware";
                  "air purifier"; "heater"; "humidifier"; "purifier"; "bulb";
                  "lamp"; "blanket"; "towel"; "appliance"] t then "Home"
  (* Fitness & Sports *)
  else if any_in ["shoe"; "fitness"; "yoga"; "treadmill"; "dumbbell"; "protein";
                  "sneakers"; "running"; "workout"; "gym"; "exercise"; "bike"] t
       then "Fitness"
  (* Accessories *)
  else if any_in ["case"; "charger"; "backpack"; "watch band"; "wallet";
                  "sleeve"; "stand"; "mount"; "holder"] t then "Accessories"
  (* Gifts & Toys *)
  else if any_in ["gift"; "holiday"; "christmas"; "present"; "lego"; "toy";
                  "puzzle"; "board game"; "card game"] t then "Gifts"
  (* Baby & Kids *)
  else if any_in ["baby"; "kids"; "children"; "diaper"; "stroller"; "crib";
                  "toy"; "educational"] t then "Baby"
  (* Beauty & Personal Care *)
  else if any_in ["shampoo"; "conditioner"; "soap"; "lotion"; "perfume";
                  "makeup"; "skincare"; "hair"; "nail"] t then "Beauty"
  (* Pet Supplies *)
  else if any_in ["dog"; "cat"; "pet"; "puppy"; "kitten"; "collar"; "leash";
                  "bed"; "food"; "treat"] t then "Pets"
  else "General".

(** ** Similarity of titles

    [difflib.SequenceMatcher(None, a, b).ratio()], following the library:
    [b2j] indexes the positions of every character of [b] (with the
    "popular" characters of a long [b] purged, since [autojunk] is on and no
    junk predicate is given), [find_longest_match] scans [a] against it and
    then extends the best block over purged characters, and
    [get_matching_blocks] splits around the longest block with a work
    queue.  The ratio is twice the matched length over the summed lengths. *)

Module Difflib.

Definition block : Type := (nat * nat * nat)%type.        (* i, j, size *)
Definition range : Type := (nat * nat * nat * nat)%type.  (* alo, ahi, blo, bhi *)

Fixpoint indices_from (j : nat) (l : list ascii) (c : ascii) : list nat :=
  match l with
  | [] => []
  | x :: l' =>
      if Ascii.eqb x c then j :: indices_from (S j) l' c
      else indices_from (S j) l' c
  end.

Section SequenceMatcher.
Variables a b : list ascii.

Definition popular (c : ascii) : bool :=
  let n := length b in
  (200 <=? n) && (n / 100 + 1 <? length (indices_from 0 b c)).

Definition b2j (c : ascii) : list nat :=
  if popular c then [] else indices_from 0 b c.

(** [a[i] == b[j]] for indices that may be out of range *)
Definition same_at (i j : nat) : bool :=
  match a !! i, b !! j with
  | Some x, Some y => Ascii.eqb x y
  | _, _ => false
  end.

(** [j2len.get(j-1, 0)] *)
Definition j2lenget (j2len : gmap nat nat) (j : nat) : nat :=
  match j with
  | O => 0
  | S j' => default 0 (j2len !! j')
  end.

(** The inner loop over the positions [j] of [a[i]] in [b]. *)
Fixpoint scan_js (i blo bhi : nat) (j2len : gmap nat nat) (js : list nat)
    (newj2len : gmap nat nat) (best : block) : gmap nat nat * block :=
  match js with
  | [] => (newj2len, best)
  | j :: js' =>
      if j <? blo then scan_js i blo bhi j2len js' newj2len best
      else if bhi <=? j then (newj2len, best)
      else
        let k := j2lenget j2len j + 1 in
        let '(_, _, bestsize) := best in
        scan_js i blo bhi j2len js' (<[j := k]> newj2len)
          (if bestsize <? k then (i + 1 - k, j + 1 - k, k) else best)
  end.

(** The outer loop [for i in range(alo, ahi)], with [n] iterations left. *)
Fixpoint scan_i (n i blo bhi : nat) (j2len : gmap nat nat) (best : block)
    : block :=
  match n with
  | O => best
  | S n' =>
      match a !! i with
      | Some c =>
          let '(newj2len, best') := scan_js i blo bhi j2len (b2j c) ∅ best in
          scan_i n' (S i) blo bhi newj2len best'
      | None => best
      end
  end.

Fixpoint extend_left (fuel alo blo : nat) (best : block) : block :=
  let '(besti, bestj, bestsize) := best in
  match fuel with
  | O => best
  | S fuel' =>
      if (alo <? besti) && (blo <? bestj) && same_at (besti - 1) (bestj - 1)
      then extend_left fuel' alo blo (besti - 1, bestj - 1, bestsize + 1)
      else best
  end.

Fixpoint extend_right (fuel ahi bhi : nat) (best : block) : block :=
  let '(besti, bestj, bestsize) := best in
  match fuel with
  | O => best
  | S fuel' =>
      if (besti + bestsize <? ahi) && (bestj + bestsize <? bhi)
         && same_at (besti + bestsize) (bestj + bestsize)
      then extend_right fuel' ahi bhi (besti, bestj, bestsize + 1)
      else best
  end.

(** The two last loops of the library function extend over junk
    characters; without a junk predicate they never run. *)
Definition find_longest_match (alo ahi blo bhi : nat) : block :=
  let best := scan_i (ahi - alo) alo blo bhi ∅ (alo, blo, 0) in
  let best := extend_left (fst (fst best)) alo blo best in
  extend_right ahi ahi bhi best.

(** The work queue is a stack: its top is the head of the list. *)
Fixpoint blocks_loop (fuel : nat) (queue : list range)
    (matching_blocks : list block) : list block :=
  match fuel, queue with
  | S fuel', (alo, ahi, blo, bhi) :: queue =>
      let '(i, j, k) := find_longest_match alo ahi blo bhi in
      if k =? 0 then blocks_loop fuel' queue matching_blocks
      else
        let queue :=
          if (alo <? i) && (blo <? j) then (alo, i, blo, j) :: queue
          else queue in
        let queue :=
          if (i + k <? ahi) && (j + k <? bhi) then (i + k, ahi, j + k, bhi) :: queue
          else queue in
        blocks_loop fuel' queue (matching_blocks ++ [(i, j, k)])
  | _, _ => matching_blocks
  end.

(** Every turn of the loop either drops a range or takes at least one
    character of [a] out of the ranges left, so [2 * len(a) + 1] turns
    empty the queue ([get_matching_blocks_fuel] below).  The library then
    sorts the blocks and merges adjacent ones: the sum of the sizes is the
    same. *)
Definition get_matching_blocks : list block :=
  blocks_loop (2 * length a + 1) [(0, length a, 0, length b)] [].

Definition matches : nat :=
  foldr (fun '(_, _, k) acc => k + acc) 0 get_matching_blocks.

(** [_calculate_ratio(matches, len(a) + len(b))], as an exact rational *)
Definition ratio : Q :=
  match (length a + length b)%nat with
  | O => 1%Q
  | S l => (2 * Z.of_nat matches # Pos.of_succ_nat l)%Q
  end.

End SequenceMatcher.

End Difflib.

(** [SequenceMatcher(None, title1.lower(), title2.lower()).ratio() >= threshold]
    with the default threshold 0.85.  The source compares doubles; the
    quotient of two integers below 2^50 is at least the double 0.85 exactly
    when it is at least 17/20, so the comparison is made on rationals. *)
Definition is_duplicate_title (title1 title2 : string) : bool :=
  Qle_bool 0.85%Q
    (Difflib.ratio (list_ascii_of_string (Str.lower title1))
                   (list_ascii_of_string (Str.lower title2))).

(** ** The affiliate tag

    [urllib.parse] as of CPython 3.11, on ASCII text: [urlparse] and
    [urlunparse], [parse_qs], [urlencode] with [doseq=True] (which quotes
    with [quote_plus]).  A percent escape above 0x7f decodes to that
    character; the library goes on to decode UTF-8, which is not modelled.
    Neither is its validation of bracketed hosts, which raises
    [ValueError]: the model covers URLs whose host has no bracket
    ([taggable] below). *)

Module Urllib.

Definition is_char (c : ascii) : ascii -> bool := Ascii.eqb c.

(** The longest prefix without a character of [p], and what follows. *)
Fixpoint break (p : ascii -> bool) (s : string) : string * string :=
  match s with
  | EmptyString => (EmptyString, EmptyString)
  | String a s' =>
      if p a then (EmptyString, s)
      else let '(x, y) := break p s' in (String a x, y)
  end.

(** [s.split(c, 1)] when [c] occurs in [s] *)
Definition split_once (c : ascii) (s : string) : option (string * string) :=
  match break (is_char c) s with
  | (x, String _ y) => Some (x, y)
  | (_, EmptyString) => None
  end.

(** [(s[:i], s[i:])] for [i = s.rfind(c)], when [c] occurs in [s] *)
Fixpoint rsplit_from (c : ascii) (s : string) : option (string * string) :=
  match s with
  | EmptyString => None
  | String a s' =>
      match rsplit_from c s' with
      | Some (x, y) => Some (String a x, y)
      | None => if Ascii.eqb a c then Some (EmptyString, s) else None
      end
  end.

Fixpoint filter_chars (p : ascii -> bool) (s : string) : string :=
  match s with
  | EmptyString => EmptyString
  | String a s' => if p a then String a (filter_chars p s') else filter_chars p s'
  end.

Fixpoint all_chars (p : ascii -> bool) (s : string) : bool :=
  match s with
  | EmptyString => true
  | String a s' => p a && all_chars p s'
  end.

Fixpoint lstrip_c0 (s : string) : string :=
  match s with
  | EmptyString => EmptyString
  | String a s' => if Str.code a <=? 32 then lstrip_c0 s' else s
  end.

Definition scheme_char (c : ascii) : bool :=
  Str.is_alnum c || Ascii.eqb c "+" || Ascii.eqb c "-" || Ascii.eqb c ".".

Definition uses_params : list string :=
  [""; "ftp"; "hdl"; "prospero"; "http"; "imap"; "https"; "shttp"; "rtsp";
   "rtspu"; "sip"; "sips"; "mms"; "sftp"; "tel"].

Definition uses_netloc : list string :=
  [""; "ftp"; "http"; "gopher"; "nntp"; "telnet"; "imap"; "wais"; "file";
   "mms"; "https"; "shttp"; "snews"; "prospero"; "rtsp"; "rtspu"; "rsync";
   "svn"; "svn+ssh"; "sftp"; "nfs"; "git"; "git+ssh"; "ws"; "wss"].

Definition mem (s : string) (l : list string) : bool :=
  existsb (String.eqb s) l.

Record ParseResult : Type := {
  scheme : string;
  netloc : string;
  path : string;
  params : string;
  query : string;
  fragment : string
}.

(** The head of [urlsplit]: leading control characters and spaces are
    stripped, then tabs and newlines are removed everywhere. *)
Definition strip_unsafe (url : string) : string :=
  filter_chars (fun c =>
    negb (Ascii.eqb c "009" || Ascii.eqb c "013" || Ascii.eqb c "010"))
    (lstrip_c0 url).

(** The scheme is what precedes the first colon, when that starts with a
    letter and is made of scheme characters. *)
Definition split_scheme (url : string) : string * string :=
  match split_once ":" url with
  | Some (String c0 _ as pre, post) =>
      if Str.is_alpha c0 && all_chars scheme_char pre
      then (Str.lower pre, post)
      else (EmptyString, url)
  | _ => (EmptyString, url)
  end.

(** [_splitnetloc(url, 2)] when [url] starts with two slashes *)
Definition split_netloc (url : string) : string * string :=
  match url with
  | String "/" (String "/" url') =>
      break (fun c => Ascii.eqb c "/" || Ascii.eqb c "?" || Ascii.eqb c "#") url'
  | _ => (EmptyString, url)
  end.

(** [url.split(c, 1)] when [c] is in [url], else [url] and nothing *)
Definition split_at (c : ascii) (url : string) : string * string :=
  match split_once c url with
  | Some (u, f) => (u, f)
  | None => (url, EmptyString)
  end.

(** [urlsplit(url)]: scheme, netloc, path, query, fragment *)
Definition urlsplit (url : string) : string * string * string * string * string :=
  let url := strip_unsafe url in
  let '(scheme, url) := split_scheme url in
  let '(netloc, url) := split_netloc url in
  let '(url, fragment) := split_at "#" url in
  let '(url, query) := split_at "?" url in
  (scheme, netloc, url, query, fragment).

Definition _splitparams (url : string) : string * string :=
  match rsplit_from "/" url with
  | Some (pre, tail) =>
      match split_once ";" tail with
      | Some (x, y) => (pre +:+ x, y)
      | None => (url, EmptyString)
      end
  | None =>
      match split_once ";" url with
      | Some (x, y) => (x, y)
      | None => (url, EmptyString)
      end
  end.

Definition urlparse (url : string) : ParseResult :=
  let '(scheme, netloc, url, query, fragment) := urlsplit url in
  let '(url, params) :=
    if mem scheme uses_params then _splitparams url else (url, EmptyString) in
  {| scheme := scheme; netloc := netloc; path := url; params := params;
     query := query; fragment := fragment |}.

Definition urlunsplit (scheme netloc url query fragment : string) : string :=
  let url :=
    if Str.nonempty netloc
       || (Str.nonempty scheme && mem scheme uses_netloc
           && negb (String.prefix "//" url))
    then
      let url :=
        if Str.nonempty url && negb (String.prefix "/" url)
        then "/" +:+ url else url in
      "//" +:+ netloc +:+ url
    else url in
  let url := if Str.nonempty scheme then scheme +:+ ":" +:+ url else url in
  let url := if Str.nonempty query then url +:+ "?" +:+ query else url in
  if Str.nonempty fragment then url +:+ "#" +:+ fragment else url.

Definition urlunparse (p : ParseResult) : string :=
  let url :=
    if Str.nonempty (params p) then path p +:+ ";" +:+ params p else path p in
  urlunsplit (scheme p) (netloc p) url (query p) (fragment p).

(** [parsed._replace(query=q)] *)
Definition replace_query (p : ParseResult) (q : string) : ParseResult :=
  {| scheme := scheme p; netloc := netloc p; path := path p;
     params := params p; query := q; fragment := fragment p |}.

(** *** Quoting *)

Definition hex_value (c : ascii) : option nat :=
  if Str.is_digit c then Some (Str.code c - 48)
  else if Str.between 65 70 c then Some (Str.code c - 55)
  else if Str.between 97 102 c then Some (Str.code c - 87)
  else None.

Definition hex_digit (n : nat) : ascii :=
  if n <? 10 then ascii_of_nat (48 + n) else ascii_of_nat (55 + n).

(** [unquote]: an escape is a percent sign and two hexadecimal digits; a
    percent sign that starts no escape stands for itself. *)
Fixpoint unquote (s : string) : string :=
  match s with
  | EmptyString => EmptyString
  | String c s' =>
      let plain := String c (unquote s') in
      if Ascii.eqb c "%" then
        match s' with
        | String h (String l s'') =>
            match hex_value h, hex_value l with
            | Some x, Some y => String (ascii_of_nat (16 * x + y)) (unquote s'')
            | _, _ => plain
            end
        | _ => plain
        end
      else plain
  end.

(** [s.replace('+', ' ')] *)
Fixpoint plus_to_space (s : string) : string :=
  match s with
  | EmptyString => EmptyString
  | String c s' =>
      String (if Ascii.eqb c "+" then " "%char else c) (plus_to_space s')
  end.

(** The characters [quote] never escapes. *)
Definition always_safe (c : ascii) : bool :=
  Str.is_alnum c || Ascii.eqb c "_" || Ascii.eqb c "." || Ascii.eqb c "-"
  || Ascii.eqb c "~".

Definition quote_plus_char (c : ascii) : string :=
  if always_safe c then String c EmptyString
  else if Ascii.eqb c " " then "+"
  else String "%" (String (hex_digit (Str.code c / 16))
                  (String (hex_digit (Str.code c mod 16)) EmptyString)).

(** [quote_plus(s)] *)
Fixpoint quote_plus (s : string) : string :=
  match s with
  | EmptyString => EmptyString
  | String c s' => quote_plus_char c +:+ quote_plus s'
  end.

(** *** Query strings *)

(** [s.split(c)] *)
Fixpoint split (c : ascii) (s : string) : list string :=
  match s with
  | EmptyString => [EmptyString]
  | String a s' =>
      if Ascii.eqb a c then EmptyString :: split c s'
      else match split c s' with
           | x :: l => String a x :: l
           | [] => [String a EmptyString]
           end
  end.

(** [sep.join(l)] *)
Fixpoint join (sep : string) (l : list string) : string :=
  match l with
  | [] => EmptyString
  | [x] => x
  | x :: l' => x +:+ sep +:+ join sep l'
  end.

(** [parse_qsl(qs)] with the defaults: fields are separated by [&]; a
    field without [=] or with nothing after it is dropped. *)
Definition parse_field (name_value : string) : list (string * string) :=
  match split_once "=" name_value with
  | Some (name, String c v) =>
      [(unquote (plus_to_space name), unquote (plus_to_space (String c v)))]
  | _ => []
  end.

Definition parse_qsl (qs : string) : list (string * string) :=
  flat_map parse_field (split "&" qs).

(** A value of the query dictionary: [parse_qs] stores lists of strings,
    the script stores a plain string under ["tag"]. *)
Inductive qvalue : Type :=
| VList : list string -> qvalue
| VStr : string -> qvalue.

(** The dictionary, in insertion order. *)
Definition qdict : Type := list (string * qvalue).

Fixpoint dict_get (k : string) (d : qdict) : option qvalue :=
  match d with
  | [] => None
  | (k', v) :: d' => if String.eqb k' k then Some v else dict_get k d'
  end.

(** [d[k] = v] *)
Fixpoint dict_set (k : string) (v : qvalue) (d : qdict) : qdict :=
  match d with
  | [] => [(k, v)]
  | (k', v') :: d' =>
      if String.eqb k' k then (k', v) :: d' else (k', v') :: dict_set k v d'
  end.

(** [parsed_result[name].append(value)], or a new one-element list *)
Definition dict_append (name value : string) (d : qdict) : qdict :=
  match dict_get name d with
  | Some (VList l) => dict_set name (VList (l ++ [value])) d
  | _ => dict_set name (VList [value]) d
  end.

Definition parse_qs (qs : string) : qdict :=
  fold_left (fun d '(name, value) => dict_append name value d) (parse_qsl qs) [].

(** The pairs [urlencode] writes for one dictionary item. *)
Definition item_pairs (kv : string * qvalue) : list (string * string) :=
  match kv with
  | (k, VStr v) => [(k, v)]
  | (k, VList l) => map (fun elt => (k, elt)) l
  end.

Definition encode_pair (kv : string * string) : string :=
  quote_plus (fst kv) +:+ "=" +:+ quote_plus (snd kv).

(** [urlencode(q, doseq=True)] *)
Definition urlencode (q : qdict) : string :=
  join "&" (map encode_pair (flat_map item_pairs q)).

End Urllib.

Definition add_affiliate_tag (url : string) : string :=
  let parsed := Urllib.urlparse url in
  let q := Urllib.parse_qs (Urllib.query parsed) in
  let q := Urllib.dict_set "tag" (Urllib.VStr AFFILIATE_TAG) q in
  Urllib.urlunparse (Urllib.replace_query parsed (Urllib.urlencode q)).

(** ** Sorting

    [deals.sort(key=..., reverse=True)]: CPython reverses the list, sorts it
    with a stable ascending sort that only uses [<] on the keys, and
    reverses the result.  A stable sort is determined by its order, so
    the ascending sort is an insertion sort. *)

Section ListSort.
Context {A : Type}.
Variable key : A -> Z * Z.

(** [k1 < k2] on tuples of two integers *)
Definition key_lt (k1 k2 : Z * Z) : bool :=
  (fst k1 <? fst k2)%Z || ((fst k1 =? fst k2)%Z && (snd k1 <? snd k2)%Z).

Fixpoint insert_stable (x : A) (l : list A) : list A :=
  match l with
  | [] => [x]
  | y :: l' =>
      if key_lt (key y) (key x) then y :: insert_stable x l'
      else x :: y :: l'
  end.

Fixpoint sort_ascending (l : list A) : list A :=
  match l with
  | [] => []
  | x :: l' => insert_stable x (sort_ascending l')
  end.

Definition sort_reverse (l : list A) : list A :=
  rev (sort_ascending (rev l)).

End ListSort.

(** ** The curation run *)

(** A feed entry; a missing field reads as the empty string. *)
Record RawEntry : Type := {
  entry_title : option string;
  entry_summary : option string;
  entry_link : option string
}.

(** [entry.get(key, "")] *)
Definition get (field : option string) : string := default EmptyString field.

Record Deal : Type := {
  deal_id : string;
  deal_title : string;
  deal_image : string;
  deal_price : string;
  deal_rating : string;
  deal_reviews : string;
  deal_url : string;
  deal_category : string;
  deal_timestamp : Z;
  deal_score : Z;
  deal_discount : Z
}.

(** The variables of [main], the feeds fetched so far (latest last) and the
    number of times the clock was read. *)
Record State : Type := {
  deals : list Deal;
  seen_asins : gset string;
  seen_titles : gset string;
  category_counts : gmap string Z;
  fetched : list string;
  clock_reads : nat
}.

Definition initial : State :=
  {| deals := []; seen_asins := ∅; seen_titles := ∅; category_counts := ∅;
     fetched := []; clock_reads := 0 |}.

Definition max_per_category : Z := 25.

(** [x or y] on optional strings *)
Definition py_or (x y : option string) : option string :=
  if Str.truthy x then x else y.

(** Reading [category_counts[k]] from a [defaultdict(int)] stores the
    default under a missing key. *)
Definition dd_read (m : gmap string Z) (k : string) : Z * gmap string Z :=
  match m !! k with
  | Some v => (v, m)
  | None => (0%Z, <[k := 0%Z]> m)
  end.

(** What happens to one entry: the [continue] it runs into, or its
    acceptance. *)
Inductive outcome : Type :=
| NoProductLink
| NoIdentifier
| DuplicateIdentifier
| DuplicateTitle
| CategoryCapacityReached
| NoImage
| Accepted.

Definition sort_key (d : Deal) : Z * Z := (deal_score d, deal_timestamp d).

Section Run.

(** The collaborators of the run: the feeds as [fetch_feed] returns them,
    the first [<img>] element BeautifulSoup finds in a summary (if any)
    with its [src] attribute (if any), and the clock, as the integer
    seconds its k-th reading gives. *)
Variable fetch_feed : string -> list RawEntry.
Variable soup_find_img : string -> option (option string).
Variable time_time : nat -> Z.

Definition extract_image_from_summary (summary : string) : option string :=
  match soup_find_img summary with
  | Some (Some src) => if Str.nonempty src then Some src else None
  | _ => None
  end.

(** The body of the inner loop. *)
Definition process_entry (st : State) (entry : RawEntry) : outcome * State :=
  let title := Str.strip (get (entry_title entry)) in
  let summary := get (entry_summary entry) in
  let fallback_link := get (entry_link entry) in
  match extract_amazon_url summary fallback_link with
  | None => (NoProductLink, st)
  | Some amazon_url =>
  if negb (Str.nonempty amazon_url) then (NoProductLink, st) else
  match extract_asin amazon_url with
  | None => (NoIdentifier, st)
  | Some asin =>
  if negb (Str.nonempty asin) then (NoIdentifier, st) else
  if bool_decide (asin ∈ seen_asins st) then (DuplicateIdentifier, st) else
  (* Check for title duplicates *)
  let is_duplicate :=
    existsb (is_duplicate_title title) (elements (seen_titles st)) in
  if is_duplicate then (DuplicateTitle, st) else
  (* Check category limits *)
  let category := categorize title in
  let '(count, counts) := dd_read (category_counts st) category in
  let st := {| deals := deals st; seen_asins := seen_asins st;
               seen_titles := seen_titles st; category_counts := counts;
               fetched := fetched st; clock_reads := clock_reads st |} in
  if (max_per_category <=? count)%Z then (CategoryCapacityReached, st) else
  (* Get image, prefer from summary *)
  match py_or (extract_image_from_summary summary)
              (amazon_image_from_asin (Some asin)) with
  | None => (NoImage, st)
  | Some image =>
  if negb (Str.nonempty image) then (NoImage, st) else
  let discount := extract_discount_from_title title in
  let title_price_fallback := extract_price_from_title title in
  let details := scrape_amazon_details asin title_price_fallback in
  let score := calculate_deal_score title (d_price details) discount in
  let cleaned_title := clean_title title in
  let final_url := add_affiliate_tag amazon_url in
  let deal :=
    {| deal_id := asin;
       deal_title := cleaned_title;
       deal_image := image;
       deal_price := d_price details;
       deal_rating := d_rating details;
       deal_reviews := d_reviews details;
       deal_url := final_url;
       deal_category := category;
       deal_timestamp := time_time (clock_reads st);
       deal_score := score;
       deal_discount := discount |} in
  (Accepted,
   {| deals := deals st ++ [deal];
      seen_asins := {[asin]} ∪ seen_asins st;
      seen_titles := {[cleaned_title]} ∪ seen_titles st;
      category_counts := <[category := (count + 1)%Z]> (category_counts st);
      fetched := fetched st;
      clock_reads := S (clock_reads st) |})
  end
  end
  end.

(** The state a trace of states ends in, [st] when the trace is empty. *)
Definition end_state (st : State) (trace : list State) : State :=
  default st (last trace).

(** The inner loop, as the states after each entry it processes. *)
Fixpoint entries_loop (st : State) (entries : list RawEntry) : list State :=
  match entries with
  | [] => []
  | entry :: entries' =>
      let '(o, st') := process_entry st entry in
      st' ::
      match o with
      | Accepted =>
          if MAX_DEALS <=? length (deals st') then []    (* break *)
          else entries_loop st' entries'
      | _ => entries_loop st' entries'                   (* continue *)
      end
  end.

Definition record_fetch (st : State) (feed_url : string) : State :=
  {| deals := deals st; seen_asins := seen_asins st;
     seen_titles := seen_titles st; category_counts := category_counts st;
     fetched := fetched st ++ [feed_url]; clock_reads := clock_reads st |}.

(** The outer loop, as the states after each fetch and each entry. *)
Fixpoint feeds_loop (st : State) (feeds : list string) : list State :=
  match feeds with
  | [] => []
  | feed_url :: feeds' =>
      if MAX_DEALS <=? length (deals st) then []         (* break *)
      else
        let st1 := record_fetch st feed_url in
        let trace := entries_loop st1 (fetch_feed feed_url) in
        st1 :: trace ++ feeds_loop (end_state st1 trace) feeds'
  end.

(** Every state of a run over [feeds], the initial one first. *)
Definition run (feeds : list string) : list State :=
  initial :: feeds_loop initial feeds.

Definition final_state (feeds : list string) : State :=
  end_state initial (feeds_loop initial feeds).

(** The list written under ["deals"]. *)
Definition curate (feeds : list string) : list Deal :=
  sort_reverse sort_key (deals (final_state feeds)).

Definition main : list Deal := curate RSS_FEEDS.

End Run.

(** ** Fetching a feed

    [fetch_feed] tries a feed [REQUEST_RETRIES] times.  Every attempt sleeps
    for [RATE_LIMIT_DELAY] seconds and sends one request; an attempt whose
    request, status check or parse raises an exception sleeps for
    [2 ** attempt] seconds more and gives way to the next, and after the
    last one the function returns the empty list.  The network is a
    parameter: what the attempt of a given number yields for a URL.  The
    function is modelled with the effects it has, in their order. *)

Module Net.

Definition REQUEST_RETRIES : nat := 2.
Definition RATE_LIMIT_DELAY : Q := 0.5.

Inductive effect : Type :=
| Sleep : Q → effect          (* time.sleep(seconds) *)
| Get : string → effect.      (* requests.get(url, ...) *)

Section Fetch.
(** The entries of the parsed response to the request of attempt number
    [attempt], or [None] when that attempt raises. *)
Variable respond : string → nat → option (list RawEntry).

(** [for attempt in range(...)] over the attempts still to make *)
Fixpoint attempts_loop (url : string) (attempts : list nat)
    : list effect * list RawEntry :=
  match attempts with
  | [] => ([], [])                                   (* return [] *)
  | attempt :: attempts' =>
      match respond url attempt with
      | Some entries => ([Sleep RATE_LIMIT_DELAY; Get url], entries)
      | None =>
          let '(effects, entries) := attempts_loop url attempts' in
          (Sleep RATE_LIMIT_DELAY :: Get url
             :: Sleep (inject_Z (2 ^ Z.of_nat attempt)) :: effects,
           entries)
      end
  end.

Definition fetch_feed (url : string) : list effect * list RawEntry :=
  attempts_loop url (seq 0 REQUEST_RETRIES).

End Fetch.

End Net.

(** * Properties of the pipeline: definitions *)

(** ** The order of the output *)

(** [d1] may stand before [d2] in the output: a higher score, or the same
    score and a timestamp that is not older. *)
Definition ranks_before (d1 d2 : Deal) : Prop :=
  (deal_score d2 < deal_score d1
   ∨ (deal_score d1 = deal_score d2 ∧ deal_timestamp d2 ≤ deal_timestamp d1))%Z.

Section ListOrder.
Context {A : Type}.
Variable key : A → Z * Z.

(** The order on keys that [key_lt] decides. *)
Definition lex_lt (k1 k2 : Z * Z) : Prop :=
  (k1.1 < k2.1 ∨ (k1.1 = k2.1 ∧ k1.2 < k2.2))%Z.

(** [x] may stand before [y] in an ascending list. *)
Definition asc (x y : A) : Prop := key_lt (key y) (key x) = false.

(** [x] may stand before [y] in a descending list. *)
Definition desc (x y : A) : Prop := key_lt (key x) (key y) = false.

End ListOrder.

(** ** The work queue of the matching blocks *)

Definition range_weight (r : Difflib.range) : nat :=
  let '(alo, ahi, _, _) := r in 2 * (ahi - alo) + 1.

Definition queue_weight (queue : list Difflib.range) : nat :=
  foldr (λ r n, range_weight r + n) 0 queue.

Definition ordered (r : Difflib.range) : Prop :=
  let '(alo, ahi, _, _) := r in alo ≤ ahi.

(** The lengths recorded in [j2len] are at most [bound]. *)
Definition lengths_below (bound : nat) (j2len : gmap nat nat) : Prop :=
  ∀ j v, j2len !! j = Some v → v ≤ bound.

(** A block that lies in [a[alo:ahi]]. *)
Definition block_within (alo ahi : nat) (b : Difflib.block) : Prop :=
  let '(i, _, k) := b in alo ≤ i ∧ i + k ≤ ahi.

(** ** Capacities *)

Definition count_category (c : string) (ds : list Deal) : nat :=
  length (filter (λ d, deal_category d = c) ds).

(** [category_counts[c]] without the side effect of the read *)
Definition counted (m : gmap string Z) (c : string) : Z := default 0%Z (m !! c).

Definition within_caps (ds : list Deal) : Prop :=
  length ds ≤ MAX_DEALS
  ∧ ∀ c, (Z.of_nat (count_category c ds) ≤ max_per_category)%Z.

Definition full (st : State) : Prop := MAX_DEALS ≤ length (deals st).

(** In a trace, a state at the global capacity is the last one. *)
Fixpoint stops_when_full (trace : list State) : Prop :=
  match trace with
  | [] => True
  | st :: trace' => (full st → trace' = []) ∧ stops_when_full trace'
  end.

(** ** Where a Deal comes from *)

(** [d] is the Deal the loop body builds from [entry] (its image and
    timestamp apart). *)
Definition derived_from (entry : RawEntry) (d : Deal) : Prop :=
  let title := Str.strip (get (entry_title entry)) in
  ∃ amazon_url,
    extract_amazon_url (get (entry_summary entry)) (get (entry_link entry))
      = Some amazon_url
    ∧ extract_asin amazon_url = Some (deal_id d)
    ∧ deal_title d = clean_title title
    ∧ deal_price d = or_default (extract_price_from_title title) "$?"
    ∧ deal_rating d = "N/A" ∧ deal_reviews d = "N/A"
    ∧ deal_url d = add_affiliate_tag amazon_url
    ∧ deal_category d = categorize title
    ∧ deal_score d = calculate_deal_score title (deal_price d) (deal_discount d)
    ∧ deal_discount d = extract_discount_from_title title.

Definition origin_inv (fetch_feed : string → list RawEntry) (st : State) : Prop :=
  ∀ d, d ∈ deals st →
    ∃ feed_url entry,
      feed_url ∈ fetched st ∧ entry ∈ fetch_feed feed_url ∧ derived_from entry d.

(** ** The invariant of the curation state *)

Record curation_inv (time_time : nat → Z) (st : State) : Prop := {
  inv_nodup : NoDup (map deal_id (deals st));
  inv_asins : ∀ a, a ∈ seen_asins st ↔ a ∈ map deal_id (deals st);
  inv_titles : ∀ t, t ∈ seen_titles st ↔ t ∈ map deal_title (deals st);
  inv_counts : ∀ c,
    counted (category_counts st) c = Z.of_nat (count_category c (deals st));
  inv_cap : ∀ c, (Z.of_nat (count_category c (deals st)) ≤ max_per_category)%Z;
  inv_clock : clock_reads st = length (deals st);
  inv_stamps : ∀ i d, deals st !! i = Some d → deal_timestamp d = time_time i
}.

Definition run_inv (fetch_feed : string → list RawEntry) (time_time : nat → Z)
    (st : State) : Prop :=
  curation_inv time_time st ∧ origin_inv fetch_feed st.

#[global] Instance outcome_eq_dec : EqDecision outcome.
Proof. solve_decision. Defined.

(** What one turn of the inner loop does to the state, by outcome. *)
Inductive step_spec (time_time : nat → Z) (st : State) (entry : RawEntry)
    : outcome → State → Prop :=
| step_skip o st' :
    o ≠ Accepted →
    deals st' = deals st → seen_asins st' = seen_asins st →
    seen_titles st' = seen_titles st →
    (∀ c, counted (category_counts st') c = counted (category_counts st) c) →
    fetched st' = fetched st → clock_reads st' = clock_reads st →
    step_spec time_time st entry o st'
| step_accept d st' :
    deals st' = deals st ++ [d] →
    derived_from entry d →
    deal_timestamp d = time_time (clock_reads st) →
    Str.nonempty (deal_image d) = true →
    existsb (is_duplicate_title (Str.strip (get (entry_title entry))))
      (elements (seen_titles st)) = false →
    deal_id d ∉ seen_asins st →
    seen_asins st' = {[deal_id d]} ∪ seen_asins st →
    seen_titles st' = {[deal_title d]} ∪ seen_titles st →
    (counted (category_counts st) (deal_category d) < max_per_category)%Z →
    (∀ c, counted (category_counts st') c =
          if decide (c = deal_category d)
          then (counted (category_counts st) c + 1)%Z
          else counted (category_counts st) c) →
    fetched st' = fetched st → clock_reads st' = S (clock_reads st) →
    step_spec time_time st entry Accepted st'.

(** ** Two runs that differ in the clock *)

Definition erase_timestamp (d : Deal) : Deal :=
  {| deal_id := deal_id d; deal_title := deal_title d; deal_image := deal_image d;
     deal_price := deal_price d; deal_rating := deal_rating d;
     deal_reviews := deal_reviews d; deal_url := deal_url d;
     deal_category := deal_category d; deal_timestamp := 0%Z;
     deal_score := deal_score d; deal_discount := deal_discount d |}.

Definition same_but_time (s1 s2 : State) : Prop :=
  map erase_timestamp (deals s1) = map erase_timestamp (deals s2)
  ∧ seen_asins s1 = seen_asins s2
  ∧ seen_titles s1 = seen_titles s2
  ∧ category_counts s1 = category_counts s2
  ∧ fetched s1 = fetched s2
  ∧ clock_reads s1 = clock_reads s2.

(** ** The taxonomy as a table

    The categories in the order the specification lists them, each with its
    keywords; [first_match] is the specification's reading of the
    categoriser. *)

Definition TAXONOMY : list (string * list string) :=
  [ ("Tech", ["ssd"; "hdd"; "nvme"; "gpu"; "graphics card"; "ram"; "memory";
              "keyboard"; "mouse"; "monitor"; "router"; "ipad"; "iphone";
              "tablet"; "laptop"; "pc case"; "cable"; "charger"; "headphones";
              "earbuds"]);
    ("Gaming", ["gaming"; "nintendo"; "playstation"; "xbox"; "steam"; "game";
                "controller"; "joystick"]);
    ("Home", ["sofa"; "mattress"; "vacuum"; "kitchen"; "cookware";
              "air purifier"; "heater"; "humidifier"; "purifier"; "bulb";
              "lamp"; "blanket"; "towel"; "appliance"]);
    ("Fitness", ["shoe"; "fitness"; "yoga"; "treadmill"; "dumbbell"; "protein";
                 "sneakers"; "running"; "workout"; "gym"; "exercise"; "bike"]);
    ("Accessories", ["case"; "charger"; "backpack"; "watch band"; "wallet";
                     "sleeve"; "stand"; "mount"; "holder"]);
    ("Gifts", ["gift"; "holiday"; "christmas"; "present"; "lego"; "toy";
               "puzzle"; "board game"; "card game"]);
    ("Baby", ["baby"; "kids"; "children"; "diaper"; "stroller"; "crib"; "toy";
              "educational"]);
    ("Beauty", ["shampoo"; "conditioner"; "soap"; "lotion"; "perfume";
                "makeup"; "skincare"; "hair"; "nail"]);
    ("Pets", ["dog"; "cat"; "pet"; "puppy"; "kitten"; "collar"; "leash"; "bed";
              "food"; "treat"]) ].

Fixpoint first_match (table : list (string * list string)) (t : string)
    : string :=
  match table with
  | [] => "General"
  | (label, keywords) :: table' =>
      if any_in keywords t then label else first_match table' t
  end.

(** ** Query parameters *)

(** The values a parsed query gives to the key [k], in order. *)
Definition values_of (k : string) (pairs : list (string * string)) : list string :=
  map snd (filter (λ p, p.1 = k) pairs).

Definition dict_values (k : string) (d : Urllib.qdict) : list string :=
  match Urllib.dict_get k d with
  | Some (Urllib.VList l) => l
  | Some (Urllib.VStr s) => [s]
  | None => []
  end.

(** The query [add_affiliate_tag] writes into the URL. *)
Definition out_query (url : string) : string :=
  Urllib.urlencode
    (Urllib.dict_set "tag" (Urllib.VStr AFFILIATE_TAG)
       (Urllib.parse_qs (Urllib.query (Urllib.urlparse url)))).

Definition no_str (d : Urllib.qdict) : Prop :=
  ∀ k s, Urllib.dict_get k d ≠ Some (Urllib.VStr s).

Definition field_char (c : ascii) : bool :=
  negb (Ascii.eqb c "&" || Ascii.eqb c "=").

Definition quiet (c : ascii) : bool := negb (Ascii.eqb c "?" || Ascii.eqb c "#").

Definition url_plain (c : ascii) : bool :=
  negb (Ascii.eqb c "#" || Ascii.eqb c "?" || Ascii.eqb c "009"
        || Ascii.eqb c "010" || Ascii.eqb c "013").

(** [u] is a text free of [?] and [#], a query mark, and [rest]. *)
Definition headed (u rest : string) : Prop :=
  ∃ s, Urllib.all_chars quiet s = true ∧ u = s +:+ String "?" rest.

(** ** Sample runs

    Entries with a title and a link and no summary; BeautifulSoup finds no
    image in an empty summary.  The first feed of [RSS_FEEDS] returns the
    sample entries, the other feeds nothing. *)

Definition no_image (summary : string) : option (option string) := None.

Definition entry_of (title link : string) : RawEntry :=
  {| entry_title := Some title; entry_summary := None; entry_link := Some link |}.

Definition first_feed : string :=
  "https://slickdeals.net/newsearch.php?searchin=first&rss=1".

Definition second_feed : string := "https://www.reddit.com/r/buildapcsales/.rss".

Definition single_feed (entries : list RawEntry) (url : string) : list RawEntry :=
  if String.eqb url first_feed then entries else [].

(** What [head] falls back on when a list of Deals is empty. *)
Definition blank_deal : Deal :=
  {| deal_id := ""; deal_title := ""; deal_image := ""; deal_price := "";
     deal_rating := ""; deal_reviews := ""; deal_url := ""; deal_category := "";
     deal_timestamp := 0%Z; deal_score := 0%Z; deal_discount := 0%Z |}.

Definition frozen_clock (k : nat) : Z := 1700000000%Z.
Definition ticking_clock (k : nat) : Z := (1700000000 + Z.of_nat k)%Z.

(** A clock that agrees with [ticking_clock] on the readings a run can make. *)
Definition late_clock (k : nat) : Z :=
  if k <? MAX_DEALS then ticking_clock k else 0%Z.

Definition two_plain_entries : list RawEntry :=
  [ entry_of "Desk Organizer" "https://www.amazon.com/dp/B000000001";
    entry_of "Garden Hose Reel" "https://www.amazon.com/dp/B000000002" ].

Definition repeated_identifier : list RawEntry :=
  [ entry_of "Desk Organizer" "https://www.amazon.com/dp/B000000001";
    entry_of "Garden Hose Reel" "https://www.amazon.com/dp/B000000001" ].

Definition twin_titles : list RawEntry :=
  [ entry_of "[HOT] Deal: Echo Dot (50% OFF) - $19.99"
             "https://www.amazon.com/dp/B000000001";
    entry_of "[HOT] Deal: Echo Dot (50% OFF) - $19.99"
             "https://www.amazon.com/dp/B000000002" ].

Definition tagged_titles : list RawEntry :=
  [ entry_of "[HOT] Widget Pro Max" "https://www.amazon.com/dp/B000000001";
    entry_of "[Amazon Warehouse] Widget Pro Max"
             "https://www.amazon.com/dp/B000000002" ].

Definition foreign_tag_url : string :=
  "https://www.amazon.com/dp/B08XYZ1234?tag=other-20&ref=abc".

Definition foreign_tag_entry : list RawEntry :=
  [ entry_of "Desk Organizer" foreign_tag_url ].

(** A feed that fills the global capacity: thirty entries for each of
    three categories (five of each thirty run into the category cap), then
    ten uncategorised ones, of which five are accepted. *)

Definition digit_char (n : nat) : ascii := ascii_of_nat (48 + n).

Fixpoint repeat_char (n : nat) (c : ascii) (s : string) : string :=
  match n with
  | O => s
  | S n' => String c (repeat_char n' c s)
  end.

Definition sample_entry (keyword : string) (i : nat) : RawEntry :=
  let d1 := digit_char (i / 10) in
  let d2 := digit_char (i mod 10) in
  entry_of (keyword +:+ " " +:+ repeat_char 6 d1 (repeat_char 6 d2 ""))
           ("https://www.amazon.com/dp/B0000000" +:+ String d1 (String d2 "")).

Definition crowded_feed : list RawEntry :=
  map (sample_entry "ssd") (seq 0 30) ++ map (sample_entry "xbox") (seq 30 30)
  ++ map (sample_entry "sofa") (seq 60 30) ++ map (sample_entry "item") (seq 90 10).

Definition two_feeds (url : string) : list RawEntry :=
  if String.eqb url first_feed then crowded_feed
  else if String.eqb url second_feed then two_plain_entries
  else [].

(** ** The texts the patterns extract *)

(** [[A-Z0-9]] *)
Definition asin_char (c : ascii) : bool := Str.is_upper c || Str.is_digit c.

(** Ten characters of [[A-Z0-9]]. *)
Definition is_asin (a : string) : bool :=
  (String.length a =? 10) && Urllib.all_chars asin_char a.

(** [[^\s\x22<]] *)
Definition link_char (c : ascii) : bool :=
  negb (Str.is_space c || Ascii.eqb c "034" || Ascii.eqb c "<").

(** [s] is [pre], then [w], then some text. *)
Definition occurs_at (pre w s : string) : Prop := ∃ post, s = pre +:+ w +:+ post.

(** A numeral of digits. *)
Definition is_numeral (ds : string) : bool :=
  Str.nonempty ds && Urllib.all_chars Str.is_digit ds.

(** Nothing, or a point and one or two digits. *)
Definition is_cents (f : string) : bool :=
  match f with
  | EmptyString => true
  | String "." (String d1 EmptyString) => Str.is_digit d1
  | String "." (String d1 (String d2 EmptyString)) =>
      Str.is_digit d1 && Str.is_digit d2
  | _ => false
  end.

(** A digit or the point. *)
Definition numeral_char (c : ascii) : bool :=
  Str.is_digit c || Ascii.eqb c ".".

(** ** Matching blocks on both sides *)

(** A range with its bounds in order. *)
Definition range_ok (r : Difflib.range) : Prop :=
  let '(alo, ahi, blo, bhi) := r in alo ≤ ahi ∧ blo ≤ bhi.

(** A block that lies in [a[alo:ahi]] and in [b[blo:bhi]]. *)
Definition block_inside (r : Difflib.range) (bl : Difflib.block) : Prop :=
  let '(alo, ahi, blo, bhi) := r in
  let '(i, j, k) := bl in alo ≤ i ∧ i + k ≤ ahi ∧ blo ≤ j ∧ j + k ≤ bhi.

(** In [j2len], a run that ends at [j] starts at [blo] or later. *)
Definition runs_from (blo : nat) (j2len : gmap nat nat) : Prop :=
  ∀ j v, j2len !! j = Some v → v + blo ≤ j + 1.

(** The summed sizes of a list of blocks. *)
Definition total_size (blocks : list Difflib.block) : nat :=
  foldr (λ '(_, _, k) acc, k + acc) 0 blocks.

(** What the ranges of a queue span in [a], and in [b]. *)
Definition span_a (queue : list Difflib.range) : nat :=
  foldr (λ '(alo, ahi, _, _) n, (ahi - alo) + n) 0 queue.

Definition span_b (queue : list Difflib.range) : nat :=
  foldr (λ '(_, _, blo, bhi) n, (bhi - blo) + n) 0 queue.

(** ** A sequence against itself *)

(** The length of the run of characters of [l] that are not popular and
    that ends at index [j]. *)
Fixpoint run_at (l : list ascii) (j : nat) : nat :=
  match l !! j with
  | Some c =>
      if Difflib.popular l c then 0
      else S (match j with O => 0 | S j' => run_at l j' end)
  | None => 0
  end.

(** What the scan of [l] against itself keeps true before row [i]: the
    lengths in [j2len] are runs, the one on the diagonal is the whole run,
    and the best size covers the runs seen. *)
Definition diagonal_inv (l : list ascii) (i : nat) (j2len : gmap nat nat)
    (bestsize : nat) : Prop :=
  (∀ j v, j2len !! j = Some v →
     v ≤ run_at l j ∧ ∃ i', i = S i' ∧ v ≤ run_at l i')
  ∧ (∀ i', i = S i' → default 0 (j2len !! i') = run_at l i')
  ∧ (∀ j, j < i → run_at l j ≤ bestsize).

(** ** States that only grow *)

(** From [s1] to [s2] nothing is taken away or changed. *)
Definition grows (s1 s2 : State) : Prop :=
  deals s1 `prefix_of` deals s2
  ∧ seen_asins s1 ⊆ seen_asins s2
  ∧ seen_titles s1 ⊆ seen_titles s2
  ∧ fetched s1 `prefix_of` fetched s2
  ∧ clock_reads s1 ≤ clock_reads s2.

(** Every state of a trace is related to the one before it, the first one
    to [st]. *)
Fixpoint chain (R : State → State → Prop) (st : State) (trace : list State)
    : Prop :=
  match trace with
  | [] => True
  | s :: trace' => R st s ∧ chain R s trace'
  end.

(** No category is recorded with a count of zero. *)
Definition counts_positive (st : State) : Prop :=
  ∀ c v, category_counts st !! c = Some v → (1 ≤ v)%Z.


(** ** What a run costs *)

(** The seconds slept and the requests sent in a list of effects. *)
Definition slept (effects : list Net.effect) : Q :=
  foldr (λ e t, match e with Net.Sleep s => (s + t)%Q | Net.Get _ => t end)
        0%Q effects.

Definition requests (effects : list Net.effect) : nat :=
  foldr (λ e n, match e with Net.Get _ => S n | Net.Sleep _ => n end) 0 effects.

(** The effects of fetching the feeds [urls] one after the other. *)
Definition fetch_effects (respond : string → nat → option (list RawEntry))
    (urls : list string) : list Net.effect :=
  flat_map (λ u, (Net.fetch_feed respond u).1) urls.

(** ** The score *)

(** The labels a Deal can carry. *)
Definition CATEGORY_LABELS : list string := map fst TAXONOMY ++ ["General"].

(** ** White space in a title *)

(** The number of white-space characters [s] starts with. *)
Fixpoint run_length (s : string) : nat :=
  match s with
  | String c s' => if Str.is_space c then S (run_length s') else 0
  | EmptyString => 0
  end.

(** Every run of white space becomes one space; [in_run] tells that the
    space of the current run is already written. *)
Fixpoint collapse (in_run : bool) (s : string) : string :=
  match s with
  | EmptyString => EmptyString
  | String c s' =>
      if Str.is_space c
      then if in_run then collapse true s' else String " " (collapse true s')
      else String c (collapse false s')
  end.

(** [s] does not start with white space. *)
Definition starts_clean (s : string) : bool :=
  match s with
  | String c _ => negb (Str.is_space c)
  | EmptyString => true
  end.

(** [s] does not end with white space. *)
Fixpoint ends_clean (s : string) : bool :=
  match s with
  | EmptyString => true
  | String c EmptyString => negb (Str.is_space c)
  | String _ s' => ends_clean s'
  end.

(** Every white-space character of [s] is a space, and the character after
    it is not white space; [at_end] tells whether a space may stand last. *)
Fixpoint spaces_single (at_end : bool) (s : string) : bool :=
  match s with
  | EmptyString => true
  | String c s' =>
      (if Str.is_space c
       then Ascii.eqb c " "
            && match s' with
               | String c' _ => negb (Str.is_space c')
               | EmptyString => at_end
               end
       else true)
      && spaces_single at_end s'
  end.

(** The words of [s] are separated by single spaces, and no white space
    stands before the first or after the last. *)
Definition single_spaced (s : string) : bool :=
  starts_clean s && ends_clean s && spaces_single false s.

(** ** The image of a Deal *)

(** Every Deal has an image. *)
Definition images_present (st : State) : Prop :=
  Forall (λ d, Str.nonempty (deal_image d) = true) (deals st).

(** [https://m.media-amazon.com/images/I/{asin}._AC_SL1500_.jpg] *)
Definition fallback_image (asin : string) : string :=
  "https://m.media-amazon.com/images/I/" +:+ asin +:+ "._AC_SL1500_.jpg".

(** The image of [d] is the one found in the summary of [entry], or the
    fallback for the identifier of [d] when none is found. *)
Definition image_chosen (soup_find_img : string → option (option string))
    (entry : RawEntry) (d : Deal) : Prop :=
  deal_image d
  = default (fallback_image (deal_id d))
      (extract_image_from_summary soup_find_img (get (entry_summary entry))).

Definition images_chosen (soup_find_img : string → option (option string))
    (st : State) : Prop :=
  ∀ d, d ∈ deals st → ∃ entry, derived_from entry d ∧ image_chosen soup_find_img entry d.

(** ** A query parsed again *)

(** What [parse_qs] makes of a value written by [urlencode]. *)
Definition as_list (kv : string * Urllib.qvalue) : string * Urllib.qvalue :=
  match kv with
  | (k, Urllib.VStr s) => (k, Urllib.VList [s])
  | (k, Urllib.VList l) => (k, Urllib.VList l)
  end.

(** A value of [parse_qs]: a list that is not empty. *)
Definition listed (kv : string * Urllib.qvalue) : Prop :=
  ∃ v l, kv.2 = Urllib.VList (v :: l).

(** A value [urlencode] writes at least one pair for. *)
Definition written (kv : string * Urllib.qvalue) : Prop :=
  match kv.2 with
  | Urllib.VList l => l ≠ []
  | Urllib.VStr _ => True
  end.

(** ** A sample run with an image in a summary *)

Definition pictured_summary : string :=
  "<p>Tidy desk <img src='https://example.com/desk.jpg'></p>".

(** BeautifulSoup on the sample summaries: one of them has an image. *)
Definition sample_soup (summary : string) : option (option string) :=
  if String.eqb summary pictured_summary
  then Some (Some "https://example.com/desk.jpg")
  else None.

Definition pictured_entries : list RawEntry :=
  [ {| entry_title := Some "Desk Organizer";
       entry_summary := Some pictured_summary;
       entry_link := Some "https://www.amazon.com/dp/B000000001" |};
    entry_of "Garden Hose Reel" "https://www.amazon.com/dp/B000000002" ].

(** ** The inputs the embedding is exact on

    The character predicates of [Str] and [Re] are Python's on the ASCII
    range, [int_of_digits] is [int] on the numerals that [int] converts,
    [Urllib.unquote] is the library's on escapes below 0x80 and
    [Urllib.urlparse] is the library's on the URLs it does not refuse.  The
    predicates below delimit these inputs. *)

(** Every character of [s] is below 0x80. *)
Definition ascii_text (s : string) : bool :=
  Urllib.all_chars (λ c, Str.code c <? 128) s.

(** A square bracket.  [urlsplit] raises [ValueError] on a host with a
    bracket, unless the brackets enclose an IP address. *)
Definition bracket (c : ascii) : bool := Ascii.eqb c "[" || Ascii.eqb c "]".

(** Every name and every value that [parse_qsl] reads from the query [qs]
    is ASCII.  The embedding decodes a percent escape to one character; the
    library goes on to read the characters above 0x7f as UTF-8. *)
Definition ascii_fields (qs : string) : bool :=
  forallb (λ kv, ascii_text kv.1 && ascii_text kv.2) (Urllib.parse_qsl qs).

(** A URL that [add_affiliate_tag] takes without raising and on which the
    embedding is exact: ASCII text without a square bracket, with a query
    whose names and values are ASCII. *)
Definition taggable (url : string) : bool :=
  ascii_text url
  && Urllib.all_chars (λ c, negb (bracket c)) url
  && ascii_fields (Urllib.query (Urllib.urlparse url)).

(** An entry the loop body processes without raising and on which the
    embedding is exact: ASCII fields, a title short enough for [int] to
    convert any numeral in it, and a product link, if one is found, that is
    [taggable]. *)
Definition covered (entry : RawEntry) : bool :=
  ascii_text (get (entry_title entry))
  && (String.length (get (entry_title entry)) <=? INT_MAX_STR_DIGITS)
  && ascii_text (get (entry_summary entry))
  && ascii_text (get (entry_link entry))
  && match extract_amazon_url (get (entry_summary entry))
             (get (entry_link entry)) with
     | Some url => taggable url
     | None => true
     end.

(** Every entry of every feed is [covered]. *)
Definition covered_feeds (fetch_feed : string → list RawEntry)
    (feeds : list string) : Prop :=
  ∀ feed_url entry,
    feed_url ∈ feeds → entry ∈ fetch_feed feed_url → covered entry = true.


(** ** The parts of a URL *)

(** A character [urlsplit] does not remove: not TAB, CR or LF. *)
Definition url_kept (c : ascii) : bool :=
  negb (Ascii.eqb c "009" || Ascii.eqb c "013" || Ascii.eqb c "010").

(** The characters that end a host. *)
Definition host_end (c : ascii) : bool :=
  Ascii.eqb c "/" || Ascii.eqb c "?" || Ascii.eqb c "#".

Definition host_char (c : ascii) : bool :=
  (Str.code c <? 128) && url_kept c && negb (bracket c) && negb (host_end c).

Definition path_char (c : ascii) : bool :=
  (Str.code c <? 128) && url_kept c && negb (Ascii.eqb c "?" || Ascii.eqb c "#").

Definition query_char (c : ascii) : bool :=
  (Str.code c <? 128) && url_kept c && negb (Ascii.eqb c "#").

Definition fragment_char (c : ascii) : bool := (Str.code c <? 128) && url_kept c.

(** [s.endswith(c)] for a one-character suffix *)
Fixpoint ends_with (c : ascii) (s : string) : bool :=
  match s with
  | EmptyString => false
  | String a EmptyString => Ascii.eqb a c
  | String _ s' => ends_with c s'
  end.

(** The query with its mark, the fragment with its mark. *)
Definition query_part (q : option string) : string :=
  match q with Some q => "?" +:+ q | None => "" end.

Definition fragment_part (f : option string) : string :=
  match f with Some f => "#" +:+ f | None => "" end.

(** [scheme://host], then the path, the query and the fragment. *)
Definition url_of (sch host path : string) (q f : option string) : string :=
  sch +:+ "://" +:+ host +:+ path +:+ query_part q +:+ fragment_part f.

(** The parts of a URL that [urlparse] and [urlunparse] give back as they
    are: the scheme is http or https, the host is not empty, the path is
    empty or starts with a slash and does not end with a semicolon, a
    fragment is not empty; every character is ASCII and none is TAB, CR or
    LF; the host has no bracket, and the names and values of the query
    are ASCII. *)
Definition plain_parts (sch host path : string) (q f : option string) : bool :=
  (String.eqb sch "http" || String.eqb sch "https")
  && Str.nonempty host && Urllib.all_chars host_char host
  && (negb (Str.nonempty path) || String.prefix "/" path)
  && Urllib.all_chars path_char path && negb (ends_with ";" path)
  && match q with
     | Some q => Urllib.all_chars query_char q && ascii_fields q
     | None => true
     end
  && match f with
     | Some f => Str.nonempty f && Urllib.all_chars fragment_char f
     | None => true
     end.

(** The query [add_affiliate_tag] writes for the query [qs]. *)
Definition merged_query (qs : string) : string :=
  Urllib.urlencode
    (Urllib.dict_set "tag" (Urllib.VStr AFFILIATE_TAG) (Urllib.parse_qs qs)).

(** [t] is empty or starts with a character of [p]. *)
Definition starts_in (p : ascii → bool) (t : string) : bool :=
  match t with
  | EmptyString => true
  | String c _ => p c
  end.

(** * Properties of the pipeline: proofs *)

(** ** Sorting *)

Section ListSortFacts.
Context {A : Type}.
Variable key : A → Z * Z.

Lemma key_lt_spec k1 k2 : key_lt k1 k2 = true ↔ lex_lt k1 k2.
Proof. unfold key_lt, lex_lt. destruct k1, k2; simpl. lia. Qed.

Lemma key_lt_false k1 k2 :
  key_lt k1 k2 = false ↔ (k2.1 < k1.1 ∨ (k1.1 = k2.1 ∧ k2.2 ≤ k1.2))%Z.
Proof. unfold key_lt. destruct k1, k2; simpl. lia. Qed.

Lemma asc_trans x y z : (asc key) x y → (asc key) y z → (asc key) x z.
Proof. unfold asc. rewrite !key_lt_false. lia. Qed.

Lemma insert_stable_perm x l : insert_stable key x l ≡ₚ x :: l.
Proof.
  induction l as [|y l IH]; simpl; [done|].
  destruct (key_lt (key y) (key x)); [|done].
  rewrite IH. apply Permutation_swap.
Qed.

Lemma sort_ascending_perm l : sort_ascending key l ≡ₚ l.
Proof.
  induction l as [|x l IH]; simpl; [done|].
  by rewrite insert_stable_perm, IH.
Qed.

Lemma insert_stable_sorted x l :
  StronglySorted (asc key) l → StronglySorted (asc key) (insert_stable key x l).
Proof.
  induction 1 as [|y l Hs IH Hy]; simpl.
  - repeat constructor.
  - destruct (key_lt (key y) (key x)) eqn:E.
    + constructor; [done|].
      rewrite insert_stable_perm. constructor; [|done].
      unfold asc. apply key_lt_spec in E. apply key_lt_false.
      unfold lex_lt in E. lia.
    + constructor; [by constructor|].
      constructor; [done|].
      eapply Forall_impl; [exact Hy|].
      intros z Hz. by apply asc_trans with y.
Qed.

Lemma sort_ascending_sorted l : StronglySorted (asc key) (sort_ascending key l).
Proof.
  induction l; simpl; [constructor|]. by apply insert_stable_sorted.
Qed.

Lemma StronglySorted_snoc (R : A → A → Prop) l x :
  StronglySorted R l → Forall (λ y, R y x) l → StronglySorted R (l ++ [x]).
Proof.
  induction 1 as [|y l Hs IH Hy]; simpl; intros Hx.
  - repeat constructor.
  - inversion_clear Hx. constructor; [by apply IH|].
    apply Forall_app; split; [done|]. by constructor.
Qed.

Lemma StronglySorted_weaken (R R' : A → A → Prop) l :
  (∀ x y, R x y → R' x y) → StronglySorted R l → StronglySorted R' l.
Proof.
  intros HR. induction 1 as [|y l Hs IH Hy]; constructor; [done|].
  eapply Forall_impl; [exact Hy|]. intros z. apply HR.
Qed.

Lemma StronglySorted_rev (R : A → A → Prop) l :
  StronglySorted R l → StronglySorted (flip R) (rev l).
Proof.
  induction 1 as [|y l Hs IH Hy]; simpl; [constructor|].
  apply StronglySorted_snoc; [done|].
  apply Forall_rev. done.
Qed.

Lemma sort_reverse_perm l : sort_reverse key l ≡ₚ l.
Proof.
  unfold sort_reverse.
  by rewrite <- Permutation_rev, sort_ascending_perm, <- Permutation_rev.
Qed.

Lemma sort_reverse_sorted l : StronglySorted (desc key) (sort_reverse key l).
Proof.
  unfold sort_reverse.
  apply (StronglySorted_rev (asc key)), sort_ascending_sorted.
Qed.

Lemma insert_stable_filter k x l :
  filter (λ y, key y = k) (insert_stable key x l)
  = filter (λ y, key y = k) (x :: l).
Proof.
  induction l as [|y l IH]; simpl; [done|].
  destruct (key_lt (key y) (key x)) eqn:E; [|done].
  rewrite filter_cons, IH, !filter_cons.
  apply key_lt_spec in E. unfold lex_lt in E.
  repeat case_decide; try done.
  exfalso. rewrite <- H0 in H. rewrite H in E. lia.
Qed.

Lemma sort_ascending_filter k l :
  filter (λ y, key y = k) (sort_ascending key l) = filter (λ y, key y = k) l.
Proof.
  induction l as [|x l IH]; simpl; [done|].
  by rewrite insert_stable_filter, !filter_cons, IH.
Qed.

Lemma filter_rev_key k l :
  filter (λ y, key y = k) (rev l) = rev (filter (λ y, key y = k) l).
Proof.
  induction l as [|x l IH]; simpl; [done|].
  rewrite filter_app, IH, !filter_cons, filter_nil.
  case_decide; simpl; [done|]. by rewrite app_nil_r.
Qed.

Lemma sort_reverse_filter k l :
  filter (λ y, key y = k) (sort_reverse key l) = filter (λ y, key y = k) l.
Proof.
  unfold sort_reverse.
  by rewrite filter_rev_key, sort_ascending_filter, filter_rev_key, rev_involutive.
Qed.
End ListSortFacts.

(** ** Similarity: the fuel of the work queue *)

Module DifflibFacts.
Import Difflib.

Section Bounds.
Variables a b : list ascii.

Lemma scan_js_bounds alo i blo bhi j2len js : ∀ newj2len best,
  alo ≤ i →
  lengths_below (i - alo) j2len →
  lengths_below (i + 1 - alo) newj2len →
  block_within alo (i + 1) best →
  lengths_below (i + 1 - alo) (scan_js i blo bhi j2len js newj2len best).1
  ∧ block_within alo (i + 1) (scan_js i blo bhi j2len js newj2len best).2.
Proof.
  induction js as [|j js IH]; intros newj2len best Hi Hold Hnew Hbest;
    cbn [scan_js]; [done|].
  destruct (j <? blo); [by apply IH|].
  destruct (bhi <=? j); [done|].
  assert (Hk : j2lenget j2len j + 1 ≤ i + 1 - alo).
  { unfold j2lenget. destruct j as [|j']; [lia|].
    destruct (j2len !! j') as [v|] eqn:E; simpl; [|lia].
    specialize (Hold j' v E). lia. }
  destruct best as [[bi bj] bs]. apply IH; [done..| |].
  - intros j0 v. rewrite lookup_insert. case_decide; [|apply Hnew].
    intros [= <-]. done.
  - destruct (bs <? j2lenget j2len j + 1); [|done].
    unfold block_within. lia.
Qed.

Lemma scan_i_bounds alo blo bhi n : ∀ i j2len best,
  alo ≤ i →
  lengths_below (i - alo) j2len →
  block_within alo i best →
  block_within alo (i + n) (scan_i a b n i blo bhi j2len best).
Proof.
  induction n as [|n IH]; intros i j2len best Hi Hlen Hbest; cbn [scan_i].
  - by rewrite Nat.add_0_r.
  - assert (Hweak : ∀ m, block_within alo i best → block_within alo (i + m) best).
    { intros m. destruct best as [[bi bj] bs]. unfold block_within. lia. }
    destruct (a !! i) as [c|]; [|by apply Hweak].
    destruct (scan_js_bounds alo i blo bhi j2len (b2j b c) ∅ best) as [H1 H2];
      [done|done|by intros j v|by apply (Hweak 1)|].
    destruct (scan_js i blo bhi j2len (b2j b c) ∅ best) as [newj2len best'].
    cbn [fst snd] in *.
    replace (i + S n) with (S i + n) by lia.
    apply IH; [lia| |].
    + by replace (S i - alo) with (i + 1 - alo) by lia.
    + by replace (S i) with (i + 1) by lia.
Qed.

Lemma extend_left_bounds alo ahi blo fuel : ∀ best,
  block_within alo ahi best →
  block_within alo ahi (extend_left a b fuel alo blo best).
Proof.
  induction fuel as [|fuel IH]; intros [[bi bj] bs] Hbest; cbn [extend_left];
    [done|].
  destruct ((alo <? bi) && (blo <? bj) && same_at a b (bi - 1) (bj - 1)) eqn:E;
    [|done].
  apply IH. apply andb_true_iff in E as [[H1%Nat.ltb_lt _]%andb_true_iff _].
  unfold block_within in *. lia.
Qed.

Lemma extend_right_bounds alo ahi bhi fuel : ∀ best,
  block_within alo ahi best →
  block_within alo ahi (extend_right a b fuel ahi bhi best).
Proof.
  induction fuel as [|fuel IH]; intros [[bi bj] bs] Hbest; cbn [extend_right];
    [done|].
  destruct ((bi + bs <? ahi) && (bj + bs <? bhi) && same_at a b (bi + bs) (bj + bs))
    eqn:E; [|done].
  apply IH. apply andb_true_iff in E as [[H1%Nat.ltb_lt _]%andb_true_iff _].
  unfold block_within in *. lia.
Qed.

Lemma find_longest_match_bounds alo ahi blo bhi :
  alo ≤ ahi → block_within alo ahi (find_longest_match a b alo ahi blo bhi).
Proof.
  intros Hle. unfold find_longest_match.
  apply extend_right_bounds, extend_left_bounds.
  replace ahi with (alo + (ahi - alo)) at 1 by lia.
  apply scan_i_bounds; [done| |].
  - by intros j v.
  - unfold block_within. lia.
Qed.

Lemma queue_weight_cons r queue :
  queue_weight (r :: queue) = range_weight r + queue_weight queue.
Proof. done. Qed.

(** Fuel above the weight of the queue is never used up. *)
Lemma blocks_loop_fuel fuel : ∀ fuel' queue acc,
  Forall ordered queue →
  queue_weight queue ≤ fuel → queue_weight queue ≤ fuel' →
  blocks_loop a b fuel queue acc = blocks_loop a b fuel' queue acc.
Proof.
  induction fuel as [|fuel IH]; intros fuel' queue acc Hord Hf Hf'.
  - destruct queue as [|[[[alo ahi] blo] bhi] queue]; [by destruct fuel'|].
    rewrite queue_weight_cons in Hf. cbn [range_weight] in Hf. lia.
  - destruct queue as [|[[[alo ahi] blo] bhi] queue]; [by destruct fuel'|].
    destruct fuel' as [|fuel'];
      [rewrite queue_weight_cons in Hf'; cbn [range_weight] in Hf'; lia|].
    cbn [blocks_loop].
    inversion_clear Hord as [|? ? Hr Hq]. cbn in Hr.
    pose proof (find_longest_match_bounds alo ahi blo bhi Hr) as Hb.
    destruct (find_longest_match a b alo ahi blo bhi) as [[i j] k].
    cbn [block_within] in Hb. rewrite queue_weight_cons in Hf, Hf'.
    cbn [range_weight] in Hf, Hf'.
    destruct (Nat.eqb_spec k 0) as [->|Hk].
    + apply IH; [done|lia|lia].
    + set (q1 := if (alo <? i) && (blo <? j) then (alo, i, blo, j) :: queue
                 else queue).
      set (q2 := if (i + k <? ahi) && (j + k <? bhi)
                 then (i + k, ahi, j + k, bhi) :: q1 else q1).
      assert (H1 : Forall ordered q1
                   ∧ queue_weight q1 ≤ queue_weight queue
                       + (if alo <? i then 2 * (i - alo) + 1 else 0)).
      { unfold q1. destruct (Nat.ltb_spec alo i), (blo <? j); cbn [andb];
          (split; [|rewrite ?queue_weight_cons; cbn [range_weight]; lia]); try done.
        constructor; [cbn; lia|done]. }
      destruct H1 as [Ho1 Hw1].
      assert (H2 : Forall ordered q2
                   ∧ queue_weight q2 ≤ queue_weight q1
                       + (if i + k <? ahi then 2 * (ahi - (i + k)) + 1 else 0)).
      { unfold q2. destruct (Nat.ltb_spec (i + k) ahi), (j + k <? bhi); cbn [andb];
          (split; [|rewrite ?queue_weight_cons; cbn [range_weight]; lia]); try done.
        constructor; [cbn; lia|done]. }
      destruct H2 as [Ho2 Hw2].
      assert (Hw : queue_weight q2 ≤ queue_weight queue + 2 * (ahi - alo)).
      { destruct (Nat.ltb_spec alo i), (Nat.ltb_spec (i + k) ahi); lia. }
      apply IH; [done|lia|lia].
Qed.

Lemma get_matching_blocks_fuel fuel :
  2 * length a + 1 ≤ fuel →
  blocks_loop a b fuel [(0, length a, 0, length b)] [] = get_matching_blocks a b.
Proof.
  intros Hf. unfold get_matching_blocks.
  apply blocks_loop_fuel;
    [|rewrite queue_weight_cons; cbn [range_weight queue_weight foldr]; lia..].
  constructor; [cbn; lia|constructor].
Qed.

End Bounds.
End DifflibFacts.

(** ** Query strings and URLs *)

Module UrlFacts.
Import Urllib.

Section Quoting.

Lemma unquote_quote_char c rest :
  unquote (plus_to_space (quote_plus_char c +:+ rest))
  = String c (unquote (plus_to_space rest)).
Proof. by destruct c as [[] [] [] [] [] [] [] []]. Qed.

Lemma app_cons c (s1 s2 : string) : String c s1 +:+ s2 = String c (s1 +:+ s2).
Proof. done. Qed.

Lemma app_nil_l (s : string) : "" +:+ s = s.
Proof. done. Qed.

Lemma string_app_assoc (s1 s2 s3 : string) :
  (s1 +:+ s2) +:+ s3 = s1 +:+ (s2 +:+ s3).
Proof. induction s1 as [|c s1 IH]; [done|]. by rewrite !app_cons, IH. Qed.

Lemma string_app_nil_r (s : string) : s +:+ "" = s.
Proof. induction s as [|c s IH]; [done|]. by rewrite app_cons, IH. Qed.

Lemma unquote_quote_plus s : unquote (plus_to_space (quote_plus s)) = s.
Proof.
  induction s as [|c s IH]; [done|]. cbn [quote_plus].
  by rewrite unquote_quote_char, IH.
Qed.

Lemma all_chars_app p s1 s2 :
  all_chars p (s1 +:+ s2) = all_chars p s1 && all_chars p s2.
Proof.
  induction s1 as [|c s1 IH]; [done|]. rewrite app_cons. cbn [all_chars].
  rewrite IH. by destruct (p c).
Qed.

Lemma quote_plus_char_field c : all_chars field_char (quote_plus_char c) = true.
Proof. by destruct c as [[] [] [] [] [] [] [] []]. Qed.

Lemma quote_plus_field s : all_chars field_char (quote_plus s) = true.
Proof.
  induction s as [|c s IH]; [done|]. cbn [quote_plus].
  by rewrite all_chars_app, quote_plus_char_field, IH.
Qed.

Lemma quote_plus_nonempty s : Str.nonempty s = true → Str.nonempty (quote_plus s) = true.
Proof.
  destruct s as [|c s]; [done|]. intros _. cbn [quote_plus].
  by destruct c as [[] [] [] [] [] [] [] []].
Qed.

Lemma all_chars_impl (p q : ascii → bool) s :
  (∀ c, p c = true → q c = true) → all_chars p s = true → all_chars q s = true.
Proof.
  intros Hpq. induction s as [|c s IH]; [done|]. cbn [all_chars].
  intros [Hc Hs]%andb_true_iff. by rewrite (Hpq c Hc), IH.
Qed.

Lemma break_app p s c t :
  all_chars (λ x, negb (p x)) s = true → p c = true →
  break p (s +:+ String c t) = (s, String c t).
Proof.
  intros Hs Hc. induction s as [|a s IH].
  - rewrite app_nil_l. cbn [break]. by rewrite Hc.
  - cbn [all_chars] in Hs. apply andb_true_iff in Hs as [Ha Hs].
    rewrite app_cons. cbn [break]. apply negb_true_iff in Ha. by rewrite Ha, IH.
Qed.

Lemma break_none p s :
  all_chars (λ x, negb (p x)) s = true → break p s = (s, "").
Proof.
  induction s as [|a s IH]; [done|]. cbn [all_chars break].
  intros [Ha Hs]%andb_true_iff. apply negb_true_iff in Ha. by rewrite Ha, IH.
Qed.

Lemma split_once_app c s t :
  all_chars (λ x, negb (is_char c x)) s = true →
  split_once c (s +:+ String c t) = Some (s, t).
Proof.
  intros Hs. unfold split_once. rewrite break_app; [done..|].
  unfold is_char. apply Ascii.eqb_refl.
Qed.

Lemma split_plain c s :
  all_chars (λ x, negb (is_char c x)) s = true → split c s = [s].
Proof.
  induction s as [|a s IH]; [done|]. cbn [all_chars split].
  intros [Ha Hs]%andb_true_iff. apply negb_true_iff in Ha.
  unfold is_char in Ha. rewrite Ascii.eqb_sym, Ha, IH; done.
Qed.

Lemma split_app c s t :
  all_chars (λ x, negb (is_char c x)) s = true →
  split c (s +:+ String c t) = s :: split c t.
Proof.
  induction s as [|a s IH]; intros Hs.
  - rewrite app_nil_l. cbn [split]. by rewrite Ascii.eqb_refl.
  - cbn [all_chars] in Hs. apply andb_true_iff in Hs as [Ha Hs].
    apply negb_true_iff in Ha. unfold is_char in Ha.
    rewrite app_cons. cbn [split]. by rewrite Ascii.eqb_sym, Ha, IH.
Qed.

Lemma join_cons sep x y l : join sep (x :: y :: l) = x +:+ sep +:+ join sep (y :: l).
Proof. done. Qed.

Lemma split_join c pieces :
  pieces ≠ [] →
  Forall (λ s, all_chars (λ x, negb (is_char c x)) s = true) pieces →
  split c (join (String c "") pieces) = pieces.
Proof.
  intros Hne Hall. induction Hall as [|x l Hx Hl IH]; [done|].
  destruct l as [|y l].
  - by apply split_plain.
  - rewrite join_cons, app_cons, app_nil_l, split_app by done.
    by rewrite IH.
Qed.

Lemma parse_field_encode k v :
  Str.nonempty v = true → parse_field (encode_pair (k, v)) = [(k, v)].
Proof.
  intros Hv. unfold parse_field, encode_pair. cbn [fst snd].
  rewrite app_cons, app_nil_l, split_once_app.
  - apply quote_plus_nonempty in Hv.
    destruct (quote_plus v) as [|c qv] eqn:E; [done|].
    by rewrite <- E, !unquote_quote_plus.
  - eapply all_chars_impl; [|apply quote_plus_field].
    intros c. unfold field_char, is_char.
    rewrite (Ascii.eqb_sym "="). by destruct (Ascii.eqb c "&"), (Ascii.eqb c "=").
Qed.

Lemma encode_pair_no_amp kv :
  all_chars (λ x, negb (is_char "&" x)) (encode_pair kv) = true.
Proof.
  unfold encode_pair. rewrite !all_chars_app.
  assert (H : ∀ s, all_chars (λ x, negb (is_char "&" x)) (quote_plus s) = true).
  { intros s. eapply all_chars_impl; [|apply quote_plus_field].
    intros c. unfold field_char, is_char.
    rewrite (Ascii.eqb_sym "&"). by destruct (Ascii.eqb c "&"). }
  by rewrite !H.
Qed.

Lemma parse_qsl_encode pairs :
  Forall (λ kv, Str.nonempty kv.2 = true) pairs →
  parse_qsl (join "&" (map encode_pair pairs)) = pairs.
Proof.
  intros Hall. unfold parse_qsl. destruct pairs as [|kv pairs]; [done|].
  rewrite split_join.
  - induction Hall as [|[k v] l Hv Hl IH]; [done|].
    cbn [map flat_map]. rewrite parse_field_encode by done. by rewrite IH.
  - done.
  - apply Forall_map, Forall_forall. intros kv' _. apply encode_pair_no_amp.
Qed.

End Quoting.

Section QueryDict.

Lemma string_eqb_decide (a b : string) :
  String.eqb a b = bool_decide (a = b).
Proof.
  destruct (String.eqb_spec a b).
  - by rewrite bool_decide_eq_true_2.
  - by rewrite bool_decide_eq_false_2.
Qed.

Lemma dict_get_set k k' v d :
  dict_get k' (dict_set k v d) = if decide (k = k') then Some v else dict_get k' d.
Proof.
  induction d as [|[k0 v0] d IH]; cbn [dict_get dict_set].
  - rewrite string_eqb_decide. case_bool_decide; by case_decide.
  - rewrite (string_eqb_decide k0 k). case_bool_decide as E1; cbn [dict_get].
    + subst k0. rewrite (string_eqb_decide k k'). case_bool_decide; by case_decide.
    + rewrite IH, (string_eqb_decide k0 k'). case_bool_decide as E2; [|done].
      subst k0. by case_decide.
Qed.

Lemma dict_get_None k d : k ∉ map fst d → dict_get k d = None.
Proof.
  induction d as [|[k0 v0] d IH]; [done|]. cbn [map fst dict_get].
  intros [Hne Hd]%not_elem_of_cons. rewrite string_eqb_decide.
  case_bool_decide; [congruence|by apply IH].
Qed.

Lemma dict_set_keys k v d :
  map fst (dict_set k v d) = if decide (k ∈ map fst d) then map fst d else map fst d ++ [k].
Proof.
  induction d as [|[k0 v0] d IH]; cbn [dict_set map fst].
  - destruct (decide _) as [H|H]; [by apply elem_of_nil in H|done].
  - rewrite string_eqb_decide. case_bool_decide as E; cbn [map fst].
    + subst k0. clear IH. destruct (decide _) as [H|H]; [done|]. exfalso. apply H. by left.
    + rewrite IH.
      destruct (decide (k ∈ map fst d)) as [H|H],
               (decide (k ∈ k0 :: map fst d)) as [H'|H']; try done.
      * exfalso. apply H'. by right.
      * apply elem_of_cons in H' as [->|]; done.
Qed.

Lemma dict_set_NoDup k v d : NoDup (map fst d) → NoDup (map fst (dict_set k v d)).
Proof.
  intros Hd. rewrite dict_set_keys. case_decide as H; [done|].
  apply NoDup_app. split; [done|]. split; [|apply NoDup_singleton].
  intros x Hx ->%list_elem_of_singleton. done.
Qed.

Lemma values_of_app k l1 l2 :
  values_of k (l1 ++ l2) = values_of k l1 ++ values_of k l2.
Proof. unfold values_of. by rewrite filter_app, map_app. Qed.

Lemma values_of_elem k v pairs : v ∈ values_of k pairs ↔ (k, v) ∈ pairs.
Proof.
  unfold values_of. rewrite list_elem_of_fmap. split.
  - intros ([k' v'] & -> & [Hk Hin]%list_elem_of_filter). simpl in *. by subst.
  - intros Hin. exists (k, v). split; [done|]. by apply list_elem_of_filter.
Qed.

Lemma values_of_item k k' v :
  values_of k (item_pairs (k', v))
  = if decide (k' = k) then match v with VList l => l | VStr s => [s] end else [].
Proof.
  unfold values_of. destruct v as [l|s]; cbn [item_pairs].
  - induction l as [|x l IH]; [by case_decide|].
    cbn [map]. rewrite filter_cons. cbn [fst]. case_decide; cbn [map snd].
    + by rewrite IH.
    + done.
  - rewrite filter_cons, filter_nil. cbn [fst]. by case_decide.
Qed.

Lemma values_of_flatten k d :
  NoDup (map fst d) → values_of k (flat_map item_pairs d) = dict_values k d.
Proof.
  unfold dict_values.
  induction d as [|[k0 v0] d IH]; [done|]. cbn [map fst flat_map dict_get].
  intros [Hk0 Hd]%NoDup_cons. rewrite values_of_app, values_of_item, IH by done.
  rewrite string_eqb_decide. case_decide as E.
  - subst k0. rewrite bool_decide_eq_true_2 by done.
    rewrite (dict_get_None k d) by done. by rewrite app_nil_r.
  - by rewrite bool_decide_eq_false_2.
Qed.

Lemma dict_append_spec name value d :
  NoDup (map fst d) → no_str d →
  NoDup (map fst (dict_append name value d))
  ∧ no_str (dict_append name value d)
  ∧ ∀ k, dict_values k (dict_append name value d)
         = dict_values k d ++ (if decide (name = k) then [value] else []).
Proof.
  intros Hd Hs. unfold dict_append.
  assert (Hgen : ∀ l l',
    dict_values name d = l → l' = l ++ [value] →
    NoDup (map fst (dict_set name (VList l') d))
    ∧ no_str (dict_set name (VList l') d)
    ∧ ∀ k, dict_values k (dict_set name (VList l') d)
           = dict_values k d ++ (if decide (name = k) then [value] else [])).
  { intros l l' Hl ->. split; [by apply dict_set_NoDup|]. split.
    - intros k s. rewrite dict_get_set. case_decide; [done|apply Hs].
    - intros k. unfold dict_values at 1. rewrite dict_get_set.
      case_decide as E; [by subst|]. by rewrite app_nil_r. }
  destruct (dict_get name d) as [[l|s]|] eqn:E.
  - apply (Hgen l); [|done]. unfold dict_values. by rewrite E.
  - by destruct (Hs name s).
  - apply (Hgen []); [|done]. unfold dict_values. by rewrite E.
Qed.

Lemma parse_qs_fold pairs : ∀ d,
  NoDup (map fst d) → no_str d →
  let D := fold_left (λ d '(name, value), dict_append name value d) pairs d in
  NoDup (map fst D) ∧ no_str D
  ∧ ∀ k, dict_values k D = dict_values k d ++ values_of k pairs.
Proof.
  induction pairs as [|[n v] pairs IH]; intros d Hd Hs; cbn [fold_left].
  - split; [done|]. split; [done|]. intros k. by rewrite app_nil_r.
  - destruct (dict_append_spec n v d Hd Hs) as (H1 & H2 & H3).
    destruct (IH _ H1 H2) as (I1 & I2 & I3).
    split; [done|]. split; [done|]. intros k.
    rewrite I3, H3, <- app_assoc. f_equal.
    unfold values_of. rewrite filter_cons. cbn [fst]. by case_decide.
Qed.

Lemma parse_qs_values qs :
  NoDup (map fst (parse_qs qs))
  ∧ ∀ k, dict_values k (parse_qs qs) = values_of k (parse_qsl qs).
Proof.
  destruct (parse_qs_fold (parse_qsl qs) []) as (H1 & _ & H3);
    [constructor|by intros k s|].
  split; [done|]. intros k. by rewrite H3.
Qed.

Lemma unquote_nonempty s : Str.nonempty s = true → Str.nonempty (unquote s) = true.
Proof.
  destruct s as [|c s]; [done|]. intros _. cbn [unquote].
  destruct (Ascii.eqb c "%"); [|done].
  destruct s as [|h [|l s]]; [done..|].
  by destruct (hex_value h), (hex_value l).
Qed.

Lemma parse_qsl_nonempty qs :
  Forall (λ kv, Str.nonempty kv.2 = true) (parse_qsl qs).
Proof.
  unfold parse_qsl. apply Forall_flat_map, Forall_forall. intros f _.
  unfold parse_field. destruct (split_once "=" f) as [[name [|c v]]|]; [done| |done].
  constructor; [|done]. cbn [snd]. by apply unquote_nonempty.
Qed.

(** The dictionary [add_affiliate_tag] encodes. *)
Lemma tagged_values qs k :
  let q := dict_set "tag" (VStr AFFILIATE_TAG) (parse_qs qs) in
  NoDup (map fst q)
  ∧ dict_values k q
    = if decide (k = "tag") then [AFFILIATE_TAG] else values_of k (parse_qsl qs).
Proof.
  destruct (parse_qs_values qs) as [H1 H2]. cbn zeta.
  split; [by apply dict_set_NoDup|].
  unfold dict_values at 1. rewrite dict_get_set.
  case_decide as E1; case_decide as E2; try congruence.
  by rewrite <- H2.
Qed.

Lemma tagged_roundtrip qs :
  let q := dict_set "tag" (VStr AFFILIATE_TAG) (parse_qs qs) in
  parse_qsl (urlencode q) = flat_map item_pairs q.
Proof.
  cbn zeta. unfold urlencode. apply parse_qsl_encode.
  apply Forall_forall. intros [k v] Hin. cbn [snd].
  apply values_of_elem in Hin.
  destruct (tagged_values qs k) as [Hnd Hv]. cbn zeta in *.
  rewrite values_of_flatten, Hv in Hin by done.
  case_decide.
  - by apply list_elem_of_singleton in Hin as ->.
  - apply values_of_elem in Hin.
    pose proof (parse_qsl_nonempty qs) as Hall.
    rewrite Forall_forall in Hall. apply (Hall _ Hin).
Qed.

Lemma out_query_values url k :
  values_of k (parse_qsl (out_query url))
  = if decide (k = "tag") then [AFFILIATE_TAG]
    else values_of k (parse_qsl (query (urlparse url))).
Proof.
  unfold out_query. rewrite tagged_roundtrip.
  destruct (tagged_values (query (urlparse url)) k) as [Hnd Hv]. cbn zeta in *.
  by rewrite values_of_flatten.
Qed.

End QueryDict.

Section Reparse.

Lemma break_spec p s :
  s = (break p s).1 +:+ (break p s).2
  ∧ all_chars (λ x, negb (p x)) (break p s).1 = true
  ∧ ((break p s).2 = "" ∨ ∃ c t, (break p s).2 = String c t ∧ p c = true).
Proof.
  induction s as [|a s IH]; [by auto|]. cbn [break].
  destruct (p a) eqn:E.
  - split; [done|]. split; [done|]. right. by exists a, s.
  - destruct (break p s) as [x y]. cbn [fst snd] in *.
    destruct IH as (H1 & H2 & H3). split; [by rewrite app_cons, <- H1|].
    split; [|done]. cbn [all_chars]. by rewrite E, H2.
Qed.

Lemma split_once_Some c s x y :
  split_once c s = Some (x, y) →
  s = x +:+ String c y ∧ all_chars (λ a, negb (is_char c a)) x = true.
Proof.
  unfold split_once. destruct (break_spec (is_char c) s) as (H1 & H2 & H3).
  destruct (break (is_char c) s) as [x' y']. cbn [fst snd] in *.
  destruct y' as [|c' t]; [done|]. intros [= -> ->].
  destruct H3 as [|(c'' & t' & [= -> ->] & Hc)]; [done|].
  unfold is_char in Hc. apply Ascii.eqb_eq in Hc. by subst.
Qed.

Lemma split_once_None c s :
  split_once c s = None → all_chars (λ a, negb (is_char c a)) s = true.
Proof.
  unfold split_once. destruct (break_spec (is_char c) s) as (H1 & H2 & H3).
  destruct (break (is_char c) s) as [x' y']. cbn [fst snd] in *.
  destruct y' as [|c' t]; [|done]. intros _.
  by rewrite H1, string_app_nil_r.
Qed.

Lemma rsplit_from_Some c s x y : rsplit_from c s = Some (x, y) → s = x +:+ y.
Proof.
  revert x y. induction s as [|a s IH]; intros x y; [done|]. cbn [rsplit_from].
  destruct (rsplit_from c s) as [[x' y']|].
  - intros [= <- <-]. by rewrite app_cons, <- (IH x' y').
  - destruct (Ascii.eqb a c); [|done]. by intros [= <- <-].
Qed.

Lemma all_chars_app_iff p s1 s2 :
  all_chars p (s1 +:+ s2) = true ↔ all_chars p s1 = true ∧ all_chars p s2 = true.
Proof. by rewrite all_chars_app, andb_true_iff. Qed.

(** A string free of [c], followed by [c]: the first [c] is that one. *)
Lemma split_at_app c s t :
  all_chars (λ a, negb (is_char c a)) s = true →
  split_at c (s +:+ String c t) = (s, t).
Proof. intros Hs. unfold split_at. by rewrite split_once_app. Qed.

Lemma split_at_none c s :
  all_chars (λ a, negb (is_char c a)) s = true → split_at c s = (s, "").
Proof.
  intros Hs. unfold split_at, split_once. by rewrite break_none.
Qed.

Lemma quiet_no_query s :
  all_chars quiet s = true → all_chars (λ a, negb (is_char "?" a)) s = true.
Proof.
  apply all_chars_impl. intros c. unfold quiet, is_char.
  rewrite (Ascii.eqb_sym "?"). by destruct (Ascii.eqb c "?").
Qed.

Lemma quiet_no_fragment s :
  all_chars quiet s = true → all_chars (λ a, negb (is_char "#" a)) s = true.
Proof.
  apply all_chars_impl. intros c. unfold quiet, is_char.
  rewrite (Ascii.eqb_sym "#"). by destruct (Ascii.eqb c "?"), (Ascii.eqb c "#").
Qed.

Lemma plain_no_fragment s :
  all_chars url_plain s = true → all_chars (λ a, negb (is_char "#" a)) s = true.
Proof.
  apply all_chars_impl. intros c. unfold url_plain, is_char.
  rewrite (Ascii.eqb_sym "#"). by destruct (Ascii.eqb c "#").
Qed.

Lemma lstrip_c0_quiet s : all_chars quiet s = true → all_chars quiet (lstrip_c0 s) = true.
Proof.
  induction s as [|a s IH]; [done|]. cbn [lstrip_c0 all_chars].
  intros [Ha Hs]%andb_true_iff. destruct (Str.code a <=? 32); [by apply IH|].
  cbn [all_chars]. by rewrite Ha, Hs.
Qed.

Lemma lstrip_c0_app s c t :
  (Str.code c <=? 32) = false →
  lstrip_c0 (s +:+ String c t) = lstrip_c0 s +:+ String c t.
Proof.
  intros Hc. induction s as [|a s IH].
  - rewrite app_nil_l. cbn [lstrip_c0]. by rewrite Hc.
  - rewrite app_cons. cbn [lstrip_c0]. by destruct (Str.code a <=? 32).
Qed.

Lemma filter_chars_app p s t :
  filter_chars p (s +:+ t) = filter_chars p s +:+ filter_chars p t.
Proof.
  induction s as [|a s IH]; [done|]. rewrite app_cons. cbn [filter_chars].
  destruct (p a); by rewrite ?app_cons, IH.
Qed.

Lemma filter_chars_all p s : all_chars p s = true → filter_chars p s = s.
Proof.
  induction s as [|a s IH]; [done|]. cbn [all_chars filter_chars].
  intros [-> Hs]%andb_true_iff. by rewrite IH.
Qed.

Lemma filter_chars_keeps p q s :
  all_chars q s = true → all_chars q (filter_chars p s) = true.
Proof.
  induction s as [|a s IH]; [done|]. cbn [all_chars filter_chars].
  intros [Ha Hs]%andb_true_iff. destruct (p a); [|by apply IH].
  cbn [all_chars]. by rewrite Ha, IH.
Qed.

Lemma headed_suffix u rest x y :
  headed u rest → u = x +:+ y → all_chars quiet x = true →
  headed y rest.
Proof.
  intros (s & Hs & ->). revert s Hs. induction x as [|a x IH]; intros s Hs.
  - rewrite app_nil_l. intros <- _. by exists s.
  - destruct s as [|b s].
    + rewrite app_nil_l, app_cons. intros [= <- _]. done.
    + rewrite !app_cons. intros [= -> Heq]. cbn [all_chars] in *.
      intros [_ Hx]%andb_true_iff. apply andb_true_iff in Hs as [_ Hs].
      by apply (IH s).
Qed.

Lemma split_scheme_headed u rest :
  headed u rest → headed (split_scheme u).2 rest.
Proof.
  intros Hu. unfold split_scheme.
  destruct (split_once ":" u) as [[[|c0 pre] post]|] eqn:E; [done| |done].
  destruct (Str.is_alpha c0 && all_chars scheme_char (String c0 pre)) eqn:Hsch;
    [|done].
  apply andb_true_iff in Hsch as [_ Hsch]. cbn [snd].
  apply split_once_Some in E as [E _].
  apply (headed_suffix u rest (String c0 pre +:+ ":") post); [done| |].
  - by rewrite string_app_assoc.
  - rewrite all_chars_app, andb_true_iff. split; [|done].
    eapply all_chars_impl; [|exact Hsch].
    intros c. by destruct c as [[] [] [] [] [] [] [] []].
Qed.

Lemma split_netloc_headed u rest :
  headed u rest → headed (split_netloc u).2 rest.
Proof.
  intros Hu. unfold split_netloc.
  destruct u as [|a [|b u']]; [exact Hu| |].
  { by destruct a as [[] [] [] [] [] [] [] []]. }
  destruct (Ascii.eqb_spec a "/") as [->|Hne];
    [|by destruct a as [[] [] [] [] [] [] [] []]].
  destruct (Ascii.eqb_spec b "/") as [->|Hne];
    [|by destruct b as [[] [] [] [] [] [] [] []]].
  set (p := λ c, Ascii.eqb c "/" || Ascii.eqb c "?" || Ascii.eqb c "#").
  destruct (break_spec p u') as (H1 & H2 & _).
  apply (headed_suffix (String "/" (String "/" u')) rest
           ("//" +:+ (break p u').1) (break p u').2); [done| |].
  - by rewrite string_app_assoc, <- H1.
  - rewrite all_chars_app, andb_true_iff. split; [done|].
    eapply all_chars_impl; [|exact H2].
    intros c. unfold p, quiet. by destruct (Ascii.eqb c "/"), (Ascii.eqb c "?"), (Ascii.eqb c "#").
Qed.

Lemma strip_unsafe_headed s q F :
  all_chars quiet s = true → all_chars url_plain q = true →
  ∃ F', headed (strip_unsafe (s +:+ String "?" (q +:+ F))) (q +:+ F')
        ∧ (F = "" → F' = "")
        ∧ (∀ f, F = String "#" f → ∃ f', F' = String "#" f').
Proof.
  intros Hs Hq. unfold strip_unsafe.
  set (p := λ c, negb (Ascii.eqb c "009" || Ascii.eqb c "013" || Ascii.eqb c "010")).
  exists (filter_chars p F).
  rewrite lstrip_c0_app by done.
  rewrite filter_chars_app. cbn [filter_chars]. change (p "?"%char) with true. cbn iota.
  rewrite filter_chars_app.
  rewrite (filter_chars_all p q).
  2:{ eapply all_chars_impl; [|exact Hq]. intros c. unfold url_plain, p.
      by destruct (Ascii.eqb c "#"), (Ascii.eqb c "?"), (Ascii.eqb c "009"),
                  (Ascii.eqb c "010"), (Ascii.eqb c "013"). }
  split; [|split].
  - exists (filter_chars p (lstrip_c0 s)). split; [|done].
    by apply filter_chars_keeps, lstrip_c0_quiet.
  - by intros ->.
  - intros f ->. by exists (filter_chars p f).
Qed.

Lemma urlsplit_query s q F :
  all_chars quiet s = true → all_chars url_plain q = true →
  (F = "" ∨ ∃ f, F = String "#" f) →
  (urlsplit (s +:+ String "?" (q +:+ F))).1.2 = q.
Proof.
  intros Hs Hq HF. unfold urlsplit.
  destruct (strip_unsafe_headed s q F Hs Hq) as (F' & H0 & HF1 & HF2).
  assert (HF' : F' = "" ∨ ∃ f, F' = String "#" f).
  { destruct HF as [->|[f ->]]; [left; by apply HF1|right; by apply (HF2 f)]. }
  apply split_scheme_headed in H0.
  destruct (split_scheme _) as [scheme u1]. cbn [snd] in H0.
  apply split_netloc_headed in H0.
  destruct (split_netloc u1) as [netloc u2]. cbn [snd] in H0.
  destruct H0 as (s' & Hs' & ->).
  assert (Hfrag : split_at "#" (s' +:+ String "?" (q +:+ F')) = (s' +:+ String "?" q, match F' with String _ f => f | _ => "" end)).
  { destruct HF' as [->|[f ->]].
    - rewrite string_app_nil_r. apply split_at_none.
      rewrite all_chars_app, andb_true_iff. split; [by apply quiet_no_fragment|].
      cbn [all_chars]. rewrite plain_no_fragment by done. done.
    - replace (s' +:+ String "?" (q +:+ String "#" f))
        with ((s' +:+ String "?" q) +:+ String "#" f)
        by (by rewrite string_app_assoc, app_cons).
      apply split_at_app.
      rewrite all_chars_app, andb_true_iff. split; [by apply quiet_no_fragment|].
      cbn [all_chars]. rewrite plain_no_fragment by done. done. }
  rewrite Hfrag. rewrite split_at_app by (by apply quiet_no_query). done.
Qed.

End Reparse.

Section Unparse.

Lemma split_at_spec c u :
  all_chars (λ a, negb (is_char c a)) (split_at c u).1 = true
  ∧ (u = (split_at c u).1 ∨ u = (split_at c u).1 +:+ String c (split_at c u).2).
Proof.
  unfold split_at. destruct (split_once c u) as [[x y]|] eqn:E; cbn [fst snd].
  - apply split_once_Some in E as [-> Hx]. auto.
  - apply split_once_None in E. auto.
Qed.

Lemma all_chars_lower (p q : ascii → bool) s :
  (∀ c, p c = true → q (Str.lower_char c) = true) →
  all_chars p s = true → all_chars q (Str.lower s) = true.
Proof.
  intros Hpq. induction s as [|c s IH]; [done|]. cbn [all_chars Str.lower].
  intros [Hc Hs]%andb_true_iff. by rewrite (Hpq c Hc), IH.
Qed.

Lemma split_scheme_quiet u : all_chars quiet (split_scheme u).1 = true.
Proof.
  unfold split_scheme.
  destruct (split_once ":" u) as [[[|c0 pre] post]|]; [done| |done].
  destruct (Str.is_alpha c0 && all_chars scheme_char (String c0 pre)) eqn:Hsch;
    [|done].
  apply andb_true_iff in Hsch as [_ Hsch]. cbn [fst].
  eapply all_chars_lower; [|exact Hsch].
  intros c. by destruct c as [[] [] [] [] [] [] [] []].
Qed.

Lemma split_netloc_quiet u : all_chars quiet (split_netloc u).1 = true.
Proof.
  unfold split_netloc.
  destruct u as [|a [|b u']]; [done| |].
  { by destruct a as [[] [] [] [] [] [] [] []]. }
  destruct (Ascii.eqb_spec a "/") as [->|Hne];
    [|by destruct a as [[] [] [] [] [] [] [] []]].
  destruct (Ascii.eqb_spec b "/") as [->|Hne];
    [|by destruct b as [[] [] [] [] [] [] [] []]].
  set (p := λ c, Ascii.eqb c "/" || Ascii.eqb c "?" || Ascii.eqb c "#").
  destruct (break_spec p u') as (_ & H2 & _).
  eapply all_chars_impl; [|exact H2].
  intros c. unfold p, quiet.
  by destruct (Ascii.eqb c "/"), (Ascii.eqb c "?"), (Ascii.eqb c "#").
Qed.

Lemma no_both_quiet s :
  all_chars (λ a, negb (is_char "?" a)) s = true →
  all_chars (λ a, negb (is_char "#" a)) s = true →
  all_chars quiet s = true.
Proof.
  induction s as [|c s IH]; [done|]. cbn [all_chars].
  intros [H1 Hs1]%andb_true_iff [H2 Hs2]%andb_true_iff.
  rewrite IH by done. unfold quiet, is_char in *.
  rewrite (Ascii.eqb_sym c "?"), (Ascii.eqb_sym c "#").
  by destruct (Ascii.eqb "?" c), (Ascii.eqb "#" c).
Qed.

Lemma splitparams_quiet u :
  all_chars quiet u = true →
  all_chars quiet (_splitparams u).1 = true
  ∧ all_chars quiet (_splitparams u).2 = true.
Proof.
  intros Hu. unfold _splitparams.
  destruct (rsplit_from "/" u) as [[pre tail]|] eqn:E1.
  - apply rsplit_from_Some in E1. subst u.
    apply all_chars_app_iff in Hu as [Hpre Htail].
    destruct (split_once ";" tail) as [[x y]|] eqn:E2; cbn [fst snd].
    + apply split_once_Some in E2 as [-> _].
      apply all_chars_app_iff in Htail as [Hx Hy]. cbn [all_chars] in Hy.
      apply andb_true_iff in Hy as [_ Hy].
      by rewrite all_chars_app, Hpre, Hx.
    + by rewrite all_chars_app, Hpre, Htail.
  - destruct (split_once ";" u) as [[x y]|] eqn:E2; cbn [fst snd]; [|done].
    apply split_once_Some in E2 as [-> _].
    apply all_chars_app_iff in Hu as [Hx Hy]. cbn [all_chars] in Hy.
    by apply andb_true_iff in Hy as [_ Hy].
Qed.

Lemma urlparse_split url :
  scheme (urlparse url) = (urlsplit url).1.1.1.1
  ∧ netloc (urlparse url) = (urlsplit url).1.1.1.2
  ∧ query (urlparse url) = (urlsplit url).1.2
  ∧ fragment (urlparse url) = (urlsplit url).2
  ∧ (all_chars quiet (urlsplit url).1.1.2 = true →
     all_chars quiet (path (urlparse url)) = true
     ∧ all_chars quiet (params (urlparse url)) = true).
Proof.
  unfold urlparse. destruct (urlsplit url) as [[[[sc nl] u] q] fr]. cbn [fst snd].
  destruct (mem sc uses_params).
  - pose proof (splitparams_quiet u) as H.
    destruct (_splitparams u) as [p pa]. cbn [scheme netloc query fragment path params fst snd] in *.
    done.
  - cbn [scheme netloc query fragment path params]. done.
Qed.

Lemma urlsplit_quiet url :
  all_chars quiet (urlsplit url).1.1.1.1 = true
  ∧ all_chars quiet (urlsplit url).1.1.1.2 = true
  ∧ all_chars quiet (urlsplit url).1.1.2 = true.
Proof.
  unfold urlsplit.
  pose proof (split_scheme_quiet (strip_unsafe url)) as H1.
  destruct (split_scheme _) as [sc u1].
  pose proof (split_netloc_quiet u1) as H2.
  destruct (split_netloc u1) as [nl u2].
  destruct (split_at_spec "#" u2) as [H3 _].
  destruct (split_at "#" u2) as [u3 fr].
  destruct (split_at_spec "?" u3) as [H4 H5].
  destruct (split_at "?" u3) as [u4 q]. cbn [fst snd] in *.
  split; [done|]. split; [done|].
  apply no_both_quiet; [done|].
  destruct H5 as [H5|H5]; rewrite H5 in H3; [done|].
  by apply all_chars_app_iff in H3 as [? _].
Qed.

Lemma urlunsplit_shape sc nl u q fr :
  all_chars quiet sc = true → all_chars quiet nl = true →
  all_chars quiet u = true → Str.nonempty q = true →
  ∃ s F, all_chars quiet s = true
    ∧ (F = "" ∨ ∃ f, F = String "#" f)
    ∧ urlunsplit sc nl u q fr = s +:+ String "?" (q +:+ F).
Proof.
  intros Hsc Hnl Hu Hq. unfold urlunsplit. rewrite Hq.
  set (u1 := if Str.nonempty nl || _ then _ else u).
  assert (H1 : all_chars quiet u1 = true).
  { unfold u1. destruct (Str.nonempty nl || _); [|done].
    destruct (Str.nonempty u && _); by rewrite !all_chars_app, ?Hnl, ?Hu. }
  set (u2 := if Str.nonempty sc then _ else u1).
  assert (H2 : all_chars quiet u2 = true).
  { unfold u2. destruct (Str.nonempty sc); [|done].
    by rewrite !all_chars_app, Hsc, H1. }
  clearbody u2. exists u2.
  destruct (Str.nonempty fr) eqn:Hfr.
  - exists (String "#" fr). split; [done|]. split; [by eauto|].
    by rewrite string_app_assoc.
  - exists "". split; [done|]. split; [by left|].
    by rewrite string_app_nil_r.
Qed.

Lemma all_chars_join p sep l :
  all_chars p sep = true → Forall (λ s, all_chars p s = true) l →
  all_chars p (join sep l) = true.
Proof.
  intros Hsep Hl. induction Hl as [|x l Hx Hl IH]; [done|].
  destruct l as [|y l]; [done|].
  by rewrite join_cons, !all_chars_app, Hx, Hsep, IH.
Qed.

Lemma quote_plus_plain s : all_chars url_plain (quote_plus s) = true.
Proof.
  induction s as [|c s IH]; [done|]. cbn [quote_plus].
  rewrite all_chars_app, IH, andb_true_r.
  by destruct c as [[] [] [] [] [] [] [] []].
Qed.

Lemma urlencode_plain d : all_chars url_plain (urlencode d) = true.
Proof.
  unfold urlencode. apply all_chars_join; [done|].
  apply Forall_map, Forall_forall. intros kv _. unfold encode_pair.
  by rewrite !all_chars_app, !quote_plus_plain.
Qed.

Lemma dict_set_flatten_nonempty k s d :
  flat_map item_pairs (dict_set k (VStr s) d) ≠ [].
Proof.
  induction d as [|[k0 v0] d IH]; [done|]. cbn [dict_set].
  destruct (String.eqb k0 k); [done|]. cbn [flat_map].
  intros [_ H]%app_eq_nil. done.
Qed.

Lemma out_query_nonempty url : Str.nonempty (out_query url) = true.
Proof.
  unfold out_query, urlencode.
  pose proof (dict_set_flatten_nonempty "tag" AFFILIATE_TAG
                (parse_qs (query (urlparse url)))) as H.
  destruct (flat_map item_pairs _) as [|[k v] l]; [done|].
  cbn [map]. destruct (map encode_pair l).
  - cbn [join]. unfold encode_pair. cbn [fst snd].
    destruct (quote_plus k); done.
  - rewrite join_cons. unfold encode_pair. cbn [fst snd].
    destruct (quote_plus k); done.
Qed.

Lemma add_affiliate_tag_query url :
  query (urlparse (add_affiliate_tag url)) = out_query url.
Proof.
  destruct (urlparse_split url) as (Hsc & Hnl & _ & _ & Hpp).
  destruct (urlsplit_quiet url) as (Q1 & Q2 & Q3).
  destruct (Hpp Q3) as [Qp Qpa].
  unfold add_affiliate_tag. fold (out_query url).
  unfold urlunparse, replace_query.
  cbn [scheme netloc path params query fragment].
  destruct (urlunsplit_shape (scheme (urlparse url)) (netloc (urlparse url))
    (if Str.nonempty (params (urlparse url))
     then path (urlparse url) +:+ ";" +:+ params (urlparse url)
     else path (urlparse url))
    (out_query url) (fragment (urlparse url))) as (s & F & Hs & HF & ->).
  - by rewrite Hsc.
  - by rewrite Hnl.
  - destruct (Str.nonempty _); [|done]. by rewrite !all_chars_app, Qp, Qpa.
  - apply out_query_nonempty.
  - destruct (urlparse_split (s +:+ String "?" (out_query url +:+ F)))
      as (_ & _ & -> & _).
    apply urlsplit_query; [done| |done]. apply urlencode_plain.
Qed.

End Unparse.

End UrlFacts.

(** ** The curation run *)

Section RunFacts.
Variable fetch_feed : string -> list RawEntry.
Variable soup_find_img : string -> option (option string).
Variable time_time : nat -> Z.

Local Abbreviation process_entry := (process_entry soup_find_img time_time).

Lemma counted_dd_read m k :
  (dd_read m k).1 = counted m k ∧ ∀ c, counted (dd_read m k).2 c = counted m c.
Proof.
  unfold dd_read, counted. destruct (m !! k) eqn:E; simpl; [done|].
  split; [done|]. intros c.
  destruct (decide (k = c)) as [->|Hne].
  - by rewrite lookup_insert_eq, E.
  - by rewrite lookup_insert_ne.
Qed.

Lemma process_entry_spec st entry :
  step_spec time_time st entry (process_entry st entry).1 (process_entry st entry).2.
Proof.
  unfold process_entry.
  destruct (extract_amazon_url _ _) as [amazon_url|] eqn:Hurl; [|by constructor].
  destruct (Str.nonempty amazon_url); simpl; [|by constructor].
  destruct (extract_asin amazon_url) as [asin|] eqn:Hasin; [|by constructor].
  destruct (Str.nonempty asin); simpl; [|by constructor].
  case_bool_decide as Hseen; [by constructor|].
  destruct (existsb _ _) eqn:Hdup; [by constructor|].
  destruct (counted_dd_read (category_counts st) (categorize (Str.strip (get (entry_title entry))))) as [Hc1 Hc2].
  destruct (dd_read _ _) as [count counts]; simpl in *.
  destruct (Z.leb_spec max_per_category count); [by constructor|].
  destruct (py_or _ _) as [image|]; [|by constructor].
  destruct (Str.nonempty image) eqn:Himg; simpl; [|by constructor].
  eapply step_accept; simpl; try done.
  - exists amazon_url. by rewrite Hurl, Hasin.
  - cbn [deal_category]. by rewrite <- Hc1.
  - intros c. cbn [deal_category]. unfold counted at 1. case_decide as Hc.
    + subst c. rewrite lookup_insert_eq. simpl. by rewrite <- Hc1.
    + rewrite lookup_insert_ne by done. apply Hc2.
Qed.

Lemma step_spec_length st entry o st' :
  step_spec time_time st entry o st' →
  length (deals st') = if decide (o = Accepted) then S (length (deals st))
                       else length (deals st).
Proof.
  intros Hs. destruct Hs as [o st' Ho Hd _ _ _ _ _|d st' Hd _ _ _ _ _ _ _ _ _ _ _].
  - rewrite Hd. by case_decide.
  - rewrite Hd, length_app. simpl. lia.
Qed.

Lemma count_category_snoc c ds d :
  count_category c (ds ++ [d])
  = if decide (c = deal_category d) then S (count_category c ds)
    else count_category c ds.
Proof.
  unfold count_category. rewrite filter_app, length_app, filter_cons, filter_nil.
  repeat case_decide; simpl; try lia; congruence.
Qed.

Lemma step_spec_inv st entry o st' :
  step_spec time_time st entry o st' → curation_inv time_time st → curation_inv time_time st'.
Proof.
  intros Hs. destruct Hs as [o st' Ho Hd Ha Ht Hc Hf Hk
                |d st' Hd Hfrom Hts Himg Hdup Hnew Ha Ht Hlt Hc Hf Hk];
    intros [I1 I2 I3 I4 I5 I6 I7].
  - split; rewrite ?Hd, ?Ha, ?Ht, ?Hk; try done.
    intros c. by rewrite Hc.
  - split; rewrite ?Hd, ?Ha, ?Ht, ?Hk, ?map_app, ?length_app; simpl.
    + apply NoDup_app. split; [done|]. split; [|apply NoDup_singleton].
      intros a Ha1 Ha2%list_elem_of_singleton. subst a.
      by apply Hnew, I2.
    + intros a. rewrite elem_of_union, elem_of_singleton, elem_of_app,
        list_elem_of_singleton, I2. tauto.
    + intros t. rewrite elem_of_union, elem_of_singleton, elem_of_app,
        list_elem_of_singleton, I3. tauto.
    + intros c. rewrite Hc, count_category_snoc, I4.
      case_decide; lia.
    + intros c. rewrite count_category_snoc. case_decide as Hcd; [|done].
      subst c. specialize (I4 (deal_category d)). lia.
    + lia.
    + intros i d' Hi. apply lookup_app_Some in Hi as [Hi|[Hge Hi]]; [by apply I7|].
      apply list_lookup_singleton_Some in Hi as [Hi ->].
      rewrite Hts, I6. f_equal. lia.
Qed.

Lemma process_entry_inv st entry :
  curation_inv time_time st → curation_inv time_time (process_entry st entry).2.
Proof. apply step_spec_inv with entry (process_entry st entry).1, process_entry_spec. Qed.

Lemma initial_inv : curation_inv time_time initial.
Proof.
  split; simpl.
  - constructor.
  - intros a. rewrite elem_of_empty, elem_of_nil. tauto.
  - intros t. rewrite elem_of_empty, elem_of_nil. tauto.
  - done.
  - intros c. unfold count_category, max_per_category. simpl. lia.
  - done.
  - done.
Qed.

Lemma record_fetch_inv st u :
  curation_inv time_time st → curation_inv time_time (record_fetch st u).
Proof. by intros []. Qed.

(** *** Traces *)

Lemma end_state_cons st st' tr : end_state st (st' :: tr) = end_state st' tr.
Proof. unfold end_state. rewrite last_cons. by destruct (last tr). Qed.

Lemma end_state_app st tr1 tr2 :
  end_state st (tr1 ++ tr2) = end_state (end_state st tr1) tr2.
Proof.
  revert st. induction tr1 as [|s tr1 IH]; intros st; simpl; [done|].
  by rewrite !end_state_cons.
Qed.

Lemma end_state_Forall (P : State → Prop) st tr :
  P st → Forall P tr → P (end_state st tr).
Proof.
  intros Hst Htr. revert st Hst.
  induction Htr as [|s tr Hs Htr IH]; intros st Hst; [done|].
  rewrite end_state_cons. by apply IH.
Qed.

Lemma stops_when_full_end st tr s :
  stops_when_full tr → s ∈ tr → full s → end_state st tr = s.
Proof.
  revert st. induction tr as [|s' tr IH]; intros st Hstop Hin Hfull.
  - by apply elem_of_nil in Hin.
  - destruct Hstop as [Hlast Hstop]. rewrite end_state_cons.
    apply elem_of_cons in Hin as [->|Hin].
    + by rewrite (Hlast Hfull).
    + by apply IH.
Qed.

Lemma stops_when_full_app tr1 tr2 :
  stops_when_full tr1 → stops_when_full tr2 →
  (∀ s, s ∈ tr1 → full s → tr2 = []) →
  stops_when_full (tr1 ++ tr2).
Proof.
  induction tr1 as [|s tr1 IH]; simpl; intros H1 H2 H; [done|].
  destruct H1 as [Hs H1]. split.
  - intros Hf. rewrite (Hs Hf), (H s); [done|by left|done].
  - apply IH; [done..|]. intros s' Hin. apply H. by right.
Qed.

Lemma stops_when_full_lookup tr i st :
  stops_when_full tr → tr !! i = Some st → full st → length tr = S i.
Proof.
  revert i. induction tr as [|s tr IH]; intros i Hstop Hi Hf; [done|].
  destruct Hstop as [Hs Hstop]. destruct i as [|i]; simpl in *.
  - injection Hi as ->. by rewrite (Hs Hf).
  - f_equal. by apply IH.
Qed.

(** The states of the inner loop, started below the capacity. *)
Lemma entries_loop_trace (P : State → Prop) entries :
  (∀ st e, e ∈ entries → P st → P (process_entry st e).2) →
  ∀ st, P st → ¬ full st →
  Forall (λ s, P s ∧ length (deals s) ≤ MAX_DEALS) (entries_loop soup_find_img time_time st entries)
  ∧ stops_when_full (entries_loop soup_find_img time_time st entries).
Proof.
  unfold full.
  induction entries as [|e es IH]; intros Hstep st HP Hlen; cbn [entries_loop];
    [done|].
  pose proof (process_entry_spec st e) as Hspec.
  apply step_spec_length in Hspec.
  pose proof (Hstep st e ltac:(left) HP) as HP'.
  destruct (process_entry st e) as [o st'] eqn:E; cbn [fst snd] in *.
  assert (IH' : ¬ MAX_DEALS ≤ length (deals st') →
    Forall (λ s, P s ∧ length (deals s) ≤ MAX_DEALS)
      (st' :: entries_loop soup_find_img time_time st' es)
    ∧ stops_when_full (st' :: entries_loop soup_find_img time_time st' es)).
  { intros Hlt.
    destruct (IH (λ st e He, Hstep st e ltac:(by right)) st' HP' Hlt) as [IH1 IH2].
    split; [constructor; [split; [done|lia]|done]|]. split; [|done].
    unfold full. lia. }
  case_decide as Ho.
  - subst o. destruct (Nat.leb_spec MAX_DEALS (length (deals st'))) as [Hge|Hlt].
    + split; [|by split]. constructor; [split; [done|lia]|constructor].
    + apply IH'. lia.
  - assert (Hlt : ¬ MAX_DEALS ≤ length (deals st')) by lia.
    destruct o; try done; by apply IH'.
Qed.

Lemma step_spec_origin st entry o st' u :
  step_spec time_time st entry o st' →
  entry ∈ fetch_feed u → u ∈ fetched st →
  origin_inv fetch_feed st → origin_inv fetch_feed st'.
Proof.
  intros Hs He Hu Hor.
  destruct Hs as [o st' Ho Hd _ _ _ Hf _|d st' Hd Hfrom _ _ _ _ _ _ _ _ Hf _];
    intros d'; rewrite Hd, Hf.
  - apply Hor.
  - intros [Hin| ->%list_elem_of_singleton]%elem_of_app; [by apply Hor|].
    by exists u, entry.
Qed.

Lemma feeds_loop_full st feeds :
  full st → feeds_loop fetch_feed soup_find_img time_time st feeds = [].
Proof.
  unfold full. intros Hf. destruct feeds as [|u feeds]; cbn [feeds_loop]; [done|].
  by destruct (Nat.leb_spec MAX_DEALS (length (deals st))); [|lia].
Qed.

Lemma feeds_loop_trace feeds :
  ∀ st, run_inv fetch_feed time_time st →
  Forall (λ s, run_inv fetch_feed time_time s ∧ length (deals s) ≤ MAX_DEALS)
    (feeds_loop fetch_feed soup_find_img time_time st feeds)
  ∧ stops_when_full (feeds_loop fetch_feed soup_find_img time_time st feeds).
Proof.
  induction feeds as [|u feeds IH]; intros st [Hinv Hor]; cbn [feeds_loop]; [done|].
  destruct (Nat.leb_spec MAX_DEALS (length (deals st))) as [Hge|Hlt]; [done|].
  set (st1 := record_fetch st u).
  assert (Hu : u ∈ fetched st1) by (apply elem_of_app; right; by left).
  assert (H1 : run_inv fetch_feed time_time st1 ∧ u ∈ fetched st1).
  { split; [split|done]; [by apply record_fetch_inv|].
    intros d Hd. destruct (Hor d Hd) as (u' & e & ? & ? & ?).
    exists u', e. split; [|done]. apply elem_of_app. by left. }
  destruct (entries_loop_trace (λ s, run_inv fetch_feed time_time s ∧ u ∈ fetched s) (fetch_feed u))
    with (st := st1) as [Htr Hstop]; [|done|unfold full; simpl; lia|].
  { intros s e He [[Hi Ho] Hus].
    pose proof (process_entry_spec s e) as Hs.
    split; [split|].
    - by eapply step_spec_inv.
    - by eapply step_spec_origin.
    - by destruct Hs as [? ? ? ? ? ? ? -> ?|? ? ? ? ? ? ? ? ? ? ? ? -> ?]. }
  set (tr := entries_loop soup_find_img time_time st1 (fetch_feed u)) in *.
  assert (Hend : run_inv fetch_feed time_time (end_state st1 tr)).
  { apply (end_state_Forall (λ s, run_inv fetch_feed time_time s)); [apply H1|].
    eapply Forall_impl; [exact Htr|]. by intros s [[? ?] ?]. }
  destruct (IH _ Hend) as [IH1 IH2].
  split.
  - constructor; [split; [apply H1|simpl; lia]|].
    apply Forall_app. split; [|done].
    eapply Forall_impl; [exact Htr|]. by intros s [[? ?] ?].
  - split; [unfold full; simpl; lia|].
    apply stops_when_full_app; [done..|].
    intros s Hin Hf. rewrite (stops_when_full_end st1 tr s) by done.
    by apply feeds_loop_full.
Qed.

Lemma run_inv_initial : run_inv fetch_feed time_time initial.
Proof. split; [apply initial_inv|]. intros d Hd. by apply elem_of_nil in Hd. Qed.

Lemma run_trace feeds :
  Forall (λ s, run_inv fetch_feed time_time s ∧ length (deals s) ≤ MAX_DEALS)
    (run fetch_feed soup_find_img time_time feeds)
  ∧ stops_when_full (run fetch_feed soup_find_img time_time feeds).
Proof.
  destruct (feeds_loop_trace feeds initial run_inv_initial) as [H1 H2].
  unfold run. split.
  - constructor; [|done]. split; [apply run_inv_initial|]. simpl. lia.
  - split; [|done]. unfold full. simpl. unfold MAX_DEALS. lia.
Qed.

Lemma final_state_inv feeds :
  run_inv fetch_feed time_time (final_state fetch_feed soup_find_img time_time feeds)
  ∧ length (deals (final_state fetch_feed soup_find_img time_time feeds)) ≤ MAX_DEALS.
Proof.
  destruct (feeds_loop_trace feeds initial run_inv_initial) as [H1 _].
  unfold final_state.
  apply (end_state_Forall (λ s, run_inv fetch_feed time_time s ∧ length (deals s) ≤ MAX_DEALS)); [|done].
  split; [apply run_inv_initial|]. simpl. lia.
Qed.
Lemma step_spec_fetched st entry o st' :
  step_spec time_time st entry o st' → fetched st' = fetched st.
Proof. by intros [? ? ? ? ? ? ? ? ?|? ? ? ? ? ? ? ? ? ? ? ? ? ?]. Qed.

(** The feeds fetched during the outer loop are feeds of its list. *)
Lemma feeds_loop_fetched feeds :
  ∀ st (known : list string),
    (∀ u, u ∈ fetched st → u ∈ known ++ feeds) →
    Forall (λ s, ∀ u, u ∈ fetched s → u ∈ known ++ feeds)
      (feeds_loop fetch_feed soup_find_img time_time st feeds).
Proof.
  induction feeds as [|u feeds IH]; intros st known Hst; cbn [feeds_loop];
    [constructor|].
  destruct (Nat.leb_spec MAX_DEALS (length (deals st))) as [Hge|Hlt];
    [constructor|].
  set (st1 := record_fetch st u).
  assert (H1 : ∀ v, v ∈ fetched st1 → v ∈ known ++ u :: feeds).
  { intros v [Hv| ->%list_elem_of_singleton]%elem_of_app; [by apply Hst|].
    apply elem_of_app. right. by left. }
  destruct (entries_loop_trace
              (λ s, ∀ v, v ∈ fetched s → v ∈ known ++ u :: feeds) (fetch_feed u))
    with (st := st1) as [Htr _]; [|done|unfold full; simpl; lia|].
  { intros s e _ Hs v.
    rewrite (step_spec_fetched s e _ _ (process_entry_spec s e)). apply Hs. }
  set (tr := entries_loop soup_find_img time_time st1 (fetch_feed u)) in *.
  assert (Htr' : Forall (λ s, ∀ v, v ∈ fetched s → v ∈ known ++ u :: feeds) tr).
  { eapply Forall_impl; [exact Htr|]. by intros s [? _]. }
  constructor; [done|]. apply Forall_app. split; [done|].
  specialize (IH (end_state st1 tr) (known ++ [u])).
  rewrite <- app_assoc in IH. apply IH.
  by apply (end_state_Forall (λ s, ∀ v, v ∈ fetched s → v ∈ known ++ u :: feeds)).
Qed.

Lemma final_state_fetched feeds u :
  u ∈ fetched (final_state fetch_feed soup_find_img time_time feeds) → u ∈ feeds.
Proof.
  unfold final_state.
  apply (end_state_Forall (λ s, ∀ v, v ∈ fetched s → v ∈ [] ++ feeds)).
  - intros v Hv. by apply elem_of_nil in Hv.
  - apply feeds_loop_fetched. intros v Hv. by apply elem_of_nil in Hv.
Qed.

(** Every Deal of the output was built from an entry of one of the feeds. *)
Lemma curate_origin feeds d :
  d ∈ curate fetch_feed soup_find_img time_time feeds →
  ∃ feed_url entry,
    feed_url ∈ feeds ∧ entry ∈ fetch_feed feed_url ∧ derived_from entry d.
Proof.
  unfold curate. rewrite sort_reverse_perm. intros Hd.
  destruct (final_state_inv feeds) as [[_ Hor] _].
  destruct (Hor d Hd) as (u & e & Hu & He & Hfrom).
  exists u, e. split; [by apply final_state_fetched|done].
Qed.

End RunFacts.

(** ** The clock *)

Section TwoClocks.
Variable fetch_feed : string -> list RawEntry.
Variable soup_find_img : string -> option (option string).
Variables t1 t2 : nat -> Z.

Lemma same_but_time_length s1 s2 :
  same_but_time s1 s2 → length (deals s1) = length (deals s2).
Proof.
  intros [H _]. apply (f_equal length) in H. by rewrite !length_map in H.
Qed.

Lemma process_entry_clock s1 s2 e :
  same_but_time s1 s2 →
  (process_entry soup_find_img t1 s1 e).1 = (process_entry soup_find_img t2 s2 e).1
  ∧ same_but_time (process_entry soup_find_img t1 s1 e).2
                  (process_entry soup_find_img t2 s2 e).2.
Proof.
  destruct s1 as [d1 a1 ti1 c1 f1 k1], s2 as [d2 a2 ti2 c2 f2 k2].
  intros (Hd & Ha & Ht & Hc & Hf & Hk); simpl in *; subst.
  assert (Hrefl : same_but_time
    {| deals := d1; seen_asins := a2; seen_titles := ti2;
       category_counts := c2; fetched := f2; clock_reads := k2 |}
    {| deals := d2; seen_asins := a2; seen_titles := ti2;
       category_counts := c2; fetched := f2; clock_reads := k2 |})
    by done.
  unfold process_entry; cbn [deals seen_asins seen_titles category_counts fetched clock_reads].
  destruct (extract_amazon_url _ _) as [amazon_url|]; [|done].
  destruct (Str.nonempty amazon_url); cbn [negb]; [|done].
  destruct (extract_asin amazon_url) as [asin|]; [|done].
  destruct (Str.nonempty asin); cbn [negb]; [|done].
  case_bool_decide; [done|].
  destruct (existsb _ _); [done|].
  destruct (dd_read _ _) as [count counts].
  destruct (max_per_category <=? count)%Z; [done|].
  destruct (py_or _ _) as [image|]; [|done].
  destruct (Str.nonempty image); cbn [negb]; [|done].
  split; [done|]. unfold same_but_time; cbn [deals seen_asins seen_titles category_counts fetched clock_reads fst snd].
  rewrite !map_app, Hd. done.
Qed.

Lemma entries_loop_clock es :
  ∀ s1 s2, same_but_time s1 s2 →
  Forall2 same_but_time (entries_loop soup_find_img t1 s1 es)
                        (entries_loop soup_find_img t2 s2 es).
Proof.
  induction es as [|e es IH]; intros s1 s2 Hs; cbn [entries_loop]; [constructor|].
  destruct (process_entry_clock s1 s2 e Hs) as [Ho Hs'].
  destruct (process_entry soup_find_img t1 s1 e) as [o1 s1'],
           (process_entry soup_find_img t2 s2 e) as [o2 s2'].
  cbn [fst snd] in *. subst o2.
  constructor; [done|].
  rewrite (same_but_time_length _ _ Hs').
  destruct o1; try by apply IH.
  destruct (MAX_DEALS <=? length (deals s2')); [constructor|by apply IH].
Qed.

Lemma end_state_clock s1 s2 tr1 tr2 :
  same_but_time s1 s2 → Forall2 same_but_time tr1 tr2 →
  same_but_time (end_state s1 tr1) (end_state s2 tr2).
Proof.
  intros Hs Htr. revert s1 s2 Hs.
  induction Htr as [|x y tr1 tr2 Hxy Htr IH]; intros s1 s2 Hs; [done|].
  unfold end_state in *. rewrite !last_cons.
  specialize (IH x y Hxy).
  by destruct (last tr1), (last tr2).
Qed.

Lemma feeds_loop_clock feeds :
  ∀ s1 s2, same_but_time s1 s2 →
  Forall2 same_but_time (feeds_loop fetch_feed soup_find_img t1 s1 feeds)
                        (feeds_loop fetch_feed soup_find_img t2 s2 feeds).
Proof.
  induction feeds as [|u feeds IH]; intros s1 s2 Hs; cbn [feeds_loop]; [constructor|].
  rewrite (same_but_time_length _ _ Hs).
  destruct (MAX_DEALS <=? length (deals s2)); [constructor|].
  assert (H1 : same_but_time (record_fetch s1 u) (record_fetch s2 u)).
  { destruct Hs as (? & ? & ? & ? & Hf & ?). unfold same_but_time; simpl.
    by rewrite Hf. }
  pose proof (entries_loop_clock (fetch_feed u) _ _ H1) as Htr.
  constructor; [done|].
  apply Forall2_app; [done|].
  apply IH. by apply end_state_clock.
Qed.

Lemma final_state_clock feeds :
  same_but_time (final_state fetch_feed soup_find_img t1 feeds)
                (final_state fetch_feed soup_find_img t2 feeds).
Proof.
  unfold final_state. apply end_state_clock; [done|].
  by apply feeds_loop_clock.
Qed.
End TwoClocks.

(** ** The loop body, gate by gate *)

Section BodyFacts.
Variable soup_find_img : string → option (option string).
Variable time_time : nat → Z.

Local Abbreviation process_entry := (process_entry soup_find_img time_time).

Lemma append_nonempty (s1 s2 : string) :
  Str.nonempty s1 = true → Str.nonempty (s1 +:+ s2) = true.
Proof. by destruct s1. Qed.

Lemma fallback_image_truthy c asin :
  Str.truthy (amazon_image_from_asin (Some (String c asin))) = true.
Proof. done. Qed.

Lemma py_or_image x asin :
  Str.nonempty asin = true →
  ∃ image, py_or x (amazon_image_from_asin (Some asin)) = Some image
           ∧ Str.nonempty image = true.
Proof.
  intros Hasin. unfold py_or. destruct (Str.truthy x) eqn:Hx.
  - destruct x as [s|]; [|done]. by exists s.
  - destruct asin as [|c asin]; [done|]. eexists. split; [reflexivity|done].
Qed.

Lemma process_entry_has_image st entry : (process_entry st entry).1 ≠ NoImage.
Proof.
  unfold process_entry.
  destruct (extract_amazon_url _ _) as [amazon_url|]; [|done].
  destruct (Str.nonempty amazon_url); cbn [negb]; [|done].
  destruct (extract_asin amazon_url) as [asin|]; [|done].
  destruct (Str.nonempty asin) eqn:Hasin; cbn [negb]; [|done].
  case_bool_decide; [done|].
  destruct (existsb _ _); [done|].
  destruct (dd_read _ _) as [count counts].
  destruct (max_per_category <=? count)%Z; [done|].
  destruct (py_or_image (extract_image_from_summary soup_find_img
              (get (entry_summary entry))) asin Hasin) as (image & -> & ->).
  done.
Qed.

Lemma process_entry_seen st entry amazon_url asin :
  extract_amazon_url (get (entry_summary entry)) (get (entry_link entry))
    = Some amazon_url →
  extract_asin amazon_url = Some asin →
  asin ∈ seen_asins st →
  (process_entry st entry).1 ≠ Accepted ∧ (process_entry st entry).2 = st.
Proof.
  intros Hurl Hasin Hseen. unfold process_entry. rewrite Hurl.
  destruct (Str.nonempty amazon_url); cbn [negb]; [|done].
  rewrite Hasin. destruct (Str.nonempty asin); cbn [negb]; [|done].
  by rewrite bool_decide_eq_true_2.
Qed.

Lemma process_entry_duplicate_title st entry :
  (process_entry st entry).1 = DuplicateTitle →
  existsb (is_duplicate_title (Str.strip (get (entry_title entry))))
    (elements (seen_titles st)) = true
  ∧ (process_entry st entry).2 = st.
Proof.
  unfold process_entry.
  destruct (extract_amazon_url _ _) as [amazon_url|]; [|done].
  destruct (Str.nonempty amazon_url); cbn [negb]; [|done].
  destruct (extract_asin amazon_url) as [asin|]; [|done].
  destruct (Str.nonempty asin) eqn:Hasin; cbn [negb]; [|done].
  case_bool_decide; [done|].
  destruct (existsb _ _); [done|].
  destruct (dd_read _ _) as [count counts].
  destruct (max_per_category <=? count)%Z; [done|].
  destruct (py_or _ _) as [image|]; [|done].
  by destruct (Str.nonempty image).
Qed.

End BodyFacts.

(** ** The output *)

Section OutputFacts.
Variable fetch_feed : string → list RawEntry.
Variable soup_find_img : string → option (option string).

Lemma count_category_perm c (l1 l2 : list Deal) :
  l1 ≡ₚ l2 → count_category c l1 = count_category c l2.
Proof. intros H. unfold count_category. by rewrite H. Qed.

Lemma desc_ranks_before d1 d2 : desc sort_key d1 d2 ↔ ranks_before d1 d2.
Proof. unfold desc, ranks_before. rewrite key_lt_false. done. Qed.

Lemma curate_perm time_time feeds :
  curate fetch_feed soup_find_img time_time feeds
  ≡ₚ deals (final_state fetch_feed soup_find_img time_time feeds).
Proof. apply sort_reverse_perm. Qed.

Lemma erase_timestamp_eq d1 d2 :
  erase_timestamp d1 = erase_timestamp d2 →
  deal_timestamp d1 = deal_timestamp d2 → d1 = d2.
Proof.
  destruct d1, d2. unfold erase_timestamp; simpl.
  by intros [= -> -> -> -> -> -> -> -> -> ->] ->.
Qed.

Lemma final_deals_clock t1 t2 feeds :
  (∀ k, k < MAX_DEALS → t1 k = t2 k) →
  deals (final_state fetch_feed soup_find_img t1 feeds)
  = deals (final_state fetch_feed soup_find_img t2 feeds).
Proof.
  intros Hclock.
  destruct (final_state_clock fetch_feed soup_find_img t1 t2 feeds) as [Heq _].
  destruct (final_state_inv fetch_feed soup_find_img t1 feeds) as [[I1 _] Hlen1].
  destruct (final_state_inv fetch_feed soup_find_img t2 feeds) as [[I2 _] _].
  apply list_eq. intros i.
  apply (f_equal (λ l, l !! i)) in Heq. rewrite !list_lookup_fmap in Heq.
  destruct (deals (final_state fetch_feed soup_find_img t1 feeds) !! i) as [d1|] eqn:E1,
           (deals (final_state fetch_feed soup_find_img t2 feeds) !! i) as [d2|] eqn:E2;
    try done.
  f_equal.
  change (Some (erase_timestamp d1) = Some (erase_timestamp d2)) in Heq.
  apply erase_timestamp_eq; [congruence|].
  rewrite (inv_stamps _ _ I1 i d1 E1), (inv_stamps _ _ I2 i d2 E2).
  apply Hclock. apply lookup_lt_Some in E1. lia.
Qed.

End OutputFacts.

(** ** URLs of plain parts *)

Module PlainUrl.
Import Urllib UrlFacts.

Lemma break_at p s t :
  all_chars (λ x, negb (p x)) s = true → starts_in p t = true →
  break p (s +:+ t) = (s, t).
Proof.
  intros Hs Ht. destruct t as [|c t].
  - rewrite string_app_nil_r. by apply break_none.
  - by apply break_app.
Qed.

Lemma split_at_mark c s (o : option string) :
  all_chars (λ a, negb (is_char c a)) s = true →
  split_at c (s +:+ match o with Some t => String c t | None => "" end)
  = (s, default "" o).
Proof.
  intros Hs. destruct o as [t|]; cbn [default].
  - by apply split_at_app.
  - rewrite string_app_nil_r. by apply split_at_none.
Qed.

Lemma ends_with_app c s : ends_with c (s +:+ String c "") = true.
Proof.
  induction s as [|a s IH]; [cbn; apply Ascii.eqb_refl|].
  rewrite app_cons. cbn [ends_with].
  destruct (s +:+ String c "") eqn:E; [by destruct s|]. exact IH.
Qed.

Lemma ends_with_cons c a s :
  Str.nonempty s = true → ends_with c (String a s) = ends_with c s.
Proof. by destruct s. Qed.

Lemma ends_with_app_r c s t :
  Str.nonempty t = true → ends_with c (s +:+ t) = ends_with c t.
Proof.
  intros Ht. induction s as [|a s IH]; [done|].
  rewrite app_cons, ends_with_cons; [done|]. by destruct s, t.
Qed.

(** Rejoining what [_splitparams] split gives the path back, unless the
    path ends with the semicolon. *)
Lemma splitparams_join u :
  ends_with ";" u = false →
  (if Str.nonempty (_splitparams u).2
   then (_splitparams u).1 +:+ ";" +:+ (_splitparams u).2
   else (_splitparams u).1) = u.
Proof.
  intros Hend. unfold _splitparams.
  destruct (rsplit_from "/" u) as [[pre tail]|] eqn:E1.
  - apply rsplit_from_Some in E1. subst u.
    destruct (split_once ";" tail) as [[x y]|] eqn:E2; cbn [fst snd]; [|done].
    apply split_once_Some in E2 as [-> _].
    destruct y as [|c y]; cbn [Str.nonempty].
    + exfalso. rewrite ends_with_app_r in Hend by (by destruct x).
      by rewrite ends_with_app in Hend.
    + by rewrite string_app_assoc.
  - destruct (split_once ";" u) as [[x y]|] eqn:E2; cbn [fst snd]; [|done].
    apply split_once_Some in E2 as [-> _].
    destruct y as [|c y]; cbn [Str.nonempty]; [|done].
    by rewrite ends_with_app in Hend.
Qed.

Lemma merged_query_nonempty qs : Str.nonempty (merged_query qs) = true.
Proof.
  unfold merged_query, urlencode.
  pose proof (dict_set_flatten_nonempty "tag" AFFILIATE_TAG (parse_qs qs)) as H.
  destruct (flat_map item_pairs _) as [|[k v] l]; [done|].
  cbn [map]. destruct (map encode_pair l).
  - cbn [join]. unfold encode_pair. cbn [fst snd].
    destruct (quote_plus k); done.
  - rewrite join_cons. unfold encode_pair. cbn [fst snd].
    destruct (quote_plus k); done.
Qed.

Lemma merged_query_values qs k :
  values_of k (parse_qsl (merged_query qs))
  = if decide (k = "tag") then [AFFILIATE_TAG] else values_of k (parse_qsl qs).
Proof.
  unfold merged_query. rewrite tagged_roundtrip.
  destruct (tagged_values qs k) as [Hnd Hv]. cbn zeta in *.
  by rewrite values_of_flatten.
Qed.

Lemma kept_filter s :
  all_chars url_kept s = true →
  filter_chars
    (λ c, negb (Ascii.eqb c "009" || Ascii.eqb c "013" || Ascii.eqb c "010")) s
  = s.
Proof. apply filter_chars_all. Qed.

Lemma plain_parts_inv sch host path q f :
  plain_parts sch host path q f = true →
  (sch = "http" ∨ sch = "https")
  ∧ Str.nonempty host = true ∧ all_chars host_char host = true
  ∧ (path = "" ∨ ∃ p, path = String "/" p)
  ∧ all_chars path_char path = true ∧ ends_with ";" path = false
  ∧ (∀ qs, q = Some qs → all_chars query_char qs = true)
  ∧ (∀ fr, f = Some fr →
       Str.nonempty fr = true ∧ all_chars fragment_char fr = true).
Proof.
  unfold plain_parts. intros H.
  apply andb_true_iff in H as [H Hf]. apply andb_true_iff in H as [H Hq].
  apply andb_true_iff in H as [H Hend]. apply andb_true_iff in H as [H Hpath].
  apply andb_true_iff in H as [H Hslash]. apply andb_true_iff in H as [H Hhost].
  apply andb_true_iff in H as [Hsch Hne].
  split.
  { apply orb_true_iff in Hsch as [H'|H']; apply String.eqb_eq in H'; auto. }
  split; [done|]. split; [done|]. split.
  { destruct path as [|c p]; [by left|right]. cbn in Hslash.
    destruct (Ascii.eqb_spec c "/") as [->|Hne']; [by exists p|].
    exfalso. revert Hslash. by destruct c as [[] [] [] [] [] [] [] []]. }
  split; [done|]. split; [by apply negb_true_iff|]. split.
  - intros qs ->. by apply andb_true_iff in Hq as [? _].
  - intros fr ->. by apply andb_true_iff in Hf.
Qed.

Lemma host_char_kept s :
  all_chars host_char s = true → all_chars url_kept s = true.
Proof.
  apply all_chars_impl. intros c. unfold host_char.
  by destruct (Str.code c <? 128), (url_kept c).
Qed.

Lemma path_char_kept s :
  all_chars path_char s = true → all_chars url_kept s = true.
Proof.
  apply all_chars_impl. intros c. unfold path_char.
  by destruct (Str.code c <? 128), (url_kept c).
Qed.

Lemma query_char_kept s :
  all_chars query_char s = true → all_chars url_kept s = true.
Proof.
  apply all_chars_impl. intros c. unfold query_char.
  by destruct (Str.code c <? 128), (url_kept c).
Qed.

Lemma fragment_char_kept s :
  all_chars fragment_char s = true → all_chars url_kept s = true.
Proof.
  apply all_chars_impl. intros c. unfold fragment_char.
  by destruct (Str.code c <? 128), (url_kept c).
Qed.

Lemma host_char_inner s :
  all_chars host_char s = true →
  all_chars (λ x, negb (host_end x)) s = true.
Proof.
  apply all_chars_impl. intros c. unfold host_char.
  by destruct (Str.code c <? 128), (url_kept c), (bracket c), (host_end c).
Qed.

Lemma path_char_no_fragment s :
  all_chars path_char s = true →
  all_chars (λ a, negb (is_char "#" a)) s = true.
Proof.
  apply all_chars_impl. intros c. unfold path_char, is_char.
  rewrite (Ascii.eqb_sym "#").
  by destruct (Str.code c <? 128), (url_kept c), (Ascii.eqb c "?"), (Ascii.eqb c "#").
Qed.

Lemma path_char_no_query s :
  all_chars path_char s = true →
  all_chars (λ a, negb (is_char "?" a)) s = true.
Proof.
  apply all_chars_impl. intros c. unfold path_char, is_char.
  rewrite (Ascii.eqb_sym "?").
  by destruct (Str.code c <? 128), (url_kept c), (Ascii.eqb c "?"), (Ascii.eqb c "#").
Qed.

Lemma query_char_no_fragment s :
  all_chars query_char s = true →
  all_chars (λ a, negb (is_char "#" a)) s = true.
Proof.
  apply all_chars_impl. intros c. unfold query_char, is_char.
  rewrite (Ascii.eqb_sym "#").
  by destruct (Str.code c <? 128), (url_kept c), (Ascii.eqb c "#").
Qed.

(** What [urlsplit] makes of the text after the scheme. *)
Lemma split_after_scheme host path q f :
  Str.nonempty host = true → all_chars host_char host = true →
  (path = "" ∨ ∃ p, path = String "/" p) →
  all_chars path_char path = true →
  (∀ qs, q = Some qs → all_chars query_char qs = true) →
  let rest := path +:+ query_part q +:+ fragment_part f in
  split_netloc ("//" +:+ host +:+ rest) = (host, rest)
  ∧ split_at "#" rest = (path +:+ query_part q, default "" f)
  ∧ split_at "?" (path +:+ query_part q) = (path, default "" q).
Proof.
  intros Hne Hhost Hslash Hpath Hq rest. split; [|split].
  - unfold split_netloc. rewrite !app_cons, app_nil_l.
    apply break_at; [by apply host_char_inner|].
    unfold rest. destruct Hslash as [->|[p ->]]; [|done].
    rewrite app_nil_l. destruct q as [qs|]; [done|].
    cbn [query_part]. rewrite app_nil_l. by destruct f.
  - unfold rest. rewrite <- string_app_assoc.
    replace (fragment_part f)
      with (match f with Some t => String "#" t | None => "" end)
      by (by destruct f).
    apply split_at_mark. rewrite all_chars_app, andb_true_iff.
    split; [by apply path_char_no_fragment|].
    destruct q as [qs|]; [|done]. cbn [query_part].
    rewrite app_cons, app_nil_l. cbn [all_chars].
    by rewrite (query_char_no_fragment qs (Hq qs eq_refl)).
  - replace (query_part q)
      with (match q with Some t => String "?" t | None => "" end)
      by (by destruct q).
    apply split_at_mark. by apply path_char_no_query.
Qed.

Lemma url_of_kept sch host path q f :
  plain_parts sch host path q f = true →
  all_chars url_kept (url_of sch host path q f) = true.
Proof.
  intros (Hsch & _ & Hhost & _ & Hpath & _ & Hq & Hf)%plain_parts_inv.
  unfold url_of. rewrite !all_chars_app.
  rewrite (host_char_kept host Hhost), (path_char_kept path Hpath).
  assert (all_chars url_kept sch = true) as -> by (by destruct Hsch as [->| ->]).
  assert (all_chars url_kept (query_part q) = true) as ->.
  { destruct q as [qs|]; [|done]. cbn [query_part].
    rewrite app_cons, app_nil_l. cbn [all_chars].
    by rewrite (query_char_kept qs (Hq qs eq_refl)). }
  assert (all_chars url_kept (fragment_part f) = true) as ->.
  { destruct f as [fr|]; [|done]. cbn [fragment_part].
    rewrite app_cons, app_nil_l. cbn [all_chars].
    destruct (Hf fr eq_refl) as [_ H]. by rewrite (fragment_char_kept fr H). }
  done.
Qed.

(** The scheme and what follows it. *)
Lemma split_plain_scheme sch rest :
  sch = "http" ∨ sch = "https" →
  lstrip_c0 (sch +:+ "://" +:+ rest) = sch +:+ "://" +:+ rest
  ∧ split_scheme (sch +:+ "://" +:+ rest) = (sch, "//" +:+ rest).
Proof.
  intros [-> | ->]; rewrite !app_cons, !app_nil_l; split; reflexivity.
Qed.

Lemma urlparse_plain sch host path q f :
  plain_parts sch host path q f = true →
  urlparse (url_of sch host path q f)
  = {| scheme := sch; netloc := host;
       path := (_splitparams path).1; params := (_splitparams path).2;
       query := default "" q; fragment := default "" f |}.
Proof.
  intros Hplain. pose proof (url_of_kept _ _ _ _ _ Hplain) as Hkept.
  destruct (plain_parts_inv _ _ _ _ _ Hplain)
    as (Hsch & Hne & Hhost & Hslash & Hpath & _ & Hq & _).
  destruct (split_plain_scheme sch
              (host +:+ path +:+ query_part q +:+ fragment_part f) Hsch)
    as [Hstrip Hscheme].
  destruct (split_after_scheme host path q f Hne Hhost Hslash Hpath Hq)
    as (Hnetloc & Hfrag & Hquery).
  unfold urlparse, urlsplit, strip_unsafe.
  unfold url_of in *. rewrite Hstrip, (kept_filter _ Hkept), Hscheme.
  rewrite Hnetloc, Hfrag, Hquery.
  assert (mem sch uses_params = true) as -> by (by destruct Hsch as [-> | ->]).
  by destruct (_splitparams path).
Qed.

(** Tagging a URL of plain parts replaces its query and keeps the rest. *)
Lemma add_affiliate_tag_plain sch host path q f :
  plain_parts sch host path q f = true →
  add_affiliate_tag (url_of sch host path q f)
  = url_of sch host path (Some (merged_query (default "" q))) f.
Proof.
  intros Hplain. unfold add_affiliate_tag.
  rewrite (urlparse_plain _ _ _ _ _ Hplain).
  destruct (plain_parts_inv _ _ _ _ _ Hplain)
    as (Hsch & Hne & _ & Hslash & _ & Hend & _ & Hf).
  cbn [Urllib.query]. fold (merged_query (default "" q)).
  unfold urlunparse, replace_query.
  cbn [Urllib.scheme Urllib.netloc Urllib.path Urllib.params Urllib.query Urllib.fragment].
  rewrite (splitparams_join path Hend).
  unfold urlunsplit. rewrite Hne, (merged_query_nonempty (default "" q)).
  cbn [orb].
  assert (Str.nonempty path && negb (String.prefix "/" path) = false) as ->.
  { destruct Hslash as [->|[[|c p] ->]]; reflexivity. }
  assert (Str.nonempty sch = true) as -> by (by destruct Hsch as [-> | ->]).
  unfold url_of. cbn [query_part].
  destruct f as [fr|]; cbn [fragment_part].
  - change (default "" (Some fr)) with fr. destruct (Hf fr eq_refl) as [-> _].
    by rewrite !string_app_assoc, !app_cons, !app_nil_l.
  - change (default "" (@None string)) with "". cbn [Str.nonempty].
    by rewrite !string_app_assoc, !app_cons, !app_nil_l, string_app_nil_r.
Qed.

End PlainUrl.

(** ** The characters of a tagged URL *)

Module TagFacts.
Import Urllib UrlFacts.

Section Pieces.
(** A class of characters that holds the delimiters of a URL and the
    characters [quote_plus] writes, and that lower-casing does not leave. *)
Variable P : ascii → bool.
Hypothesis Hlower : ∀ c, P c = true → P (Str.lower_char c) = true.
Hypothesis Hdelim : all_chars P "/:?#;=&" = true.
Hypothesis Hquote : ∀ c, all_chars P (quote_plus_char c) = true.

Lemma break_all p s :
  all_chars P s = true →
  all_chars P (break p s).1 = true ∧ all_chars P (break p s).2 = true.
Proof.
  intros Hs. destruct (break_spec p s) as (H1 & _ & _).
  apply all_chars_app_iff. by rewrite <- H1.
Qed.

Lemma split_once_all c s x y :
  split_once c s = Some (x, y) → all_chars P s = true →
  all_chars P x = true ∧ all_chars P y = true.
Proof.
  intros [-> _]%split_once_Some [Hx Hy]%all_chars_app_iff.
  cbn [all_chars] in Hy. by apply andb_true_iff in Hy as [_ Hy].
Qed.

Lemma rsplit_from_all c s x y :
  rsplit_from c s = Some (x, y) → all_chars P s = true →
  all_chars P x = true ∧ all_chars P y = true.
Proof. intros ->%rsplit_from_Some. apply all_chars_app_iff. Qed.

Lemma lstrip_c0_all s : all_chars P s = true → all_chars P (lstrip_c0 s) = true.
Proof.
  induction s as [|a s IH]; [done|]. cbn [lstrip_c0].
  destruct (Str.code a <=? 32); [|done].
  cbn [all_chars]. intros [_ Hs]%andb_true_iff. by apply IH.
Qed.

Lemma strip_unsafe_all s :
  all_chars P s = true → all_chars P (strip_unsafe s) = true.
Proof. intros Hs. unfold strip_unsafe. by apply filter_chars_keeps, lstrip_c0_all. Qed.

Lemma split_scheme_all u :
  all_chars P u = true →
  all_chars P (split_scheme u).1 = true ∧ all_chars P (split_scheme u).2 = true.
Proof.
  intros Hu. unfold split_scheme.
  destruct (split_once ":" u) as [[[|c0 pre] post]|] eqn:E; [done| |done].
  destruct (Str.is_alpha c0 && all_chars scheme_char (String c0 pre)); [|done].
  destruct (split_once_all _ _ _ _ E Hu) as [Hpre Hpost]. cbn [fst snd].
  split; [|done]. by apply (all_chars_lower P P).
Qed.

Lemma split_netloc_all u :
  all_chars P u = true →
  all_chars P (split_netloc u).1 = true ∧ all_chars P (split_netloc u).2 = true.
Proof.
  intros Hu. unfold split_netloc.
  destruct u as [|a [|b u']]; [done| |].
  { by destruct a as [[] [] [] [] [] [] [] []]. }
  destruct (Ascii.eqb_spec a "/") as [->|Hne];
    [|by destruct a as [[] [] [] [] [] [] [] []]].
  destruct (Ascii.eqb_spec b "/") as [->|Hne];
    [|by destruct b as [[] [] [] [] [] [] [] []]].
  apply break_all. cbn [all_chars] in Hu.
  apply andb_true_iff in Hu as [_ Hu]. by apply andb_true_iff in Hu as [_ Hu].
Qed.

Lemma split_at_all c u :
  all_chars P u = true →
  all_chars P (split_at c u).1 = true ∧ all_chars P (split_at c u).2 = true.
Proof.
  intros Hu. unfold split_at.
  destruct (split_once c u) as [[x y]|] eqn:E; [|done].
  by apply (split_once_all c u).
Qed.

Lemma splitparams_all u :
  all_chars P u = true →
  all_chars P (_splitparams u).1 = true ∧ all_chars P (_splitparams u).2 = true.
Proof.
  intros Hu. unfold _splitparams.
  destruct (rsplit_from "/" u) as [[pre tail]|] eqn:E1.
  - destruct (rsplit_from_all _ _ _ _ E1 Hu) as [Hpre Htail].
    destruct (split_once ";" tail) as [[x y]|] eqn:E2; [|done].
    destruct (split_once_all _ _ _ _ E2 Htail) as [Hx Hy]. cbn [fst snd].
    by rewrite all_chars_app, Hpre, Hx.
  - destruct (split_once ";" u) as [[x y]|] eqn:E2; [|done].
    by apply (split_once_all ";" u).
Qed.

Lemma urlparse_all url :
  all_chars P url = true →
  all_chars P (scheme (urlparse url)) = true
  ∧ all_chars P (netloc (urlparse url)) = true
  ∧ all_chars P (path (urlparse url)) = true
  ∧ all_chars P (params (urlparse url)) = true
  ∧ all_chars P (query (urlparse url)) = true
  ∧ all_chars P (fragment (urlparse url)) = true.
Proof.
  intros Hurl%strip_unsafe_all. unfold urlparse, urlsplit.
  destruct (split_scheme_all _ Hurl) as [Hsc Hu1].
  destruct (split_scheme _) as [sc u1]. cbn [fst snd] in *.
  destruct (split_netloc_all _ Hu1) as [Hnl Hu2].
  destruct (split_netloc u1) as [nl u2]. cbn [fst snd] in *.
  destruct (split_at_all "#" _ Hu2) as [Hu3 Hfr].
  destruct (split_at "#" u2) as [u3 fr]. cbn [fst snd] in *.
  destruct (split_at_all "?" _ Hu3) as [Hu4 Hq].
  destruct (split_at "?" u3) as [u4 q]. cbn [fst snd] in *.
  destruct (mem sc uses_params).
  - destruct (splitparams_all _ Hu4) as [Hp Hpa].
    destruct (_splitparams u4) as [p pa].
    cbn [scheme netloc path params query fragment fst snd] in *. done.
  - cbn [scheme netloc path params query fragment]. done.
Qed.

Lemma delims :
  P "/" = true ∧ P ":" = true ∧ P "?" = true ∧ P "#" = true
  ∧ P ";" = true ∧ P "=" = true ∧ P "&" = true.
Proof.
  pose proof Hdelim as H. cbn [all_chars] in H.
  repeat (apply andb_true_iff in H as [? H]). done.
Qed.

Lemma urlunsplit_all sc nl u q fr :
  all_chars P sc = true → all_chars P nl = true → all_chars P u = true →
  all_chars P q = true → all_chars P fr = true →
  all_chars P (urlunsplit sc nl u q fr) = true.
Proof.
  intros Hsc Hnl Hu Hq Hfr. destruct delims as (D1 & D2 & D3 & D4 & _).
  unfold urlunsplit.
  set (u1 := if Str.nonempty nl || _ then _ else u).
  assert (H1 : all_chars P u1 = true).
  { unfold u1. destruct (Str.nonempty nl || _); [|done].
    destruct (Str.nonempty u && _);
      rewrite !all_chars_app, ?Hnl, ?Hu; cbn [all_chars]; by rewrite ?D1. }
  clearbody u1.
  set (u2 := if Str.nonempty sc then _ else u1).
  assert (H2 : all_chars P u2 = true).
  { unfold u2. destruct (Str.nonempty sc); [|done].
    rewrite !all_chars_app, Hsc, H1. cbn [all_chars]. by rewrite D2. }
  clearbody u2.
  set (u3 := if Str.nonempty q then _ else u2).
  assert (H3 : all_chars P u3 = true).
  { unfold u3. destruct (Str.nonempty q); [|done].
    rewrite !all_chars_app, H2, Hq. cbn [all_chars]. by rewrite D3. }
  clearbody u3.
  destruct (Str.nonempty fr); [|done].
  rewrite !all_chars_app, H3, Hfr. cbn [all_chars]. by rewrite D4.
Qed.

Lemma quote_plus_all s : all_chars P (quote_plus s) = true.
Proof.
  induction s as [|c s IH]; [done|]. cbn [quote_plus].
  by rewrite all_chars_app, Hquote, IH.
Qed.

Lemma urlencode_all d : all_chars P (urlencode d) = true.
Proof.
  destruct delims as (_ & _ & _ & _ & _ & D6 & D7).
  unfold urlencode. apply all_chars_join; [cbn [all_chars]; by rewrite D7|].
  apply Forall_map, Forall_forall. intros kv _. unfold encode_pair.
  rewrite !all_chars_app, !quote_plus_all. cbn [all_chars]. by rewrite D6.
Qed.

Lemma add_affiliate_tag_all url :
  all_chars P url = true → all_chars P (add_affiliate_tag url) = true.
Proof.
  intros (Hsc & Hnl & Hp & Hpa & _ & Hfr)%urlparse_all.
  destruct delims as (_ & _ & _ & _ & D5 & _).
  unfold add_affiliate_tag, urlunparse, replace_query.
  cbn [scheme netloc path params query fragment].
  apply urlunsplit_all; try done; [|apply urlencode_all].
  destruct (Str.nonempty _); [|done].
  rewrite !all_chars_app, Hp, Hpa. cbn [all_chars]. by rewrite D5.
Qed.

End Pieces.

Lemma add_affiliate_tag_ascii url :
  ascii_text url = true → ascii_text (add_affiliate_tag url) = true.
Proof.
  apply add_affiliate_tag_all; [|done|].
  - intros c. by destruct c as [[] [] [] [] [] [] [] []].
  - intros c. by destruct c as [[] [] [] [] [] [] [] []].
Qed.

Lemma add_affiliate_tag_brackets url :
  all_chars (λ c, negb (bracket c)) url = true →
  all_chars (λ c, negb (bracket c)) (add_affiliate_tag url) = true.
Proof.
  apply add_affiliate_tag_all; [|done|].
  - intros c. by destruct c as [[] [] [] [] [] [] [] []].
  - intros c. by destruct c as [[] [] [] [] [] [] [] []].
Qed.

(** The names and values of the merged query are those of the query,
    and the tag. *)
Lemma merged_query_fields qs :
  ascii_fields qs = true → ascii_fields (merged_query qs) = true.
Proof.
  unfold ascii_fields, merged_query. rewrite tagged_roundtrip.
  rewrite !forallb_forall. intros Hall [k v] Hin%list_elem_of_In.
  apply values_of_elem in Hin.
  destruct (tagged_values qs k) as [Hnd Hv]. cbn zeta in *.
  rewrite values_of_flatten, Hv in Hin by done.
  case_decide as E.
  - apply list_elem_of_singleton in Hin as ->. by subst k.
  - apply values_of_elem in Hin. by apply (Hall (k, v)), list_elem_of_In.
Qed.

(** A tagged URL is taggable again. *)
Lemma taggable_tagged url :
  taggable url = true → taggable (add_affiliate_tag url) = true.
Proof.
  unfold taggable. intros [[H1 H2]%andb_true_iff H3]%andb_true_iff.
  rewrite (add_affiliate_tag_ascii url H1), (add_affiliate_tag_brackets url H2).
  rewrite add_affiliate_tag_query. cbn [andb].
  by apply (merged_query_fields (query (urlparse url))).
Qed.

End TagFacts.

(** ** Feeds of covered entries *)

Lemma covered_single_feed (entries : list RawEntry) (feeds : list string) :
  forallb covered entries = true → covered_feeds (single_feed entries) feeds.
Proof.
  intros Hall feed_url entry _ Hin. unfold single_feed in Hin.
  destruct (String.eqb feed_url first_feed); [|by apply elem_of_nil in Hin].
  rewrite forallb_forall in Hall. apply Hall. by apply list_elem_of_In.
Qed.

Lemma covered_link (entry : RawEntry) (amazon_url : string) :
  covered entry = true →
  extract_amazon_url (get (entry_summary entry)) (get (entry_link entry))
    = Some amazon_url →
  taggable amazon_url = true.
Proof.
  unfold covered. intros [_ H]%andb_true_iff E. by rewrite E in H.
Qed.

(** * The properties, claim by claim *)

(** C1 (uniqueness of identifiers).  The Deals of the output have pairwise
    distinct identifiers; and an entry whose extracted identifier is already
    in the set of seen identifiers is skipped: it is not accepted and the
    state is left as it was. *)
Theorem identifiers_pairwise_distinct
    (fetch_feed : string → list RawEntry)
    (soup_find_img : string → option (option string))
    (time_time : nat → Z) (feeds : list string) :
  NoDup (map deal_id (curate fetch_feed soup_find_img time_time feeds))
  ∧ ∀ st entry amazon_url asin,
      extract_amazon_url (get (entry_summary entry)) (get (entry_link entry))
        = Some amazon_url →
      extract_asin amazon_url = Some asin →
      asin ∈ seen_asins st →
      (process_entry soup_find_img time_time st entry).1 ≠ Accepted
      ∧ (process_entry soup_find_img time_time st entry).2 = st.
Proof.
  split.
  - rewrite (curate_perm fetch_feed soup_find_img time_time feeds).
    by destruct (final_state_inv fetch_feed soup_find_img time_time feeds)
      as [[[] _] _].
  - intros st entry amazon_url asin. apply process_entry_seen.
Qed.

(** The second entry of [repeated_identifier] carries the identifier of the
    first: it is skipped. *)
Lemma identifiers_pairwise_distinct_witness :
  let e1 := entry_of "Desk Organizer" "https://www.amazon.com/dp/B000000001" in
  let e2 := entry_of "Garden Hose Reel" "https://www.amazon.com/dp/B000000001" in
  let st := (process_entry no_image frozen_clock initial e1).2 in
  "B000000001" ∈ seen_asins st
  ∧ (process_entry no_image frozen_clock st e2).1 ≠ Accepted
  ∧ (process_entry no_image frozen_clock st e2).2 = st.
Proof.
  intros e1 e2 st.
  assert (Hseen : "B000000001" ∈ seen_asins st).
  { apply (bool_decide_unpack _). vm_compute. exact I. }
  split; [exact Hseen|].
  apply (proj2 (identifiers_pairwise_distinct
                  (single_feed repeated_identifier) no_image frozen_clock RSS_FEEDS)
           st e2 "https://www.amazon.com/dp/B000000001" "B000000001").
  - vm_compute. reflexivity.
  - vm_compute. reflexivity.
  - exact Hseen.
Defined.

(** C2 (capacities).  In every state of a run, and in the output, there are
    at most [MAX_DEALS] Deals and at most [max_per_category] of each
    category; and a state that has reached the global capacity is the last
    state of the run: no entry is processed and no feed fetched after it. *)
Theorem capacity_bounds
    (fetch_feed : string → list RawEntry)
    (soup_find_img : string → option (option string))
    (time_time : nat → Z) (feeds : list string) :
  Forall (λ st, within_caps (deals st))
    (run fetch_feed soup_find_img time_time feeds)
  ∧ within_caps (curate fetch_feed soup_find_img time_time feeds)
  ∧ ∀ i st,
      run fetch_feed soup_find_img time_time feeds !! i = Some st →
      MAX_DEALS ≤ length (deals st) →
      length (run fetch_feed soup_find_img time_time feeds) = S i.
Proof.
  destruct (run_trace fetch_feed soup_find_img time_time feeds) as [Hall Hstop].
  split; [|split].
  - eapply Forall_impl; [exact Hall|]. intros st [[Hinv _] Hlen].
    split; [done|]. apply (inv_cap _ _ Hinv).
  - destruct (final_state_inv fetch_feed soup_find_img time_time feeds)
      as [[Hinv _] Hlen].
    pose proof (curate_perm fetch_feed soup_find_img time_time feeds) as Hperm.
    split.
    + by rewrite Hperm.
    + intros c. rewrite (count_category_perm c _ _ Hperm). apply (inv_cap _ _ Hinv).
  - intros i st Hi Hfull. by apply (stops_when_full_lookup _ i st Hstop).
Qed.

(** The run over [two_feeds] reaches the global capacity at the 95th entry
    of the first feed: that state is the last of the run, with five entries
    of the feed and all the other feeds left. *)
Lemma capacity_bounds_witness :
  let trace := run two_feeds no_image frozen_clock RSS_FEEDS in
  let st := default initial (trace !! 96) in
  trace !! 96 = Some st
  ∧ MAX_DEALS ≤ length (deals st)
  ∧ fetched st = [first_feed]
  ∧ length trace = 97.
Proof.
  intros trace st.
  assert (H1 : trace !! 96 = Some st) by (vm_compute; reflexivity).
  assert (H2 : MAX_DEALS ≤ length (deals st)) by (vm_compute; lia).
  split; [exact H1|]. split; [exact H2|]. split; [vm_compute; reflexivity|].
  exact (proj2 (proj2 (capacity_bounds two_feeds no_image frozen_clock RSS_FEEDS))
           96 st H1 H2).
Defined.

(** C3 (sort law).  The output is a rearrangement of the accepted
    collection in which every Deal ranks before the Deals after it (higher
    score, or equal score and a timestamp not older), and the Deals with one
    and the same score and timestamp stand in their acceptance order. *)
Theorem output_sorted
    (fetch_feed : string → list RawEntry)
    (soup_find_img : string → option (option string))
    (time_time : nat → Z) (feeds : list string) :
  let accepted := deals (final_state fetch_feed soup_find_img time_time feeds) in
  let out := curate fetch_feed soup_find_img time_time feeds in
  out ≡ₚ accepted
  ∧ StronglySorted ranks_before out
  ∧ ∀ k, filter (λ d, sort_key d = k) out = filter (λ d, sort_key d = k) accepted.
Proof.
  cbn zeta. split; [apply curate_perm|]. split.
  - eapply StronglySorted_weaken; [|apply (sort_reverse_sorted sort_key)].
    intros d1 d2. apply desc_ranks_before.
  - intros k. apply sort_reverse_filter.
Qed.

(** C4 (two runs on the same input), as amended.  Two runs on the same
    entries that differ in the clock accept the same Deals in the same
    order, timestamps apart; their outputs hold the same Deals, timestamps
    apart, possibly in another order; and when the two clocks give the same
    first [MAX_DEALS] readings the outputs are equal. *)
Theorem output_determined_up_to_clock
    (fetch_feed : string → list RawEntry)
    (soup_find_img : string → option (option string))
    (t1 t2 : nat → Z) (feeds : list string) :
  map erase_timestamp (deals (final_state fetch_feed soup_find_img t1 feeds))
  = map erase_timestamp (deals (final_state fetch_feed soup_find_img t2 feeds))
  ∧ map erase_timestamp (curate fetch_feed soup_find_img t1 feeds)
    ≡ₚ map erase_timestamp (curate fetch_feed soup_find_img t2 feeds)
  ∧ ((∀ k, k < MAX_DEALS → t1 k = t2 k) →
     curate fetch_feed soup_find_img t1 feeds
     = curate fetch_feed soup_find_img t2 feeds).
Proof.
  destruct (final_state_clock fetch_feed soup_find_img t1 t2 feeds) as [Heq _].
  split; [exact Heq|]. split.
  - by rewrite !curate_perm, Heq.
  - intros Hclock. unfold curate.
    by rewrite (final_deals_clock fetch_feed soup_find_img t1 t2 feeds Hclock).
Qed.

(** [late_clock] differs from [ticking_clock] only after the readings a run
    can make: the two runs write the same output. *)
Lemma output_determined_up_to_clock_witness :
  (∀ k, k < MAX_DEALS → ticking_clock k = late_clock k)
  ∧ main (single_feed two_plain_entries) no_image ticking_clock
    = main (single_feed two_plain_entries) no_image late_clock.
Proof.
  assert (H : ∀ k, k < MAX_DEALS → ticking_clock k = late_clock k).
  { intros k Hk. unfold late_clock.
    destruct (Nat.ltb_spec k MAX_DEALS); [reflexivity|lia]. }
  split; [exact H|].
  exact (proj2 (proj2 (output_determined_up_to_clock
           (single_feed two_plain_entries) no_image ticking_clock late_clock
           RSS_FEEDS)) H).
Defined.

(** C4 as stated fails: on the same two entries, a run whose clock stands
    still and a run whose clock ticks between the two acceptances write
    different timestamps, and the Deals in a different order. *)
Lemma same_entries_different_output :
  map deal_id (main (single_feed two_plain_entries) no_image frozen_clock)
    = ["B000000001"; "B000000002"]
  ∧ map deal_id (main (single_feed two_plain_entries) no_image ticking_clock)
    = ["B000000002"; "B000000001"]
  ∧ main (single_feed two_plain_entries) no_image frozen_clock
    ≠ main (single_feed two_plain_entries) no_image ticking_clock.
Proof.
  assert (H1 : map deal_id (main (single_feed two_plain_entries) no_image frozen_clock)
               = ["B000000001"; "B000000002"]) by (vm_compute; reflexivity).
  assert (H2 : map deal_id (main (single_feed two_plain_entries) no_image ticking_clock)
               = ["B000000002"; "B000000001"]) by (vm_compute; reflexivity).
  split; [exact H1|]. split; [exact H2|].
  intros Heq. rewrite Heq, H2 in H1. discriminate H1.
Qed.

(** What the check for duplicate titles compares and what is stored.  The
    check compares the entry's raw title, stripped of surrounding white
    space but not normalized, with the titles in the seen set: an entry
    rejected as a duplicate title has a raw title similar to one of them and
    leaves the state as it was, an accepted entry has none.  The title is
    normalized on acceptance, and that value is stored in the Deal and added
    to the seen set; so in every state of a run the seen set holds exactly
    the stored titles. *)
Lemma title_compared_raw_stored_normalized
    (fetch_feed : string → list RawEntry)
    (soup_find_img : string → option (option string))
    (time_time : nat → Z) (feeds : list string) :
  (∀ st entry,
     let title := Str.strip (get (entry_title entry)) in
     let similar :=
       existsb (is_duplicate_title title) (elements (seen_titles st)) in
     let r := process_entry soup_find_img time_time st entry in
     (r.1 = DuplicateTitle → similar = true ∧ r.2 = st)
     ∧ (r.1 = Accepted →
        similar = false
        ∧ ∃ d, deals r.2 = deals st ++ [d]
               ∧ deal_title d = clean_title title
               ∧ seen_titles r.2 = {[clean_title title]} ∪ seen_titles st))
  ∧ ∀ st, st ∈ run fetch_feed soup_find_img time_time feeds →
      ∀ t, t ∈ seen_titles st ↔ t ∈ map deal_title (deals st).
Proof.
  split.
  - intros st entry title similar r. split.
    + apply process_entry_duplicate_title.
    + intros Hacc.
      pose proof (process_entry_spec soup_find_img time_time st entry) as Hs.
      fold r in Hs. rewrite Hacc in Hs.
      inversion Hs as [|d st' Hd Hfrom _ _ Hdup _ _ Ht _ _ _ _]; [done|].
      split; [exact Hdup|]. exists d.
      destruct Hfrom as (url & _ & _ & Htitle & _).
      split; [done|]. split; [done|]. by rewrite Ht, Htitle.
  - intros st Hin.
    destruct (run_trace fetch_feed soup_find_img time_time feeds) as [Hall _].
    rewrite Forall_forall in Hall.
    destruct (Hall st Hin) as [[Hinv _] _]. apply (inv_titles _ _ Hinv).
Qed.

(** C5 (the title compared and the title stored).  The two entries of
    [twin_titles] carry one and the same title and different identifiers.
    The run accepts both and stores the title ["Deal: Echo Dot"] twice: the
    check for duplicate titles compares the raw title of the second entry
    with the seen set, which holds the normalized title of the first, and
    their ratio is below the threshold, although the raw titles are equal
    and the normalized titles are equal.  A title that normalization leaves
    as it is, is caught: the second of two entries titled "Desk Organizer"
    is rejected as a duplicate. *)
Theorem same_title_accepted_twice :
  let e1 := entry_of "[HOT] Deal: Echo Dot (50% OFF) - $19.99"
                     "https://www.amazon.com/dp/B000000001" in
  let e2 := entry_of "[HOT] Deal: Echo Dot (50% OFF) - $19.99"
                     "https://www.amazon.com/dp/B000000002" in
  let st := (process_entry no_image frozen_clock initial e1).2 in
  let title := Str.strip (get (entry_title e2)) in
  let p1 := entry_of "Desk Organizer" "https://www.amazon.com/dp/B000000001" in
  let p2 := entry_of "Desk Organizer" "https://www.amazon.com/dp/B000000002" in
  twin_titles = [e1; e2]
  ∧ Str.strip (get (entry_title e1)) = title
  ∧ clean_title title = "Deal: Echo Dot"
  ∧ elements (seen_titles st) = ["Deal: Echo Dot"]
  ∧ is_duplicate_title title title = true
  ∧ is_duplicate_title title "Deal: Echo Dot" = false
  ∧ (process_entry no_image frozen_clock st e2).1 = Accepted
  ∧ map (λ d, (deal_id d, deal_title d))
      (main (single_feed twin_titles) no_image frozen_clock)
    = [("B000000001", "Deal: Echo Dot"); ("B000000002", "Deal: Echo Dot")]
  ∧ (process_entry no_image frozen_clock
       (process_entry no_image frozen_clock initial p1).2 p2).1
    = DuplicateTitle.
Proof. vm_compute. repeat split; reflexivity. Qed.

(** C6 (what the score is computed from), as amended.  Every Deal of the
    output was built from an entry of a feed, and its score is the Scorer
    applied to the stored price text, the stored discount percent and the
    raw title of that entry (stripped of surrounding white space, not
    normalized); so two Deals built from entries with the same raw title
    have the same score. *)
Theorem score_from_raw_title
    (fetch_feed : string → list RawEntry)
    (soup_find_img : string → option (option string))
    (time_time : nat → Z) (feeds : list string) :
  (∀ d, d ∈ curate fetch_feed soup_find_img time_time feeds →
     ∃ feed_url entry,
       feed_url ∈ feeds ∧ entry ∈ fetch_feed feed_url ∧ derived_from entry d
       ∧ deal_title d = clean_title (Str.strip (get (entry_title entry)))
       ∧ deal_score d
         = calculate_deal_score (Str.strip (get (entry_title entry)))
             (deal_price d) (deal_discount d))
  ∧ ∀ e1 e2 d1 d2,
      derived_from e1 d1 → derived_from e2 d2 →
      Str.strip (get (entry_title e1)) = Str.strip (get (entry_title e2)) →
      deal_score d1 = deal_score d2.
Proof.
  split.
  - intros d Hd.
    destruct (curate_origin fetch_feed soup_find_img time_time feeds d Hd)
      as (u & e & Hu & He & Hfrom).
    exists u, e. split; [done|]. split; [done|]. split; [done|].
    destruct Hfrom as (url & _ & _ & Htitle & _ & _ & _ & _ & _ & Hscore & _).
    done.
  - intros e1 e2 d1 d2 (u1 & _ & _ & _ & Hp1 & _ & _ & _ & _ & Hs1 & Hd1)
                       (u2 & _ & _ & _ & Hp2 & _ & _ & _ & _ & Hs2 & Hd2) Heq.
    cbn zeta in *. rewrite Hs1, Hs2, Hp1, Hp2, Hd1, Hd2. by rewrite Heq.
Qed.

(** The first Deal of the run over [tagged_titles] comes from the first
    entry, and its score is the Scorer's on that entry's raw title. *)
Lemma score_from_raw_title_witness :
  let out := main (single_feed tagged_titles) no_image frozen_clock in
  let d := default blank_deal (head out) in
  d ∈ out
  ∧ ∃ feed_url entry,
      feed_url ∈ RSS_FEEDS ∧ entry ∈ single_feed tagged_titles feed_url
      ∧ derived_from entry d
      ∧ deal_title d = clean_title (Str.strip (get (entry_title entry)))
      ∧ deal_score d
        = calculate_deal_score (Str.strip (get (entry_title entry)))
            (deal_price d) (deal_discount d).
Proof.
  intros out d.
  assert (Hd : d ∈ out) by (vm_compute; left).
  split; [exact Hd|].
  exact (proj1 (score_from_raw_title (single_feed tagged_titles) no_image
                  frozen_clock RSS_FEEDS) d Hd).
Defined.

(** C6 as stated fails: the two Deals of the run over [tagged_titles] store
    the same title, price and discount and different scores, and the first
    score is not the Scorer's on the stored fields. *)
Lemma stored_fields_do_not_determine_score :
  let out := main (single_feed tagged_titles) no_image frozen_clock in
  map (λ d, (deal_title d, deal_price d, deal_discount d, deal_score d)) out
    = [ ("Widget Pro Max", "$?", 0%Z, 1%Z); ("Widget Pro Max", "$?", 0%Z, 0%Z) ]
  ∧ map (λ d, calculate_deal_score (deal_title d) (deal_price d) (deal_discount d))
      out = [0%Z; 0%Z].
Proof. vm_compute. split; reflexivity. Qed.

(** C7 (the normalization example).  The specification's example title is
    normalized to ["Deal: Echo Dot"], not to ["Echo Dot"]: after the tag, the
    discount and the price are removed the title starts with a space, so the
    prefix pattern, anchored at the start, does not match; without the
    leading tag the same title does normalize to ["Echo Dot"]. *)
Theorem clean_title_example :
  clean_title "[HOT] Deal: Echo Dot (50% OFF) - $19.99" = "Deal: Echo Dot"
  ∧ sub false TRAILING_PRICE ""
      (sub true PAREN_DISCOUNT ""
         (sub false BRACKET_TAG "" "[HOT] Deal: Echo Dot (50% OFF) - $19.99"))
    = " Deal: Echo Dot  "
  ∧ sub true DEAL_PREFIX "" " Deal: Echo Dot  " = " Deal: Echo Dot  "
  ∧ clean_title "Deal: Echo Dot (50% OFF) - $19.99" = "Echo Dot".
Proof. vm_compute. repeat split; reflexivity. Qed.

(** C8 (priority of the categories).  ["Razer Gaming Mouse"] is "Tech": its
    lower-case form holds the Tech keyword "mouse" and the Gaming keyword
    "gaming", and the categoriser is the first match in the table of the
    taxonomy, whose order is Tech, Gaming, Home, Fitness, Accessories, Gifts,
    Baby, Beauty, Pets, with General as the default. *)
Theorem categorize_first_match :
  categorize "Razer Gaming Mouse" = "Tech"
  ∧ Str.contains "mouse" (Str.lower "Razer Gaming Mouse") = true
  ∧ Str.contains "gaming" (Str.lower "Razer Gaming Mouse") = true
  ∧ map fst TAXONOMY
    = ["Tech"; "Gaming"; "Home"; "Fitness"; "Accessories"; "Gifts"; "Baby";
       "Beauty"; "Pets"]
  ∧ ∀ title, categorize title = first_match TAXONOMY (Str.lower title).
Proof.
  split; [by vm_compute|]. split; [by vm_compute|]. split; [by vm_compute|].
  split; [done|].
  intros title. unfold categorize, TAXONOMY. cbn [first_match].
  repeat match goal with
         | |- context [any_in ?ws ?t] => destruct (any_in ws t); [reflexivity|]
         end.
  reflexivity.
Qed.

(** C9 (the affiliate tag), as amended.  In a run over feeds of covered
    entries, the url of a Deal of the output is [add_affiliate_tag] of the
    product URL extracted from its entry, a taggable URL; when the product
    URL is made of plain parts, the url of the Deal has the same scheme,
    host, path and fragment, character for character, and the merged query
    in place of the query.  So does the tagged form of every URL of plain
    parts.  The tagged form of every taggable URL is taggable again, and
    its query is the merged query.  In the merged query every key other
    than [tag] has the values the product URL gave it, in their order, while
    [tag] has the curator's value alone. *)
Theorem affiliate_tag_merged
    (fetch_feed : string → list RawEntry)
    (soup_find_img : string → option (option string))
    (time_time : nat → Z) (feeds : list string) :
  covered_feeds fetch_feed feeds →
  (∀ d, d ∈ curate fetch_feed soup_find_img time_time feeds →
     ∃ feed_url entry amazon_url,
       feed_url ∈ feeds ∧ entry ∈ fetch_feed feed_url
       ∧ extract_amazon_url (get (entry_summary entry)) (get (entry_link entry))
         = Some amazon_url
       ∧ taggable amazon_url = true
       ∧ deal_url d = add_affiliate_tag amazon_url
       ∧ ∀ sch host path q f,
           amazon_url = url_of sch host path q f →
           plain_parts sch host path q f = true →
           deal_url d
           = url_of sch host path (Some (merged_query (default "" q))) f)
  ∧ (∀ sch host path q f,
       plain_parts sch host path q f = true →
       add_affiliate_tag (url_of sch host path q f)
       = url_of sch host path (Some (merged_query (default "" q))) f
       ∧ ∀ k,
           values_of k (Urllib.parse_qsl (merged_query (default "" q)))
           = if decide (k = "tag") then [AFFILIATE_TAG]
             else values_of k (Urllib.parse_qsl (default "" q)))
  ∧ ∀ url,
      taggable url = true →
      taggable (add_affiliate_tag url) = true
      ∧ Urllib.query (Urllib.urlparse (add_affiliate_tag url))
        = merged_query (Urllib.query (Urllib.urlparse url))
      ∧ ∀ k,
          values_of k (Urllib.parse_qsl
                         (Urllib.query (Urllib.urlparse (add_affiliate_tag url))))
          = if decide (k = "tag") then [AFFILIATE_TAG]
            else values_of k (Urllib.parse_qsl (Urllib.query (Urllib.urlparse url))).
Proof.
  intros Hcov. split; [|split].
  - intros d Hd.
    destruct (curate_origin fetch_feed soup_find_img time_time feeds d Hd)
      as (u & e & Hu & He & Hfrom).
    destruct Hfrom as (url & Hurl & _ & _ & _ & _ & _ & Hdurl & _).
    exists u, e, url. split; [done|]. split; [done|]. split; [done|].
    split; [by apply (covered_link e url (Hcov u e Hu He))|]. split; [done|].
    intros sch host path q f -> Hplain. rewrite Hdurl.
    by apply PlainUrl.add_affiliate_tag_plain.
  - intros sch host path q f Hplain.
    split; [by apply PlainUrl.add_affiliate_tag_plain|].
    intros k. apply PlainUrl.merged_query_values.
  - intros url Htag. split; [by apply TagFacts.taggable_tagged|].
    split; [apply UrlFacts.add_affiliate_tag_query|].
    intros k. rewrite UrlFacts.add_affiliate_tag_query.
    apply UrlFacts.out_query_values.
Qed.

(** The Deal built from [foreign_tag_entry] has the tagged product URL,
    which is made of plain parts: the tagged URL differs in the query. *)
Lemma affiliate_tag_merged_witness :
  let out := main (single_feed foreign_tag_entry) no_image frozen_clock in
  let d := default blank_deal (head out) in
  let q := "tag=other-20&ref=abc" in
  covered_feeds (single_feed foreign_tag_entry) RSS_FEEDS
  ∧ d ∈ out
  ∧ foreign_tag_url = url_of "https" "www.amazon.com" "/dp/B08XYZ1234" (Some q) None
  ∧ plain_parts "https" "www.amazon.com" "/dp/B08XYZ1234" (Some q) None = true
  ∧ merged_query q = "tag=syncflow-20&ref=abc"
  ∧ deal_url d = "https://www.amazon.com/dp/B08XYZ1234?tag=syncflow-20&ref=abc"
  ∧ (∃ feed_url entry amazon_url,
       feed_url ∈ RSS_FEEDS ∧ entry ∈ single_feed foreign_tag_entry feed_url
       ∧ extract_amazon_url (get (entry_summary entry)) (get (entry_link entry))
         = Some amazon_url
       ∧ taggable amazon_url = true
       ∧ deal_url d = add_affiliate_tag amazon_url
       ∧ ∀ sch host path q f,
           amazon_url = url_of sch host path q f →
           plain_parts sch host path q f = true →
           deal_url d
           = url_of sch host path (Some (merged_query (default "" q))) f)
  ∧ add_affiliate_tag (url_of "https" "www.amazon.com" "/dp/B08XYZ1234" (Some q) None)
    = url_of "https" "www.amazon.com" "/dp/B08XYZ1234" (Some (merged_query q)) None.
Proof.
  intros out d q.
  assert (Hcov : covered_feeds (single_feed foreign_tag_entry) RSS_FEEDS)
    by (apply covered_single_feed; vm_compute; reflexivity).
  assert (Hd : d ∈ out) by (vm_compute; left).
  assert (Hplain : plain_parts "https" "www.amazon.com" "/dp/B08XYZ1234" (Some q) None
                   = true) by (vm_compute; reflexivity).
  split; [exact Hcov|]. split; [exact Hd|]. split; [vm_compute; reflexivity|].
  split; [exact Hplain|]. split; [vm_compute; reflexivity|].
  split; [vm_compute; reflexivity|].
  pose (H := affiliate_tag_merged (single_feed foreign_tag_entry) no_image
               frozen_clock RSS_FEEDS Hcov).
  split; [exact (proj1 H d Hd)|].
  exact (proj1 (proj1 (proj2 H) "https" "www.amazon.com" "/dp/B08XYZ1234"
                  (Some q) None Hplain)).
Defined.

(** C9 as stated fails: the product URL of [foreign_tag_entry] carries a
    [tag] parameter of its own, which the tagged URL of the Deal no longer
    has. *)
Lemma existing_tag_replaced :
  values_of "tag" (Urllib.parse_qsl (Urllib.query (Urllib.urlparse foreign_tag_url)))
    = ["other-20"]
  ∧ values_of "tag"
      (Urllib.parse_qsl
         (Urllib.query (Urllib.urlparse (add_affiliate_tag foreign_tag_url))))
    = ["syncflow-20"]
  ∧ map deal_url (main (single_feed foreign_tag_entry) no_image frozen_clock)
    = ["https://www.amazon.com/dp/B08XYZ1234?tag=syncflow-20&ref=abc"].
Proof. vm_compute. repeat split; reflexivity. Qed.

(** C10 (the image is never absent).  Whatever the summary yields, the
    image computed for a non-empty identifier is a non-empty string, the
    fallback URL being one; so the loop body never ends in the no-image
    rejection. *)
Theorem image_never_absent
    (soup_find_img : string → option (option string)) (time_time : nat → Z) :
  (∀ c asin, Str.truthy (amazon_image_from_asin (Some (String c asin))) = true)
  ∧ (∀ summary c asin,
       Str.truthy (py_or (extract_image_from_summary soup_find_img summary)
                         (amazon_image_from_asin (Some (String c asin)))) = true)
  ∧ ∀ st entry, (process_entry soup_find_img time_time st entry).1 ≠ NoImage.
Proof.
  split; [done|]. split.
  - intros summary c asin.
    destruct (py_or_image (extract_image_from_summary soup_find_img summary)
                (String c asin) eq_refl) as (image & -> & Himg).
    exact Himg.
  - apply process_entry_has_image.
Qed.

(** * Further facts about the helpers and the run *)

(** ** What the patterns match *)

Module ReFacts.
Import UrlFacts.

Section Matcher.
Variable icase : bool.

Lemma one_inv p st k res :
  one p st k = Some res →
  ∃ c s', rest st = String c s' ∧ p c = true ∧ k (advance st s') = Some res.
Proof.
  unfold one. destruct (rest st) as [|c s']; [done|].
  destruct (p c) eqn:E; [|done]. intros H. by exists c, s'.
Qed.

Lemma star_class_inv p fuel : ∀ st k res,
  star_greedy fuel (one p) st k = Some res →
  ∃ w s', rest st = w +:+ s' ∧ Urllib.all_chars p w = true
    ∧ k {| pos := pos st + String.length w; rest := s'; caps := caps st |}
      = Some res.
Proof.
  induction fuel as [|fuel IH]; intros st k res; cbn [star_greedy].
  - intros H. exists "", (rest st). split; [done|]. split; [done|].
    destruct st. cbn. by rewrite Nat.add_0_r.
  - destruct (one p st _) as [x|] eqn:E; cbn [orelse].
    + intros [= ->]. apply one_inv in E as (c & s' & Hrest & Hc & Hk).
      cbn [advance pos] in Hk.
      assert (Hlt : (pos st <? S (pos st)) = true) by (apply Nat.ltb_lt; lia).
      rewrite Hlt in Hk. apply IH in Hk as (w & s'' & Hs' & Hw & Hk).
      cbn [advance pos rest caps] in *. exists (String c w), s''.
      split; [by rewrite Hrest, Hs'|]. split; [cbn [Urllib.all_chars]; by rewrite Hc|].
      cbn [String.length]. by replace (pos st + S (String.length w))
        with (S (pos st) + String.length w) by lia.
    + intros H. exists "", (rest st). split; [done|]. split; [done|].
      destruct st. cbn. by rewrite Nat.add_0_r.
Qed.

Lemma search_from_inv r : ∀ s p st,
  search_from icase r p s = Some st →
  ∃ pre post, s = pre +:+ post
    ∧ match_at icase r (p + String.length pre) post = Some st
    ∧ ∀ pre' post', s = pre' +:+ post' →
        String.length pre' < String.length pre →
        match_at icase r (p + String.length pre') post' = None.
Proof.
  induction s as [|c s IH]; intros p st; cbn [search_from].
  - destruct (match_at icase r p "") as [x|] eqn:E; [|done].
    intros [= ->]. exists "", "". cbn. rewrite Nat.add_0_r.
    split; [done|]. split; [done|]. intros; lia.
  - destruct (match_at icase r p (String c s)) as [x|] eqn:E.
    + intros [= ->]. exists "", (String c s). cbn. rewrite Nat.add_0_r.
      split; [done|]. split; [done|]. intros; lia.
    + intros (pre & post & -> & Hm & Hleft)%IH.
      exists (String c pre), post. split; [done|]. cbn [String.length].
      split; [by replace (p + S (String.length pre))
                   with (S p + String.length pre) by lia|].
      intros pre' post' Heq Hlen. destruct pre' as [|c' pre'].
      * rewrite app_nil_l in Heq. subst post'. cbn [String.length].
        rewrite Nat.add_0_r. exact E.
      * rewrite !app_cons in Heq. injection Heq as -> Heq.
        cbn [String.length] in *.
        replace (p + S (String.length pre')) with (S p + String.length pre') by lia.
        apply Hleft; [done|lia].
Qed.

Lemma search_from_none r : ∀ s p,
  search_from icase r p s = None →
  ∀ pre post, s = pre +:+ post →
    match_at icase r (p + String.length pre) post = None.
Proof.
  induction s as [|c s IH]; intros p; cbn [search_from].
  - destruct (match_at icase r p "") as [x|] eqn:E; [done|].
    intros _ [|c' pre'] post; [|by rewrite app_cons].
    rewrite app_nil_l. intros <-. cbn [String.length]. by rewrite Nat.add_0_r.
  - destruct (match_at icase r p (String c s)) as [x|] eqn:E; [done|].
    intros H [|c' pre'] post.
    + rewrite app_nil_l. intros <-. cbn [String.length]. by rewrite Nat.add_0_r.
    + rewrite app_cons. intros [= <- ->]. cbn [String.length].
      replace (p + S (String.length pre')) with (S p + String.length pre') by lia.
      by apply IH.
Qed.

End Matcher.

(** *** The identifier pattern *)

Lemma match_at_asin_inv p s st :
  match_at false ASIN_REGEX p s = Some st →
  ∃ a post, s = a +:+ post ∧ is_asin a = true ∧ caps st = [(1, a)].
Proof.
  unfold match_at, ASIN_REGEX. cbn [mtch Times]. intros H.
  do 10 (apply one_inv in H as (? & ? & ?Hrest & ?Hc & H);
         cbn [advance rest pos caps] in * ).
  injection H as <-. cbn [caps].
  subst. eexists (String _ (String _ (String _ (String _ (String _
    (String _ (String _ (String _ (String _ (String _ "")))))))))), _.
  split; [reflexivity|]. split.
  - unfold is_asin. cbn [String.length Urllib.all_chars]. unfold asin_char.
    by repeat match goal with Hc : _ = true |- _ => rewrite Hc; clear Hc end.
  - do 2 f_equal. 
    match goal with |- Str.take ?n _ = _ => replace n with 10 by lia end.
    done.
Qed.

Lemma match_at_asin p a post :
  is_asin a = true →
  match_at false ASIN_REGEX p (a +:+ post)
  = Some {| pos := p + 10; rest := post; caps := [(1, a)] |}.
Proof.
  unfold is_asin. intros [Hlen%Nat.eqb_eq Hall]%andb_true_iff.
  do 10 (destruct a as [|? a]; [cbn in Hlen; lia|]).
  destruct a; [|cbn in Hlen; lia]. clear Hlen.
  cbn [Urllib.all_chars] in Hall. unfold asin_char in Hall.
  repeat (apply andb_true_iff in Hall as [?Hc Hall]).
  unfold match_at, ASIN_REGEX. cbn [mtch Times]. rewrite !app_cons, app_nil_l.
  unfold one. cbn [advance rest pos caps].
  repeat match goal with Hc : _ = true |- _ => rewrite Hc; clear Hc end.
  do 3 f_equal; [lia|]. do 2 f_equal.
  match goal with |- Str.take ?n _ = _ => replace n with 10 by lia end.
  done.
Qed.

Lemma string_length_app (s1 s2 : string) :
  String.length (s1 +:+ s2) = String.length s1 + String.length s2.
Proof. induction s1 as [|c s1 IH]; [done|]. rewrite app_cons. cbn. by rewrite IH. Qed.

Lemma str_take_app n (u v : string) : n = String.length u → Str.take n (u +:+ v) = u.
Proof.
  intros ->. induction u as [|c u IH]; [by destruct v|].
  rewrite app_cons. cbn. by rewrite IH.
Qed.

Lemma take_eq n (x u v : string) :
  x = u +:+ v → n = String.length u → Str.take n x = u.
Proof. intros -> ->. by apply str_take_app. Qed.

(** *** The price pattern *)

Lemma match_at_price_inv p s st :
  match_at false PRICE_REGEX p s = Some st →
  ∃ ds frac post, s = String "$" (ds +:+ frac +:+ post)
    ∧ is_numeral ds = true ∧ is_cents frac = true
    ∧ caps st = [(1, String "$" (ds +:+ frac))].
Proof.
  unfold match_at, PRICE_REGEX, Plus, Opt, digit. cbn [mtch]. intros H.
  apply one_inv in H as (c0 & s0 & Hs & Hc0%Ascii.eqb_eq & H). subst c0.
  apply one_inv in H as (d & s1 & Hs1 & Hd & H).
  apply star_class_inv in H as (w & s2 & Hs2 & Hw & H).
  cbn [advance rest pos caps] in *. subst s s0 s1.
  assert (Hnum : is_numeral (String d w) = true).
  { unfold is_numeral. cbn. by rewrite Hd, Hw. }
  destruct (one _ _ _) as [x|] eqn:E in H; cbn [orelse] in H.
  - injection H as ->.
    apply one_inv in E as (c1 & s3 & Hs3 & Hc1%Ascii.eqb_eq & E). subst c1.
    apply one_inv in E as (d1 & s4 & Hs4 & Hd1 & E).
    cbn [advance rest pos caps] in *. subst s2 s3.
    destruct (one _ _ _) as [y|] eqn:E2 in E; cbn [orelse] in E.
    + injection E as ->.
      apply one_inv in E2 as (d2 & s5 & Hs5 & Hd2 & E2).
      cbn [advance rest pos caps] in *. subst s4. injection E2 as <-.
      exists (String d w), (String "." (String d1 (String d2 ""))), s5.
      split; [by rewrite !app_cons, app_nil_l|]. split; [done|].
      split; [cbn; by rewrite Hd1, Hd2|]. cbn [caps]. do 2 f_equal.
      apply (take_eq _ _ _ s5).
      * by rewrite !app_cons, string_app_assoc, !app_cons, app_nil_l.
      * cbn [String.length]. rewrite app_cons. cbn [String.length].
        rewrite string_length_app. cbn [String.length]. lia.
    + injection E as <-.
      exists (String d w), (String "." (String d1 "")), s4.
      split; [by rewrite !app_cons, app_nil_l|]. split; [done|].
      split; [cbn; by rewrite Hd1|]. cbn [caps]. do 2 f_equal.
      apply (take_eq _ _ _ s4).
      * by rewrite !app_cons, string_app_assoc, !app_cons, app_nil_l.
      * cbn [String.length]. rewrite app_cons. cbn [String.length].
        rewrite string_length_app. cbn [String.length]. lia.
  - injection H as <-.
    exists (String d w), "", s2.
    split; [by rewrite app_nil_l|]. split; [done|]. split; [done|].
    cbn [caps]. do 2 f_equal. rewrite string_app_nil_r.
    apply (take_eq _ _ _ s2).
    * by rewrite !app_cons.
    * cbn [String.length]. lia.
Qed.

(** *** The discount pattern *)

Lemma match_at_discount_inv p s st :
  match_at false DISCOUNT_REGEX p s = Some st →
  ∃ ds post, s = ds +:+ String "%" post
    ∧ is_numeral ds = true ∧ caps st = [(1, ds)].
Proof.
  unfold match_at, DISCOUNT_REGEX, Plus, digit. cbn [mtch]. intros H.
  apply one_inv in H as (d & s1 & Hs & Hd & H).
  apply star_class_inv in H as (w & s2 & Hs2 & Hw & H).
  apply one_inv in H as (c0 & s3 & Hs3 & Hc0%Ascii.eqb_eq & H). subst c0.
  cbn [advance rest pos caps] in *. subst s s1 s2. injection H as <-.
  exists (String d w), s3. split; [by rewrite app_cons|].
  split; [unfold is_numeral; cbn; by rewrite Hd, Hw|].
  cbn [advance caps]. do 2 f_equal.
  apply (take_eq _ _ _ (String "%" s3)).
  - by rewrite app_cons.
  - cbn [String.length]. lia.
Qed.

(** *** The product link pattern *)

Lemma match_at_link_inv p s st :
  match_at false AMAZON_LINK_REGEX p s = Some st →
  ∃ tail post, s = "https://www.amazon.com/" +:+ tail +:+ post
    ∧ Str.nonempty tail = true ∧ Urllib.all_chars link_char tail = true
    ∧ caps st = [(1, "https://www.amazon.com/" +:+ tail)].
Proof.
  unfold match_at, AMAZON_LINK_REGEX, Plus. cbn [mtch Word]. intros H.
  do 23 (apply one_inv in H as (? & ? & ?Hs & ?Hc%Ascii.eqb_eq & H);
         cbn [advance rest pos caps] in * ).
  apply one_inv in H as (d & t1 & Ht1 & Hd & H).
  apply star_class_inv in H as (w & s2 & Ht2 & Hw & H).
  cbn [advance rest pos caps] in *. subst. injection H as <-.
  exists (String d w), s2.
  split; [by rewrite !app_cons, !app_nil_l|]. split; [done|].
  split; [cbn [Urllib.all_chars]; unfold link_char; by rewrite Hd, Hw|].
  cbn [caps]. do 2 f_equal.
  apply (take_eq _ _ _ s2).
  - by rewrite !app_cons, !app_nil_l.
  - rewrite string_length_app. cbn [String.length]. lia.
Qed.

Lemma group1_caps st a : caps st = [(1, a)] → group1 (Some st) = Some a.
Proof. unfold group1. by intros ->. Qed.

Lemma is_asin_nonempty a : is_asin a = true → Str.nonempty a = true.
Proof. by destruct a. Qed.

Lemma is_asin_length a : is_asin a = true → String.length a = 10.
Proof. unfold is_asin. by intros [?%Nat.eqb_eq _]%andb_true_iff. Qed.

(** *** What the helpers return *)

Lemma extract_asin_Some url a :
  extract_asin url = Some a →
  is_asin a = true
  ∧ ∃ pre, occurs_at pre a url
      ∧ ∀ pre' w, occurs_at pre' w url → is_asin w = true →
          String.length pre ≤ String.length pre'.
Proof.
  unfold extract_asin, search.
  destruct (search_from _ _ _ _) as [st|] eqn:E; [|done].
  apply search_from_inv in E as (pre & post & -> & Hm & Hleft).
  apply match_at_asin_inv in Hm as (a' & post' & -> & Ha & Hcaps).
  rewrite (group1_caps _ _ Hcaps). intros [= <-]. split; [done|].
  exists pre. split; [by exists post'|].
  intros pre' w [post2 Heq] Hw.
  destruct (Nat.le_gt_cases (String.length pre) (String.length pre')) as [|Hlt];
    [done|].
  specialize (Hleft pre' (w +:+ post2) Heq Hlt).
  by rewrite match_at_asin in Hleft.
Qed.

Lemma extract_asin_None url :
  extract_asin url = None → ∀ pre w, occurs_at pre w url → is_asin w = false.
Proof.
  unfold extract_asin, search.
  destruct (search_from _ _ _ _) as [st|] eqn:E.
  - apply search_from_inv in E as (pre & post & -> & Hm & Hleft).
    apply match_at_asin_inv in Hm as (a' & post' & -> & Ha & Hcaps).
    by rewrite (group1_caps _ _ Hcaps).
  - intros _ pre w [post Heq]. destruct (is_asin w) eqn:Hw; [|done].
    pose proof (search_from_none _ _ _ _ E pre (w +:+ post) Heq) as Hm.
    by rewrite match_at_asin in Hm.
Qed.

Lemma extract_price_Some title price :
  extract_price_from_title title = Some price →
  ∃ ds frac, price = String "$" (ds +:+ frac)
    ∧ is_numeral ds = true ∧ is_cents frac = true
    ∧ ∃ pre, occurs_at pre price title.
Proof.
  unfold extract_price_from_title, search.
  destruct (search_from _ _ _ _) as [st|] eqn:E; [|done].
  apply search_from_inv in E as (pre & post & -> & Hm & _).
  apply match_at_price_inv in Hm as (ds & frac & post' & -> & Hds & Hfrac & Hcaps).
  rewrite (group1_caps _ _ Hcaps). intros [= <-].
  exists ds, frac. split; [done|]. split; [done|]. split; [done|].
  exists pre, post'. by rewrite !app_cons, string_app_assoc.
Qed.

Lemma extract_discount_cases title :
  extract_discount_from_title title = 0%Z
  ∨ ∃ pre ds, occurs_at pre (ds +:+ "%") title ∧ is_numeral ds = true
      ∧ extract_discount_from_title title = int_of_digits ds.
Proof.
  unfold extract_discount_from_title, search.
  destruct (search_from _ _ _ _) as [st|] eqn:E; [|by left].
  apply search_from_inv in E as (pre & post & -> & Hm & _).
  apply match_at_discount_inv in Hm as (ds & post' & -> & Hds & Hcaps).
  rewrite (group1_caps _ _ Hcaps). right. exists pre, ds.
  split; [|done]. exists post'. by rewrite string_app_assoc, !app_cons, app_nil_l.
Qed.

Lemma contains_amazon tail : Str.contains "amazon.com" ("https://www.amazon.com/" +:+ tail) = true.
Proof. reflexivity. Qed.

Lemma contains_nonempty needle hay :
  Str.nonempty needle = true → Str.contains needle hay = true →
  Str.nonempty hay = true.
Proof. destruct hay; [|done]. by destruct needle. Qed.

Lemma extract_amazon_url_Some summary fallback url :
  extract_amazon_url summary fallback = Some url →
  (Str.contains "amazon.com" fallback = true ∧ url = fallback)
  ∨ (Str.contains "amazon.com" fallback = false
     ∧ ∃ pre tail, occurs_at pre url summary
         ∧ url = "https://www.amazon.com/" +:+ tail
         ∧ Str.nonempty tail = true ∧ Urllib.all_chars link_char tail = true).
Proof.
  unfold extract_amazon_url. destruct (Str.contains _ fallback) eqn:Hc.
  - intros [= <-]. by left.
  - unfold search. destruct (search_from _ _ _ _) as [st|] eqn:E; [|done].
    apply search_from_inv in E as (pre & post & -> & Hm & _).
    apply match_at_link_inv in Hm as (tail & post' & -> & Hne & Htail & Hcaps).
    rewrite (group1_caps _ _ Hcaps). intros [= <-]. right. split; [done|].
    exists pre, tail. split; [|done]. exists post'.
    by rewrite string_app_assoc.
Qed.

Lemma extract_amazon_url_nonempty summary fallback url :
  extract_amazon_url summary fallback = Some url →
  Str.contains "amazon.com" url = true ∧ Str.nonempty url = true.
Proof.
  intros H. assert (Hc : Str.contains "amazon.com" url = true).
  { apply extract_amazon_url_Some in H as [[Hc ->]|(_ & pre & tail & _ & -> & _)];
      [done|apply contains_amazon]. }
  split; [done|]. by apply (contains_nonempty "amazon.com").
Qed.

End ReFacts.

(** ** Prices as numbers *)

Module FloatFacts.
Import UrlFacts ReFacts.

Lemma numeral_char_facts c :
  numeral_char c = true →
  Float.is_blank c = false ∧ Ascii.eqb c "_" = false ∧ Ascii.eqb c "$" = false
  ∧ (Ascii.eqb c "e" || Ascii.eqb c "E") = false.
Proof. by destruct c as [[] [] [] [] [] [] [] []]. Qed.

Lemma digit_facts d :
  Str.is_digit d = true →
  (∀ s, Float.split_sign (String d s) = (false, String d s))
  ∧ Str.lower_char d = d ∧ Ascii.eqb d "i" = false ∧ Ascii.eqb d "n" = false
  ∧ Ascii.eqb "." d = false ∧ (48 ≤ Str.code d)%nat.
Proof. destruct d as [[] [] [] [] [] [] [] []]; try done; vm_compute; repeat split; lia. Qed.

Lemma all_digits_chars s : Float.all_digits s = Urllib.all_chars Str.is_digit s.
Proof. induction s as [|c s IH]; [done|]. cbn. by rewrite IH. Qed.

Lemma rev_onto_all p s : ∀ acc,
  Urllib.all_chars p (Str.rev_onto s acc)
  = Urllib.all_chars p s && Urllib.all_chars p acc.
Proof.
  induction s as [|c s IH]; intros acc; [done|]. cbn [Str.rev_onto].
  rewrite IH. cbn [Urllib.all_chars]. by destruct (p c), (Urllib.all_chars p s).
Qed.

Lemma rev_onto_rev_onto s : ∀ acc acc',
  Str.rev_onto (Str.rev_onto s acc) acc' = Str.rev_onto acc (s +:+ acc').
Proof.
  induction s as [|c s IH]; intros acc acc'; [done|]. cbn [Str.rev_onto].
  by rewrite IH, app_cons.
Qed.

Lemma str_rev_involutive s : Str.rev (Str.rev s) = s.
Proof. unfold Str.rev. rewrite rev_onto_rev_onto. cbn. apply string_app_nil_r. Qed.

Lemma float_lstrip_id s :
  Urllib.all_chars (λ c, negb (Float.is_blank c)) s = true → Float.lstrip s = s.
Proof.
  destruct s as [|c s]; [done|]. cbn. intros [Hc _]%andb_true_iff.
  by apply negb_true_iff in Hc as ->.
Qed.

Lemma float_strip_id s :
  Urllib.all_chars (λ c, negb (Float.is_blank c)) s = true → Float.strip s = s.
Proof.
  intros H. unfold Float.strip. rewrite (float_lstrip_id s H).
  rewrite float_lstrip_id; [apply str_rev_involutive|].
  unfold Str.rev. by rewrite rev_onto_all, H.
Qed.

Lemma drop_underscores_id s : ∀ prev,
  Ascii.eqb prev "_" = false →
  Urllib.all_chars (λ c, negb (Ascii.eqb c "_")) s = true →
  Float.drop_underscores prev s = Some s.
Proof.
  induction s as [|c s IH]; intros prev Hprev; cbn.
  - by rewrite Hprev.
  - intros [Hc%negb_true_iff Hs]%andb_true_iff. rewrite Hc, Hprev. cbn.
    by rewrite IH.
Qed.

Lemma remove_char_id c s :
  Urllib.all_chars (λ a, negb (Ascii.eqb a c)) s = true → Str.remove_char c s = s.
Proof.
  induction s as [|a s IH]; [done|]. cbn.
  intros [Ha%negb_true_iff Hs]%andb_true_iff. by rewrite Ha, IH.
Qed.

Lemma split_first_none p s :
  Urllib.all_chars (λ c, negb (p c)) s = true → Float.split_first p s = (s, None).
Proof.
  induction s as [|c s IH]; [done|]. cbn.
  intros [Hc%negb_true_iff Hs]%andb_true_iff. by rewrite Hc, IH.
Qed.

Lemma split_first_app p s c t :
  Urllib.all_chars (λ c, negb (p c)) s = true → p c = true →
  Float.split_first p (s +:+ String c t) = (s, Some t).
Proof.
  intros Hs Hc. induction s as [|a s IH].
  - rewrite app_nil_l. cbn. by rewrite Hc.
  - rewrite app_cons. cbn. cbn in Hs.
    apply andb_true_iff in Hs as [Ha%negb_true_iff Hs]. by rewrite Ha, IH.
Qed.

Lemma int_of_digits_nonneg s :
  Urllib.all_chars Str.is_digit s = true → (0 ≤ int_of_digits s)%Z.
Proof.
  unfold int_of_digits.
  match goal with |- _ → (0 ≤ ?f _ _)%Z => set (go := f) end.
  assert (H : ∀ acc, (0 ≤ acc)%Z →
            Urllib.all_chars Str.is_digit s = true → (0 ≤ go acc s)%Z);
    [|by apply H].
  induction s as [|d s IH]; intros acc Hacc; [intros _; exact Hacc|].
  cbn [Urllib.all_chars]. intros [Hd Hs]%andb_true_iff.
  apply IH; [|done]. apply digit_facts in Hd as (_ & _ & _ & _ & _ & Hd). lia.
Qed.

Lemma scale_nonneg m e : (0 ≤ m)%Z → (0 <= Float.scale m e)%Q.
Proof.
  intros Hm. unfold Float.scale. destruct (0 <=? e)%Z eqn:He.
  - apply Z.leb_le in He. unfold Qle. cbn.
    pose proof (Z.pow_nonneg 10 e). nia.
  - unfold Qle. cbn. lia.
Qed.

Lemma is_cents_cases frac :
  is_cents frac = true →
  frac = "" ∨ ∃ fd, frac = String "." fd ∧ Str.nonempty fd = true
                    ∧ Urllib.all_chars Str.is_digit fd = true.
Proof.
  destruct frac as [|c [|d1 [|d2 [|? ?]]]]; [by left|..];
    destruct c as [[] [] [] [] [] [] [] []]; try done; cbn.
  - intros H. right. exists (String d1 ""). cbn. by rewrite H.
  - intros [H1 H2]%andb_true_iff. right. exists (String d1 (String d2 "")).
    cbn. by rewrite H1, H2.
Qed.

(** The text of a price without its dollar sign converts to a number. *)
Lemma of_string_price ds frac :
  is_numeral ds = true → is_cents frac = true →
  ∃ q, Float.of_string (Str.remove_char "$" (String "$" (ds +:+ frac)))
       = Some (Float.Finite q) ∧ (0 <= q)%Q.
Proof.
  unfold is_numeral. intros [Hne Hds]%andb_true_iff Hfrac.
  apply is_cents_cases in Hfrac as Hcases.
  assert (Hfd : ∃ fd, Urllib.all_chars Str.is_digit fd = true
    ∧ Float.split_first (Ascii.eqb ".") (ds +:+ frac)
      = (ds, if Str.nonempty frac then Some fd else None)).
  { assert (Hnp : Urllib.all_chars (λ c, negb (Ascii.eqb "." c)) ds = true).
    { revert Hds. apply all_chars_impl. intros c Hc.
      apply digit_facts in Hc as (_ & _ & _ & _ & -> & _). done. }
    destruct Hcases as [->|(fd & -> & _ & Hfd)].
    - exists "". rewrite string_app_nil_r. split; [done|].
      by apply split_first_none.
    - exists fd. split; [done|]. by apply split_first_app. }
  destruct Hfd as (fd & Hfd & Hsplit).
  assert (Hbody : Urllib.all_chars numeral_char (ds +:+ frac) = true).
  { apply all_chars_app_iff. split.
    - revert Hds. apply all_chars_impl. intros c Hc. unfold numeral_char.
      by rewrite Hc.
    - destruct Hcases as [->|(fd' & -> & _ & Hfd')]; [done|].
      cbn. revert Hfd'. apply all_chars_impl. intros c Hc. unfold numeral_char.
      by rewrite Hc. }
  cbn [Str.remove_char]. rewrite Ascii.eqb_refl.
  rewrite remove_char_id;
    [|revert Hbody; apply all_chars_impl; intros c Hc;
      apply numeral_char_facts in Hc as (_ & _ & -> & _); done].
  unfold Float.of_string.
  rewrite float_strip_id;
    [|revert Hbody; apply all_chars_impl; intros c Hc;
      apply numeral_char_facts in Hc as (-> & _); done].
  rewrite drop_underscores_id;
    [|done|revert Hbody; apply all_chars_impl; intros c Hc;
      apply numeral_char_facts in Hc as (_ & -> & _); done].
  destruct ds as [|d w]; [done|]. rewrite app_cons.
  cbn [Urllib.all_chars] in Hds. apply andb_true_iff in Hds as [Hd Hw].
  destruct (digit_facts d Hd) as (Hsign & Hlow & Hi & Hn & _ & _).
  rewrite Hsign. cbn [Str.lower]. rewrite Hlow.
  cbn [String.eqb]. rewrite Hi, Hn. cbn [orb].
  unfold Float.decimal. rewrite <- app_cons.
  rewrite split_first_none;
    [|revert Hbody; apply all_chars_impl; intros c Hc;
      apply numeral_char_facts in Hc as (_ & _ & _ & ->); done].
  rewrite Hsplit.
  set (fp := match (if Str.nonempty frac then Some fd else None) with
             | Some f => f | None => "" end).
  assert (Hfp : Urllib.all_chars Str.is_digit fp = true).
  { unfold fp. by destruct (Str.nonempty frac). }
  rewrite !all_digits_chars. cbn [Urllib.all_chars]. rewrite Hd, Hw, Hfp.
  rewrite app_cons. cbn [Str.nonempty andb].
  eexists. split; [reflexivity|]. apply scale_nonneg, int_of_digits_nonneg.
  rewrite <- app_cons. apply all_chars_app_iff. split; [|done].
  cbn [Urllib.all_chars]. by rewrite Hd, Hw.
Qed.

End FloatFacts.

(** ** Similarity: the sizes of the matching blocks *)

Module DifflibSizes.
Import Difflib DifflibFacts.

Section Sizes.
Variables a b : list ascii.

Lemma scan_js_inside i blo bhi j2len js : ∀ newj2len best,
  runs_from blo j2len → runs_from blo newj2len →
  (let '(_, j, k) := best in blo ≤ j ∧ j + k ≤ bhi) →
  runs_from blo (scan_js i blo bhi j2len js newj2len best).1
  ∧ (let '(_, j, k) := (scan_js i blo bhi j2len js newj2len best).2 in
     blo ≤ j ∧ j + k ≤ bhi).
Proof.
  induction js as [|j js IH]; intros newj2len best Hold Hnew Hbest;
    cbn [scan_js]; [done|].
  destruct (Nat.ltb_spec j blo) as [|Hblo]; [by apply IH|].
  destruct (Nat.leb_spec bhi j) as [|Hbhi]; [done|].
  assert (Hk : j2lenget j2len j + 1 + blo ≤ j + 1).
  { unfold j2lenget. destruct j as [|j']; [lia|].
    destruct (j2len !! j') as [v|] eqn:E; simpl; [|lia].
    specialize (Hold j' v E). lia. }
  destruct best as [[bi bj] bs]. apply IH; [done| |].
  - intros j0 v. rewrite lookup_insert. case_decide; [|apply Hnew].
    intros [= <-]. lia.
  - destruct (bs <? j2lenget j2len j + 1); [|done]. lia.
Qed.

Lemma scan_i_inside blo bhi n : ∀ i j2len best,
  runs_from blo j2len →
  (let '(_, j, k) := best in blo ≤ j ∧ j + k ≤ bhi) →
  let '(_, j, k) := scan_i a b n i blo bhi j2len best in
  blo ≤ j ∧ j + k ≤ bhi.
Proof.
  induction n as [|n IH]; intros i j2len best Hlen Hbest; cbn [scan_i]; [done|].
  destruct (a !! i) as [c|]; [|done].
  destruct (scan_js_inside i blo bhi j2len (b2j b c) ∅ best) as [H1 H2];
    [done|by intros j v|done|].
  destruct (scan_js i blo bhi j2len (b2j b c) ∅ best) as [newj2len best'].
  by apply IH.
Qed.

Lemma extend_left_inside alo blo bhi fuel : ∀ best,
  (let '(_, j, k) := best in blo ≤ j ∧ j + k ≤ bhi) →
  let '(_, j, k) := extend_left a b fuel alo blo best in
  blo ≤ j ∧ j + k ≤ bhi.
Proof.
  induction fuel as [|fuel IH]; intros [[bi bj] bs] Hbest; cbn [extend_left];
    [done|].
  destruct ((alo <? bi) && (blo <? bj) && same_at a b (bi - 1) (bj - 1)) eqn:E;
    [|done].
  apply IH. apply andb_true_iff in E as [[_ H1%Nat.ltb_lt]%andb_true_iff _].
  lia.
Qed.

Lemma extend_right_inside ahi blo bhi fuel : ∀ best,
  (let '(_, j, k) := best in blo ≤ j ∧ j + k ≤ bhi) →
  let '(_, j, k) := extend_right a b fuel ahi bhi best in
  blo ≤ j ∧ j + k ≤ bhi.
Proof.
  induction fuel as [|fuel IH]; intros [[bi bj] bs] Hbest; cbn [extend_right];
    [done|].
  destruct ((bi + bs <? ahi) && (bj + bs <? bhi) && same_at a b (bi + bs) (bj + bs))
    eqn:E; [|done].
  apply IH. apply andb_true_iff in E as [[_ H1%Nat.ltb_lt]%andb_true_iff _].
  lia.
Qed.

Lemma find_longest_match_inside alo ahi blo bhi :
  range_ok (alo, ahi, blo, bhi) →
  block_inside (alo, ahi, blo, bhi) (find_longest_match a b alo ahi blo bhi).
Proof.
  intros [Ha Hb].
  pose proof (find_longest_match_bounds a b alo ahi blo bhi Ha) as H1.
  assert (H2 : let '(_, j, k) := find_longest_match a b alo ahi blo bhi in
               blo ≤ j ∧ j + k ≤ bhi).
  { unfold find_longest_match.
    apply extend_right_inside, extend_left_inside, scan_i_inside;
      [by intros j v|lia]. }
  destruct (find_longest_match a b alo ahi blo bhi) as [[i j] k].
  cbn in *. lia.
Qed.

Lemma total_size_snoc blocks i j k :
  total_size (blocks ++ [(i, j, k)]) = total_size blocks + k.
Proof.
  induction blocks as [|[[i' j'] k'] blocks IH]; cbn; [lia|].
  fold (total_size (blocks ++ [(i, j, k)])). rewrite IH.
  fold (total_size blocks). lia.
Qed.

Lemma span_a_cons alo ahi blo bhi queue :
  span_a ((alo, ahi, blo, bhi) :: queue) = (ahi - alo) + span_a queue.
Proof. done. Qed.

Lemma span_b_cons alo ahi blo bhi queue :
  span_b ((alo, ahi, blo, bhi) :: queue) = (bhi - blo) + span_b queue.
Proof. done. Qed.

(** The blocks found in a queue of ranges are no longer than the ranges. *)
Lemma blocks_loop_size fuel : ∀ queue acc,
  Forall range_ok queue →
  total_size (blocks_loop a b fuel queue acc) ≤ total_size acc + span_a queue
  ∧ total_size (blocks_loop a b fuel queue acc) ≤ total_size acc + span_b queue.
Proof.
  induction fuel as [|fuel IH]; intros queue acc Hq.
  - destruct queue; cbn [blocks_loop]; lia.
  - destruct queue as [|[[[alo ahi] blo] bhi] queue]; cbn [blocks_loop]; [lia|].
    inversion_clear Hq as [|? ? Hr Hq'].
    pose proof (find_longest_match_inside alo ahi blo bhi Hr) as Hb.
    destruct (find_longest_match a b alo ahi blo bhi) as [[i j] k].
    cbn [block_inside] in Hb. rewrite span_a_cons, span_b_cons.
    destruct (Nat.eqb_spec k 0) as [->|Hk].
    + destruct (IH queue acc Hq'). lia.
    + set (q1 := if (alo <? i) && (blo <? j) then (alo, i, blo, j) :: queue
                 else queue).
      set (q2 := if (i + k <? ahi) && (j + k <? bhi)
                 then (i + k, ahi, j + k, bhi) :: q1 else q1).
      assert (H1 : Forall range_ok q1
                   ∧ span_a q1 ≤ span_a queue + (i - alo)
                   ∧ span_b q1 ≤ span_b queue + (j - blo)).
      { unfold q1. destruct ((alo <? i) && (blo <? j)).
        - rewrite span_a_cons, span_b_cons. split; [|lia].
          constructor; [cbn; lia|done].
        - split; [done|lia]. }
      destruct H1 as (Ho1 & Ha1 & Hb1).
      assert (H2 : Forall range_ok q2
                   ∧ span_a q2 ≤ span_a q1 + (ahi - (i + k))
                   ∧ span_b q2 ≤ span_b q1 + (bhi - (j + k))).
      { unfold q2. destruct ((i + k <? ahi) && (j + k <? bhi)).
        - rewrite span_a_cons, span_b_cons. split; [|lia].
          constructor; [cbn; lia|done].
        - split; [done|lia]. }
      destruct H2 as (Ho2 & Ha2 & Hb2).
      destruct (IH q2 (acc ++ [(i, j, k)]) Ho2) as [Hsa Hsb].
      rewrite total_size_snoc in Hsa, Hsb. lia.
Qed.

Lemma matches_le : matches a b ≤ length a ∧ matches a b ≤ length b.
Proof.
  unfold matches, get_matching_blocks.
  destruct (blocks_loop_size (2 * length a + 1) [(0, length a, 0, length b)] [])
    as [H1 H2]; [constructor; [cbn; lia|constructor]|].
  unfold total_size, span_a, span_b in H1, H2. cbn [foldr] in H1, H2. lia.
Qed.

End Sizes.
End DifflibSizes.

(** ** Similarity: a text against itself *)

Module DifflibSelf.
Import Difflib DifflibFacts.

Lemma indices_from_spec l c : ∀ s j,
  j ∈ indices_from s l c ↔ s ≤ j ∧ l !! (j - s) = Some c.
Proof.
  induction l as [|x l IH]; intros s j; cbn [indices_from].
  - rewrite elem_of_nil. split; [done|]. by intros [_ ?].
  - destruct (Ascii.eqb_spec x c) as [->|Hne].
    + rewrite elem_of_cons, IH. split.
      * intros [->|[Hle Hl]].
        -- split; [lia|]. by replace (s - s) with 0 by lia.
        -- split; [lia|]. by replace (j - s) with (S (j - S s)) by lia.
      * intros [Hle Hl]. destruct (decide (j = s)) as [|Hjs]; [by left|].
        right. split; [lia|].
        by replace (j - s) with (S (j - S s)) in Hl by lia.
    + rewrite IH. split.
      * intros [Hle Hl]. split; [lia|].
        by replace (j - s) with (S (j - S s)) by lia.
      * intros [Hle Hl]. destruct (decide (j = s)) as [->|Hjs].
        -- replace (s - s) with 0 in Hl by lia. cbn in Hl. congruence.
        -- split; [lia|]. by replace (j - s) with (S (j - S s)) in Hl by lia.
Qed.

Lemma indices_from_sorted l c : ∀ s, StronglySorted lt (indices_from s l c).
Proof.
  induction l as [|x l IH]; intros s; cbn [indices_from]; [constructor|].
  destruct (Ascii.eqb x c); [|apply IH].
  constructor; [apply IH|]. apply Forall_forall. intros j Hj.
  apply indices_from_spec in Hj. lia.
Qed.

Section Self.
Variable l : list ascii.

Lemma run_at_S j c :
  l !! j = Some c → popular l c = false →
  run_at l j = S (match j with O => 0 | S j' => run_at l j' end).
Proof. intros Hl Hp. destruct j; cbn [run_at]; by rewrite Hl, Hp. Qed.

Lemma run_at_popular j c :
  l !! j = Some c → popular l c = true → run_at l j = 0.
Proof. intros Hl Hp. destruct j; cbn [run_at]; by rewrite Hl, Hp. Qed.

(** One row of the scan, for a character that is not popular. *)
Lemma scan_js_diag i c j2len bs0 :
  l !! i = Some c → popular l c = false →
  diagonal_inv l i j2len bs0 →
  ∀ js newj2len bi bs,
    StronglySorted lt js →
    (∀ j, j ∈ js → l !! j = Some c) →
    (∀ j v, newj2len !! j = Some v → v ≤ run_at l j ∧ v ≤ run_at l i) →
    bs0 ≤ bs →
    i ∈ js ∨ (newj2len !! i = Some (run_at l i) ∧ run_at l i ≤ bs) →
    ∃ new' bi' bs',
      scan_js i 0 (length l) j2len js newj2len (bi, bi, bs) = (new', (bi', bi', bs'))
      ∧ (∀ j v, new' !! j = Some v → v ≤ run_at l j ∧ v ≤ run_at l i)
      ∧ new' !! i = Some (run_at l i) ∧ run_at l i ≤ bs' ∧ bs0 ≤ bs'.
Proof.
  intros Hi Hp (I1 & I2 & I3).
  assert (HK : ∀ j, l !! j = Some c →
            j2lenget j2len j + 1 ≤ run_at l j
            ∧ j2lenget j2len j + 1 ≤ run_at l i).
  { intros j Hj. rewrite (run_at_S j c Hj Hp), (run_at_S i c Hi Hp).
    unfold j2lenget. destruct j as [|j']; [lia|].
    destruct (j2len !! j') as [v|] eqn:E; simpl; [|lia].
    destruct (I1 j' v E) as (H1 & i' & Hii & H2). rewrite Hii. lia. }
  assert (HKi : j2lenget j2len i + 1 = run_at l i).
  { rewrite (run_at_S i c Hi Hp). unfold j2lenget. destruct i as [|i']; [lia|].
    rewrite (I2 i' eq_refl). lia. }
  induction js as [|j js IH]; intros newj2len bi bs Hsort Hjs Hnew Hbs Hdone;
    cbn [scan_js].
  - destruct Hdone as [Hin|[H1 H2]]; [by apply elem_of_nil in Hin|].
    by exists newj2len, bi, bs.
  - replace (j <? 0) with false by (symmetry; apply Nat.ltb_ge; lia).
    assert (Hj : l !! j = Some c) by (apply Hjs; left).
    replace (length l <=? j) with false
      by (symmetry; apply Nat.leb_gt; by apply lookup_lt_Some in Hj).
    inversion_clear Hsort as [|? ? Hsort' Hlt].
    destruct (HK j Hj) as [Hk1 Hk2].
    destruct (decide (j = i)) as [->|Hji].
    + (* the diagonal *)
      rewrite HKi.
      destruct (Nat.ltb_spec bs (run_at l i));
        (apply IH;
           [done|by intros; apply Hjs; right| |lia
           |right; rewrite lookup_insert_eq; split; [done|lia]]);
        (intros j0 v; rewrite lookup_insert; case_decide; [|apply Hnew];
         intros [= <-]; subst; lia).
    + (* off the diagonal: the best block stays *)
      assert (Hsmall : j2lenget j2len j + 1 ≤ bs).
      { destruct (Nat.lt_ge_cases j i) as [Hlt'|Hge].
        - specialize (I3 j Hlt'). lia.
        - destruct Hdone as [Hin|[_ H2]]; [|lia].
          apply elem_of_cons in Hin as [->|Hin]; [done|].
          rewrite Forall_forall in Hlt. specialize (Hlt i Hin). lia. }
      replace (bs <? j2lenget j2len j + 1) with false
        by (symmetry; apply Nat.ltb_ge; lia).
      apply IH; [done|by intros; apply Hjs; right| |done|].
      * intros j0 v. rewrite lookup_insert. case_decide; [|apply Hnew].
        intros [= <-]. subst. lia.
      * destruct Hdone as [Hin|[H1 H2]].
        -- left. apply elem_of_cons in Hin as [->|Hin]; done.
        -- right. by rewrite lookup_insert_ne.
Qed.

Lemma scan_i_diag m : ∀ i j2len bi bs,
  i + m = length l → diagonal_inv l i j2len bs →
  ∃ bi' bs', scan_i l l m i 0 (length l) j2len (bi, bi, bs) = (bi', bi', bs').
Proof.
  induction m as [|m IH]; intros i j2len bi bs Hlen Hinv; cbn [scan_i];
    [by eexists _, _|].
  destruct (l !! i) as [c|] eqn:Hi;
    [|apply lookup_ge_None in Hi; lia].
  unfold b2j. destruct (popular l c) eqn:Hp.
  - cbn [scan_js]. apply IH; [lia|].
    destruct Hinv as (I1 & I2 & I3). split; [by intros j v|]. split.
    + intros i' [= <-]. rewrite lookup_empty. cbn.
      by rewrite (run_at_popular i c).
    + intros j Hj. destruct (decide (j = i)) as [->|];
        [rewrite (run_at_popular i c); [lia|done..]|apply I3; lia].
  - destruct (scan_js_diag i c j2len bs Hi Hp Hinv (indices_from 0 l c) ∅ bi bs)
      as (new' & bi' & bs' & -> & Hnew & Hdiag & Hrun & Hbs).
    + apply indices_from_sorted.
    + intros j [_ Hj]%indices_from_spec. by rewrite Nat.sub_0_r in Hj.
    + by intros j v.
    + done.
    + left. apply indices_from_spec. split; [lia|]. by rewrite Nat.sub_0_r.
    + apply IH; [lia|]. destruct Hinv as (I1 & I2 & I3). split; [|split].
      * intros j v Hv. destruct (Hnew j v Hv). split; [done|]. by exists i.
      * intros i' [= <-]. by rewrite Hdiag.
      * intros j Hj. destruct (decide (j = i)) as [->|]; [done|].
        specialize (I3 j). lia.
Qed.

Lemma same_at_diag i : i < length l → same_at l l i i = true.
Proof.
  intros Hi. unfold same_at. destruct (l !! i) as [x|] eqn:E.
  - apply Ascii.eqb_refl.
  - apply lookup_ge_None in E. lia.
Qed.

Lemma extend_left_diag fuel : ∀ bi bs,
  bi ≤ length l →
  extend_left l l fuel 0 0 (bi, bi, bs)
  = (bi - fuel, bi - fuel, bs + Nat.min fuel bi).
Proof.
  induction fuel as [|fuel IH]; intros bi bs Hbi; cbn [extend_left].
  - (f_equal; [f_equal|]; lia).
  - destruct (Nat.ltb_spec 0 bi) as [Hpos|Hzero]; cbn [andb].
    + rewrite same_at_diag by lia. rewrite IH by lia. (f_equal; [f_equal|]; lia).
    + (f_equal; [f_equal|]; lia).
Qed.

Lemma extend_right_diag fuel : ∀ bs,
  bs ≤ length l →
  extend_right l l fuel (length l) (length l) (0, 0, bs)
  = (0, 0, Nat.min (length l) (bs + fuel)).
Proof.
  induction fuel as [|fuel IH]; intros bs Hbs; cbn [extend_right].
  - (f_equal; lia).
  - cbn [Nat.add]. destruct (Nat.ltb_spec bs (length l)) as [Hlt|Hge]; cbn [andb].
    + rewrite same_at_diag by lia. rewrite IH by lia. (f_equal; lia).
    + (f_equal; lia).
Qed.

(** The longest block of a sequence against itself is the sequence. *)
Lemma find_longest_match_self :
  find_longest_match l l 0 (length l) 0 (length l) = (0, 0, length l).
Proof.
  unfold find_longest_match. rewrite Nat.sub_0_r.
  pose proof (scan_i_bounds l l 0 0 (length l) (length l) 0 ∅ (0, 0, 0)) as Hb.
  destruct (scan_i_diag (length l) 0 ∅ 0 0) as (bi & bs & Hscan).
  { lia. }
  { split; [by intros j v|]. split; [done|]. intros; lia. }
  rewrite Hscan in Hb |- *. cbn [fst].
  assert (Hin : bi + bs ≤ length l).
  { cbn in Hb. apply Hb; [lia|by intros j v|lia]. }
  rewrite extend_left_diag by lia. rewrite Nat.sub_diag, Nat.min_id.
  rewrite extend_right_diag by lia. f_equal. lia.
Qed.

Lemma matches_self : matches l l = length l.
Proof.
  unfold matches, get_matching_blocks.
  replace (2 * length l + 1) with (S (2 * length l)) by lia.
  cbn [blocks_loop]. rewrite find_longest_match_self.
  destruct (Nat.eqb_spec (length l) 0) as [->|Hn].
  - by destruct (2 * 0).
  - cbn [Nat.add]. rewrite !Nat.ltb_irrefl. cbn [andb app].
    destruct (2 * length l); cbn; lia.
Qed.

End Self.
End DifflibSelf.

(** ** Similarity: the threshold *)

Section Similarity.

Lemma lower_length s : String.length (Str.lower s) = String.length s.
Proof. induction s as [|c s IH]; [done|]. cbn. by rewrite IH. Qed.

Lemma list_ascii_length s : length (list_ascii_of_string s) = String.length s.
Proof. induction s as [|c s IH]; [done|]. cbn. by rewrite IH. Qed.

(** The threshold on the ratio, as an inequality on integers. *)
Lemma ratio_threshold (a b : list ascii) :
  Qle_bool 0.85%Q (Difflib.ratio a b) = true
  ↔ 17 * (length a + length b) ≤ 40 * Difflib.matches a b.
Proof.
  unfold Difflib.ratio. destruct (length a + length b) as [|n] eqn:E.
  - split; [lia|done].
  - rewrite Qle_bool_iff. unfold Qle. cbn [Qnum Qden].
    rewrite Zpos_P_of_succ_nat. lia.
Qed.

End Similarity.

(** ** The run, state by state *)

(** *** Relations along a trace *)

Lemma chain_app R st tr1 tr2 :
  chain R st (tr1 ++ tr2) ↔ chain R st tr1 ∧ chain R (end_state st tr1) tr2.
Proof.
  revert st. induction tr1 as [|s tr1 IH]; intros st.
  - cbn. tauto.
  - cbn [app chain]. rewrite IH, end_state_cons. tauto.
Qed.

Lemma chain_lookup (R : State → State → Prop) :
  (∀ s, R s s) → (∀ s1 s2 s3, R s1 s2 → R s2 s3 → R s1 s3) →
  ∀ tr st i j s s',
    chain R st tr → i ≤ j →
    (st :: tr) !! i = Some s → (st :: tr) !! j = Some s' → R s s'.
Proof.
  intros Hrefl Htrans.
  assert (Hfirst : ∀ tr st j s', chain R st tr → (st :: tr) !! j = Some s' → R st s').
  { induction tr as [|s1 tr IH]; intros st j s' Hch Hj.
    - destruct j; [|done]. injection Hj as <-. apply Hrefl.
    - destruct j as [|j]; [injection Hj as <-; apply Hrefl|].
      destruct Hch as [H1 Hch]. eapply Htrans; [exact H1|].
      by eapply IH. }
  induction tr as [|s1 tr IH]; intros st i j s s' Hch Hij Hi Hj.
  - destruct i, j; try done. injection Hi as <-. injection Hj as <-. apply Hrefl.
  - destruct i as [|i].
    + injection Hi as <-. by eapply Hfirst.
    + destruct j as [|j]; [lia|]. destruct Hch as [_ Hch].
      eapply (IH s1 i j); [done|lia|done..].
Qed.

Lemma grows_refl s : grows s s.
Proof. by repeat split. Qed.

Lemma grows_trans s1 s2 s3 : grows s1 s2 → grows s2 s3 → grows s1 s3.
Proof.
  intros (H1 & H2 & H3 & H4 & H5) (G1 & G2 & G3 & G4 & G5).
  repeat split; [by etrans|set_solver|set_solver|by etrans|lia].
Qed.

Section RunMore.
Variable fetch_feed : string → list RawEntry.
Variable soup_find_img : string → option (option string).
Variable time_time : nat → Z.

Local Abbreviation process_entry := (process_entry soup_find_img time_time).
Local Abbreviation entries_loop := (entries_loop soup_find_img time_time).
Local Abbreviation feeds_loop := (feeds_loop fetch_feed soup_find_img time_time).
Local Abbreviation final_state := (final_state fetch_feed soup_find_img time_time).
Local Abbreviation run := (run fetch_feed soup_find_img time_time).
Local Abbreviation curate := (curate fetch_feed soup_find_img time_time).

(** *** Properties kept by every step *)

Lemma entries_loop_Forall (P : State → Prop) :
  (∀ st e, P st → P (process_entry st e).2) →
  ∀ entries st, P st → Forall P (entries_loop st entries).
Proof.
  intros Hstep. induction entries as [|e es IH]; intros st HP;
    cbn [entries_loop]; [done|].
  specialize (Hstep st e HP). destruct (process_entry st e) as [o st'].
  cbn [snd] in Hstep. constructor; [done|].
  destruct o; try by apply IH.
  destruct (MAX_DEALS <=? length (deals st')); [done|by apply IH].
Qed.

Lemma feeds_loop_Forall (P : State → Prop) :
  (∀ st e, P st → P (process_entry st e).2) →
  (∀ st u, P st → P (record_fetch st u)) →
  ∀ feeds st, P st → Forall P (feeds_loop st feeds).
Proof.
  intros Hstep Hfetch. induction feeds as [|u feeds IH]; intros st HP;
    cbn [feeds_loop]; [done|].
  destruct (MAX_DEALS <=? length (deals st)); [done|].
  pose proof (entries_loop_Forall P Hstep (fetch_feed u) _ (Hfetch st u HP)) as Htr.
  constructor; [by apply Hfetch|]. apply Forall_app. split; [done|].
  apply IH. apply end_state_Forall; [by apply Hfetch|done].
Qed.

Lemma run_Forall (P : State → Prop) feeds :
  (∀ st e, P st → P (process_entry st e).2) →
  (∀ st u, P st → P (record_fetch st u)) →
  P initial → Forall P (run feeds).
Proof.
  intros Hstep Hfetch H0. constructor; [done|]. by apply feeds_loop_Forall.
Qed.

Lemma final_state_Forall (P : State → Prop) feeds :
  (∀ st e, P st → P (process_entry st e).2) →
  (∀ st u, P st → P (record_fetch st u)) →
  P initial → P (final_state feeds).
Proof.
  intros Hstep Hfetch H0. unfold final_state. apply end_state_Forall; [done|].
  by apply feeds_loop_Forall.
Qed.

(** *** Relations kept by every step *)

Lemma entries_loop_chain (R : State → State → Prop) :
  (∀ st e, R st (process_entry st e).2) →
  ∀ entries st, chain R st (entries_loop st entries).
Proof.
  intros Hstep. induction entries as [|e es IH]; intros st;
    cbn [entries_loop]; [done|].
  specialize (Hstep st e). destruct (process_entry st e) as [o st'].
  cbn [snd] in Hstep. split; [done|].
  destruct o; try by apply IH.
  destruct (MAX_DEALS <=? length (deals st')); [done|by apply IH].
Qed.

Lemma feeds_loop_chain (R : State → State → Prop) :
  (∀ st e, R st (process_entry st e).2) →
  (∀ st u, R st (record_fetch st u)) →
  ∀ feeds st, chain R st (feeds_loop st feeds).
Proof.
  intros Hstep Hfetch. induction feeds as [|u feeds IH]; intros st;
    cbn [feeds_loop]; [done|].
  destruct (MAX_DEALS <=? length (deals st)); [done|].
  split; [apply Hfetch|]. apply chain_app. split; [|apply IH].
  by apply entries_loop_chain.
Qed.

Lemma process_entry_grows st e : grows st (process_entry st e).2.
Proof.
  pose proof (process_entry_spec soup_find_img time_time st e) as Hs.
  destruct Hs as [o st' _ Hd Ha Ht _ Hf Hc|d st' Hd _ _ _ _ _ Ha Ht _ _ Hf Hc];
    unfold grows.
  - rewrite Hd, Ha, Ht, Hf, Hc. by repeat split.
  - rewrite Hd, Ha, Ht, Hf, Hc.
    repeat split; [by apply prefix_app_r|apply union_subseteq_r..|done|lia].
Qed.

Lemma record_fetch_grows st u : grows st (record_fetch st u).
Proof. repeat split; try done. cbn. by apply prefix_app_r. Qed.

(** *** The category counts *)

Lemma process_entry_counts_positive st e :
  counts_positive st → counts_positive (process_entry st e).2.
Proof.
  intros Hpos. unfold process_entry.
  destruct (extract_amazon_url _ _) as [amazon_url|]; [|done].
  destruct (Str.nonempty amazon_url); cbn [negb]; [|done].
  destruct (extract_asin amazon_url) as [asin|]; [|done].
  destruct (Str.nonempty asin) eqn:Hasin; cbn [negb]; [|done].
  case_bool_decide; [done|].
  destruct (existsb _ _); [done|].
  set (category := categorize _).
  unfold dd_read. destruct (category_counts st !! category) as [v|] eqn:E.
  - destruct (max_per_category <=? v)%Z; [done|].
    destruct (py_or _ _) as [image|]; [|done].
    destruct (Str.nonempty image); cbn [negb snd]; [|done].
    intros c w. cbn [category_counts]. rewrite lookup_insert. case_decide.
    + intros [= <-]. specialize (Hpos _ _ E). lia.
    + apply Hpos.
  - destruct (Z.leb_spec max_per_category 0); [unfold max_per_category in *; lia|].
    destruct (py_or_image (extract_image_from_summary soup_find_img
                (get (entry_summary e))) asin Hasin) as (image & -> & ->).
    cbn [negb snd]. intros c w. cbn [category_counts].
    rewrite lookup_insert. case_decide.
    + intros [= <-]. lia.
    + rewrite lookup_insert_ne by done. apply Hpos.
Qed.

Lemma final_counts_positive feeds : counts_positive (final_state feeds).
Proof.
  apply final_state_Forall.
  - apply process_entry_counts_positive.
  - done.
  - intros c v. cbn. by rewrite lookup_empty.
Qed.

(** *** The gates of the loop body *)


(** *** The feeds in order *)

Lemma process_entry_fetched st e : fetched (process_entry st e).2 = fetched st.
Proof.
  eapply step_spec_fetched. apply process_entry_spec.
Qed.

Lemma entries_loop_fetched entries st :
  Forall (λ s, fetched s = fetched st) (entries_loop st entries).
Proof.
  apply entries_loop_Forall; [|done].
  intros s e <-. apply process_entry_fetched.
Qed.

Lemma feeds_loop_in_order feeds : ∀ st,
  Forall (λ s, ∃ read, fetched s = fetched st ++ read ∧ read `prefix_of` feeds)
    (feeds_loop st feeds)
  ∧ (¬ full (end_state st (feeds_loop st feeds)) →
     fetched (end_state st (feeds_loop st feeds)) = fetched st ++ feeds).
Proof.
  induction feeds as [|u feeds IH]; intros st; cbn [feeds_loop].
  - split; [done|]. intros _. cbn. by rewrite app_nil_r.
  - destruct (Nat.leb_spec MAX_DEALS (length (deals st))) as [Hge|Hlt].
    + split; [done|]. intros Hnf. by destruct Hnf.
    + set (st1 := record_fetch st u).
      pose proof (entries_loop_fetched (fetch_feed u) st1) as Htr.
      set (tr := entries_loop st1 (fetch_feed u)) in *.
      assert (Hend : fetched (end_state st1 tr) = fetched st ++ [u]).
      { by apply (end_state_Forall (λ s, fetched s = fetched st ++ [u])). }
      destruct (IH (end_state st1 tr)) as [IH1 IH2]. rewrite Hend in IH1, IH2.
      split.
      * constructor; [exists [u]; split; [done|by apply prefix_cons, prefix_nil]|].
        apply Forall_app. split.
        -- eapply Forall_impl; [exact Htr|]. intros s ->. exists [u].
           split; [done|by apply prefix_cons, prefix_nil].
        -- eapply Forall_impl; [exact IH1|]. intros s (read & -> & Hpre).
           exists (u :: read). split; [by rewrite <- app_assoc|by apply prefix_cons].
      * rewrite end_state_cons, end_state_app. intros Hnf.
        rewrite (IH2 Hnf). by rewrite <- app_assoc.
Qed.

End RunMore.

(** ** The score, the fallback image and the cost of fetching *)

Section ScoreFacts.

Lemma calculate_deal_score_range title price discount :
  (0 ≤ calculate_deal_score title price discount ≤ 7)%Z.
Proof.
  unfold calculate_deal_score.
  destruct (Str.nonempty price);
    [destruct (Float.of_string _) as [v|];
       [destruct (Float.le v 10), (Float.le v 25), (Float.le v 50)|]|];
    destruct (Z.leb_spec 50 discount), (Z.leb_spec 30 discount),
             (Z.leb_spec 20 discount), (any_in _ _); lia.
Qed.

Lemma calculate_deal_score_mono title price d1 d2 :
  (d1 ≤ d2)%Z →
  (calculate_deal_score title price d1 ≤ calculate_deal_score title price d2)%Z.
Proof.
  intros Hd. unfold calculate_deal_score.
  destruct (Str.nonempty price);
    [destruct (Float.of_string _) as [v|];
       [destruct (Float.le v 10), (Float.le v 25), (Float.le v 50)|]|];
    destruct (Z.leb_spec 50 d1), (Z.leb_spec 30 d1), (Z.leb_spec 20 d1),
             (Z.leb_spec 50 d2), (Z.leb_spec 30 d2), (Z.leb_spec 20 d2),
             (any_in _ _); lia.
Qed.

Lemma categorize_label title : categorize title ∈ CATEGORY_LABELS.
Proof.
  unfold categorize, CATEGORY_LABELS. cbn [TAXONOMY map fst app].
  repeat match goal with
         | |- context [any_in ?ws ?t] =>
             destruct (any_in ws t); [by repeat constructor|]
         end.
  by repeat constructor.
Qed.

End ScoreFacts.

Section ImageFacts.
Import UrlFacts ReFacts.

Lemma search_asin_skip c s p :
  asin_char c = false →
  search_from false ASIN_REGEX p (String c s)
  = search_from false ASIN_REGEX (S p) s.
Proof.
  intros Hc. cbn [search_from]. unfold match_at at 1, ASIN_REGEX at 1.
  cbn [mtch Times]. unfold one at 1. cbn [rest]. unfold asin_char in Hc.
  by rewrite Hc.
Qed.

Lemma search_asin_skip2 c1 c2 s p :
  asin_char c2 = false →
  search_from false ASIN_REGEX p (String c1 (String c2 s))
  = search_from false ASIN_REGEX (S (S p)) s.
Proof.
  intros Hc. rewrite <- (search_asin_skip c2 s (S p) Hc).
  cbn [search_from]. unfold match_at at 1, ASIN_REGEX at 1.
  cbn [mtch Times]. unfold one at 1 2. cbn [rest advance]. unfold asin_char in Hc.
  rewrite Hc. by destruct (Str.is_upper c1 || Str.is_digit c1).
Qed.

Lemma extract_asin_image a :
  is_asin a = true →
  extract_asin ("https://m.media-amazon.com/images/I/" +:+ a +:+ "._AC_SL1500_.jpg")
  = Some a.
Proof.
  intros Ha. unfold extract_asin, search. rewrite !app_cons, app_nil_l.
  do 34 (rewrite search_asin_skip by reflexivity).
  rewrite search_asin_skip2 by reflexivity.
  destruct a as [|c a]; [done|]. rewrite app_cons. cbn [search_from].
  rewrite <- app_cons. by rewrite match_at_asin.
Qed.

End ImageFacts.

Section FetchFacts.
Variable respond : string → nat → option (list RawEntry).

Lemma fetch_feed_cases url :
  match respond url 0, respond url 1 with
  | Some entries, _ =>
      Net.fetch_feed respond url = ([Net.Sleep 0.5; Net.Get url], entries)
  | None, Some entries =>
      Net.fetch_feed respond url
      = ([Net.Sleep 0.5; Net.Get url; Net.Sleep 1;
          Net.Sleep 0.5; Net.Get url], entries)
  | None, None =>
      Net.fetch_feed respond url
      = ([Net.Sleep 0.5; Net.Get url; Net.Sleep 1;
          Net.Sleep 0.5; Net.Get url; Net.Sleep 2], [])
  end.
Proof.
  unfold Net.fetch_feed. cbn [seq Net.REQUEST_RETRIES Net.attempts_loop].
  destruct (respond url 0); [done|]. by destruct (respond url 1).
Qed.

Lemma fetch_feed_cost url :
  (slept (Net.fetch_feed respond url).1 <= 4)%Q
  ∧ requests (Net.fetch_feed respond url).1 ≤ 2.
Proof.
  pose proof (fetch_feed_cases url) as H.
  destruct (respond url 0); [|destruct (respond url 1)]; rewrite H;
    (split; [by vm_compute|cbn; lia]).
Qed.

Lemma slept_app l1 l2 : (slept (l1 ++ l2) == slept l1 + slept l2)%Q.
Proof.
  induction l1 as [|[s|u] l1 IH].
  - cbn [app slept foldr]. symmetry. apply Qplus_0_l.
  - cbn [app slept foldr]. fold (slept (l1 ++ l2)). fold (slept l1).
    rewrite IH. apply Qplus_assoc.
  - exact IH.
Qed.

Lemma requests_app l1 l2 : requests (l1 ++ l2) = requests l1 + requests l2.
Proof.
  induction l1 as [|[s|u] l1 IH]; [done|exact IH|].
  cbn [app requests foldr]. fold (requests (l1 ++ l2)). fold (requests l1). lia.
Qed.

Lemma fetch_effects_cost urls :
  (slept (fetch_effects respond urls) <= 4 * inject_Z (Z.of_nat (length urls)))%Q
  ∧ requests (fetch_effects respond urls) ≤ 2 * length urls.
Proof.
  induction urls as [|u urls [IH1 IH2]]; [done|].
  destruct (fetch_feed_cost u) as [H1 H2].
  unfold fetch_effects in *. cbn [flat_map length]. split.
  - rewrite slept_app, Nat2Z.inj_succ, <- Z.add_1_l, inject_Z_plus.
    rewrite Qmult_plus_distr_r.
    apply Qplus_le_compat; [exact H1|exact IH1].
  - rewrite requests_app. lia.
Qed.

End FetchFacts.

(** ** White space in a normalized title *)

Module SpaceFacts.
Import UrlFacts ReFacts FloatFacts.

Lemma star_greedy_run fuel : ∀ st,
  run_length (rest st) ≤ fuel →
  ∃ st', star_greedy fuel (one Str.is_space) st Some = Some st'
         ∧ pos st' = pos st + run_length (rest st).
Proof.
  induction fuel as [|fuel IH]; intros st Hfuel; cbn [star_greedy].
  - exists st. split; [done|]. lia.
  - unfold one at 1. destruct (rest st) as [|c s'] eqn:Hrest.
    + cbn [orelse run_length]. exists st. split; [done|]. lia.
    + cbn [run_length] in *. destruct (Str.is_space c).
      * cbn [advance pos].
        replace (pos st <? S (pos st)) with true by (symmetry; apply Nat.ltb_lt; lia).
        destruct (IH (advance st s')) as (st' & -> & Hpos); [cbn; lia|].
        cbn [orelse]. exists st'. split; [done|]. cbn in Hpos. lia.
      * cbn [orelse]. exists st. split; [done|]. lia.
Qed.

Lemma run_length_le s : run_length s ≤ String.length s.
Proof. induction s as [|c s IH]; cbn; [lia|]. destruct (Str.is_space c); lia. Qed.

Lemma match_at_spaces p c s :
  if Str.is_space c
  then ∃ st, match_at false SPACES p (String c s) = Some st
             ∧ pos st = S p + run_length s
  else match_at false SPACES p (String c s) = None.
Proof.
  unfold match_at, SPACES, Plus, space. cbn [mtch].
  destruct (Str.is_space c) eqn:E; unfold one at 1; cbn [rest]; rewrite E;
    [|done].
  cbn [advance pos rest].
  destruct (star_greedy_run (String.length s) {| pos := S p; rest := s; caps := [] |})
    as (st & Hst & Hpos); [apply run_length_le|].
  exists st. by split.
Qed.

(** [re.sub(r'\s+', ' ', s)] collapses the runs of white space. *)
Lemma sub_spaces s : ∀ p,
  sub_from false SPACES " " p (run_length s) s = collapse true s
  ∧ sub_from false SPACES " " p 0 s = collapse false s.
Proof.
  induction s as [|c s IH]; intros p; [done|].
  assert (H0 : sub_from false SPACES " " p 0 (String c s)
               = collapse false (String c s)).
  { cbn [sub_from collapse]. pose proof (match_at_spaces p c s) as Hm.
    destruct (Str.is_space c).
    - destruct Hm as (st & -> & Hpos).
      replace (p <? pos st) with true by (symmetry; apply Nat.ltb_lt; lia).
      replace (pos st - p - 1) with (run_length s) by lia.
      rewrite app_cons, app_nil_l. f_equal. apply IH.
    - rewrite Hm. f_equal. apply IH. }
  split; [|done]. cbn [run_length]. destruct (Str.is_space c) eqn:Hc.
  - cbn [sub_from collapse]. rewrite Hc. apply IH.
  - rewrite H0. cbn [collapse]. by rewrite Hc.
Qed.

(** *** The shape of a collapsed text *)

Lemma collapse_shape s :
  (starts_clean (collapse true s) = true
   ∧ spaces_single true (collapse true s) = true)
  ∧ spaces_single true (collapse false s) = true.
Proof.
  induction s as [|c s [[IH1 IH2] IH3]]; [done|]. cbn [collapse].
  destruct (Str.is_space c) eqn:Hc.
  - split; [done|]. cbn [spaces_single]. rewrite IH2.
    change (Str.is_space " ") with true. change (Ascii.eqb " " " ") with true.
    cbn [andb]. rewrite andb_true_r. exact IH1.
  - cbn [starts_clean spaces_single]. rewrite Hc, IH3. done.
Qed.

(** *** Stripping *)

Lemma rev_onto_app s : ∀ acc, Str.rev_onto s acc = Str.rev s +:+ acc.
Proof.
  unfold Str.rev. induction s as [|c s IH]; intros acc; [done|].
  cbn [Str.rev_onto]. rewrite IH, (IH (String c "")).
  by rewrite string_app_assoc, app_cons, app_nil_l.
Qed.

Lemma str_rev_app s1 s2 : Str.rev (s1 +:+ s2) = Str.rev s2 +:+ Str.rev s1.
Proof.
  induction s1 as [|c s1 IH].
  - by rewrite app_nil_l, string_app_nil_r.
  - rewrite app_cons. unfold Str.rev at 1 3. cbn [Str.rev_onto].
    rewrite !rev_onto_app, IH. by rewrite string_app_assoc.
Qed.

Lemma str_rev_cons c s : Str.rev (String c s) = Str.rev s +:+ String c "".
Proof. unfold Str.rev at 1. cbn [Str.rev_onto]. apply rev_onto_app. Qed.

Lemma lstrip_split s :
  ∃ l, s = l +:+ Str.lstrip s ∧ Urllib.all_chars Str.is_space l = true
       ∧ starts_clean (Str.lstrip s) = true.
Proof.
  induction s as [|c s (l & Hs & Hl & Hc)]; [by exists ""|].
  cbn [Str.lstrip]. destruct (Str.is_space c) eqn:E.
  - exists (String c l). rewrite app_cons, <- Hs. cbn. by rewrite E, Hl.
  - exists "". cbn. by rewrite E.
Qed.

Lemma ends_clean_snoc s c :
  Str.is_space c = false → ends_clean (s +:+ String c "") = true.
Proof.
  intros Hc. induction s as [|a s IH];
    [rewrite app_nil_l; cbn [ends_clean]; by rewrite Hc|].
  rewrite app_cons. destruct (s +:+ String c "") as [|b t] eqn:E;
    [by destruct s|].
  exact IH.
Qed.

Lemma starts_clean_app s1 s2 :
  Str.nonempty s1 = true → starts_clean (s1 +:+ s2) = starts_clean s1.
Proof. by destruct s1. Qed.

(** [s.strip()] is [s] without the white space on its two sides. *)
Lemma strip_split s :
  ∃ l r, s = l +:+ Str.strip s +:+ r
    ∧ Urllib.all_chars Str.is_space l = true
    ∧ Urllib.all_chars Str.is_space r = true
    ∧ starts_clean (Str.strip s) = true ∧ ends_clean (Str.strip s) = true.
Proof.
  unfold Str.strip.
  destruct (lstrip_split s) as (l & Hs & Hl & Hm).
  destruct (lstrip_split (Str.rev (Str.lstrip s))) as (r' & Hrev & Hr & Hk).
  set (m := Str.lstrip s) in *. set (k := Str.lstrip (Str.rev m)) in *.
  assert (Hmk : m = Str.rev k +:+ Str.rev r').
  { rewrite <- str_rev_app, <- Hrev. by rewrite str_rev_involutive. }
  exists l, (Str.rev r'). split; [by rewrite <- Hmk|]. split; [done|].
  split; [unfold Str.rev; by rewrite rev_onto_all, Hr|].
  destruct k as [|c k']; [done|]. cbn [starts_clean] in Hk.
  apply negb_true_iff in Hk. rewrite str_rev_cons. split.
  - rewrite Hmk, str_rev_cons in Hm.
    rewrite starts_clean_app in Hm; [done|].
    by destruct (Str.rev k').
  - by apply ends_clean_snoc.
Qed.

Lemma spaces_single_suffix at_end l s :
  spaces_single at_end (l +:+ s) = true → spaces_single at_end s = true.
Proof.
  induction l as [|c l IH]; [done|]. rewrite app_cons. cbn [spaces_single].
  intros [_ H]%andb_true_iff. by apply IH.
Qed.

Lemma spaces_single_prefix s r :
  spaces_single true (s +:+ r) = true → ends_clean s = true →
  spaces_single false s = true.
Proof.
  induction s as [|c s IH]; [done|]. rewrite app_cons. cbn [spaces_single].
  intros [Hc Hs]%andb_true_iff Hend.
  assert (Hend' : ends_clean s = true) by (by destruct s).
  rewrite (IH Hs Hend'), andb_true_r.
  destruct (Str.is_space c) eqn:E; [|done].
  apply andb_true_iff in Hc as [-> Hnext]. cbn [andb].
  destruct s as [|c' s']; [cbn in Hend; by rewrite E in Hend|].
  by rewrite app_cons in Hnext.
Qed.

Lemma strip_single_spaced s :
  spaces_single true s = true → single_spaced (Str.strip s) = true.
Proof.
  intros Hs. destruct (strip_split s) as (l & r & Heq & _ & _ & H1 & H2).
  unfold single_spaced. rewrite H1, H2. cbn [andb].
  rewrite Heq in Hs. apply spaces_single_suffix in Hs.
  by apply (spaces_single_prefix _ r).
Qed.

Lemma clean_title_single_spaced title : single_spaced (clean_title title) = true.
Proof.
  unfold clean_title. cbn zeta.
  match goal with
  | |- context [sub false SPACES " " ?x] =>
      change (sub false SPACES " " x) with (sub_from false SPACES " " 0 0 x);
      destruct (sub_spaces x 0) as [_ ->]
  end.
  apply strip_single_spaced, collapse_shape.
Qed.

End SpaceFacts.

(** ** Links, discounts and similar titles in the loop body *)

Module LinkFacts.
Import UrlFacts ReFacts.

Lemma star_greedy_total fuel body st k :
  (∀ st', ∃ res, k st' = Some res) →
  ∃ res, star_greedy fuel body st k = Some res.
Proof.
  intros Hk. destruct fuel as [|fuel]; cbn [star_greedy]; [apply Hk|].
  destruct (body st _); cbn [orelse]; [by eexists|apply Hk].
Qed.

Lemma match_at_link p c post :
  link_char c = true →
  ∃ st, match_at false AMAZON_LINK_REGEX p
          ("https://www.amazon.com/" +:+ String c post) = Some st.
Proof.
  intros Hc. unfold match_at, AMAZON_LINK_REGEX, Plus. cbn [mtch Word].
  rewrite !app_cons, app_nil_l. unfold one. cbn [rest advance pos caps].
  unfold link_char in Hc. rewrite Hc.
  apply star_greedy_total. intros st'. by eexists.
Qed.

Lemma extract_amazon_url_None summary fallback :
  extract_amazon_url summary fallback = None →
  Str.contains "amazon.com" fallback = false
  ∧ ∀ pre c post, link_char c = true →
      summary ≠ pre +:+ "https://www.amazon.com/" +:+ String c post.
Proof.
  unfold extract_amazon_url. destruct (Str.contains _ fallback); [done|].
  unfold search. destruct (search_from _ _ _ _) as [st|] eqn:E.
  - apply search_from_inv in E as (pre & post & -> & Hm & _).
    apply match_at_link_inv in Hm as (tail & post' & -> & Hne & Htail & Hcaps).
    by rewrite (group1_caps _ _ Hcaps).
  - intros _. split; [done|]. intros pre c post Hc Heq.
    pose proof (search_from_none _ _ _ _ E pre _ Heq) as Hm.
    destruct (match_at_link (0 + String.length pre) c post Hc) as [st Hst].
    congruence.
Qed.

(** A numeral ends with a digit. *)
Lemma is_numeral_last ds :
  is_numeral ds = true →
  ∃ ds' d, ds = ds' +:+ String d "" ∧ Str.is_digit d = true.
Proof.
  unfold is_numeral. intros [Hne Hds]%andb_true_iff.
  induction ds as [|c ds IH]; [done|].
  cbn [Urllib.all_chars] in Hds. apply andb_true_iff in Hds as [Hc Hds].
  destruct ds as [|c' ds'].
  - by exists "", c.
  - destruct (IH eq_refl Hds) as (ds0 & d & -> & Hd).
    exists (String c ds0), d. by rewrite app_cons.
Qed.

Lemma extract_discount_default title :
  (∀ pre d post, Str.is_digit d = true →
     title ≠ pre +:+ String d (String "%" post)) →
  extract_discount_from_title title = 0%Z.
Proof.
  intros Hno.
  destruct (extract_discount_cases title) as [|(pre & ds & [post Heq] & Hds & _)];
    [done|].
  apply is_numeral_last in Hds as (ds' & d & -> & Hd).
  destruct (Hno (pre +:+ ds') d post Hd).
  rewrite Heq. by rewrite !string_app_assoc, !app_cons, !app_nil_l.
Qed.

Lemma extract_discount_nonneg title : (0 ≤ extract_discount_from_title title)%Z.
Proof.
  destruct (extract_discount_cases title) as [->|(pre & ds & _ & Hds & ->)];
    [done|].
  apply FloatFacts.int_of_digits_nonneg.
  unfold is_numeral in Hds. by apply andb_true_iff in Hds as [_ ?].
Qed.

End LinkFacts.

Section TitleFacts.
Variable soup_find_img : string → option (option string).
Variable time_time : nat → Z.

Local Abbreviation process_entry := (process_entry soup_find_img time_time).

(** Titles that differ in the case of their letters only are duplicates. *)
Lemma is_duplicate_title_lower t1 t2 :
  Str.lower t1 = Str.lower t2 → is_duplicate_title t1 t2 = true.
Proof.
  intros Heq. unfold is_duplicate_title. rewrite Heq.
  apply ratio_threshold. rewrite DifflibSelf.matches_self. lia.
Qed.

Lemma is_duplicate_title_lengths t1 t2 :
  is_duplicate_title t1 t2 = true →
  17 * Nat.max (String.length t1) (String.length t2)
  ≤ 23 * Nat.min (String.length t1) (String.length t2).
Proof.
  unfold is_duplicate_title. intros H%ratio_threshold.
  destruct (DifflibSizes.matches_le (list_ascii_of_string (Str.lower t1))
              (list_ascii_of_string (Str.lower t2))) as [H1 H2].
  rewrite !list_ascii_length, !lower_length in *. lia.
Qed.

Lemma existsb_elements (f : string → bool) (X : gset string) t :
  t ∈ X → f t = true → existsb f (elements X) = true.
Proof.
  intros Hin Hf. apply existsb_exists. exists t. split; [|done].
  apply list_elem_of_In. by apply elem_of_elements.
Qed.

(** An entry that is not accepted before the category is read leaves the
    state as it was. *)
Lemma process_entry_similar st e t :
  t ∈ seen_titles st →
  is_duplicate_title (Str.strip (get (entry_title e))) t = true →
  (process_entry st e).1 ≠ Accepted ∧ (process_entry st e).2 = st.
Proof.
  intros Hin Hdup. unfold process_entry.
  destruct (extract_amazon_url _ _) as [amazon_url|]; [|done].
  destruct (Str.nonempty amazon_url); cbn [negb]; [|done].
  destruct (extract_asin amazon_url) as [asin|]; [|done].
  destruct (Str.nonempty asin); cbn [negb]; [|done].
  case_bool_decide; [done|].
  by rewrite (existsb_elements _ _ t Hin Hdup).
Qed.

Lemma process_entry_images st e :
  images_present st → images_present (process_entry st e).2.
Proof.
  pose proof (process_entry_spec soup_find_img time_time st e) as Hs.
  unfold images_present.
  destruct Hs as [o st' _ Hd _ _ _ _ _|d st' Hd _ _ Himg _ _ _ _ _ _ _ _];
    rewrite Hd; [done|].
  intros H. apply Forall_app. split; [done|]. by constructor.
Qed.

End TitleFacts.


Section FirstEntry.
Variable fetch_feed : string → list RawEntry.
Variable soup_find_img : string → option (option string).
Variable time_time : nat → Z.




End FirstEntry.

(** ** Prices, rejected entries, images and the query written twice *)

Module PriceFacts.
Import UrlFacts ReFacts LinkFacts.

Lemma match_at_price p d post :
  Str.is_digit d = true →
  ∃ st, match_at false PRICE_REGEX p (String "$" (String d post)) = Some st.
Proof.
  intros Hd. unfold match_at, PRICE_REGEX, Plus, Opt, digit. cbn [mtch].
  unfold one at 1 2. cbn [rest advance pos caps].
  change (same_char false "$" "$") with true. cbv iota. rewrite Hd.
  apply star_greedy_total. intros st'. cbn [orelse].
  destruct (one _ st' _); cbn [orelse]; by eexists.
Qed.

Lemma extract_price_None title :
  extract_price_from_title title = None →
  ∀ pre d post, Str.is_digit d = true →
    title ≠ pre +:+ String "$" (String d post).
Proof.
  unfold extract_price_from_title, search.
  destruct (search_from _ _ _ _) as [st|] eqn:E.
  - apply search_from_inv in E as (pre & post & -> & Hm & _).
    apply match_at_price_inv in Hm as (ds & frac & post' & -> & _ & _ & Hcaps).
    by rewrite (group1_caps _ _ Hcaps).
  - intros _ pre d post Hd Heq.
    pose proof (search_from_none _ _ _ _ E pre _ Heq) as Hm.
    destruct (match_at_price (0 + String.length pre) d post Hd) as [st Hst].
    congruence.
Qed.

End PriceFacts.

Section BodyMore.
Variable soup_find_img : string → option (option string).
Variable time_time : nat → Z.

Local Abbreviation process_entry := (process_entry soup_find_img time_time).

(** An entry that is not accepted leaves the state as it was, the counts
    of the categories included. *)
Lemma process_entry_rejected st e :
  (process_entry st e).1 ≠ Accepted → (process_entry st e).2 = st.
Proof.
  unfold process_entry.
  destruct (extract_amazon_url _ _) as [amazon_url|]; [|done].
  destruct (Str.nonempty amazon_url); cbn [negb]; [|done].
  destruct (extract_asin amazon_url) as [asin|]; [|done].
  destruct (Str.nonempty asin) eqn:Hasin; cbn [negb]; [|done].
  case_bool_decide; [done|].
  destruct (existsb _ _); [done|].
  destruct (py_or_image (extract_image_from_summary soup_find_img
              (get (entry_summary e))) asin Hasin) as (image & Himage & Hne).
  unfold dd_read.
  destruct (category_counts st !! _) as [v|] eqn:E.
  - destruct (max_per_category <=? v)%Z; [intros _; by destruct st|].
    rewrite Himage, Hne. by cbn.
  - destruct (Z.leb_spec max_per_category 0); [unfold max_per_category in *; lia|].
    rewrite Himage, Hne. by cbn.
Qed.

Lemma py_or_default x asin :
  Str.nonempty asin = true →
  (∀ src, x = Some src → Str.nonempty src = true) →
  py_or x (amazon_image_from_asin (Some asin)) = Some (default (fallback_image asin) x).
Proof.
  intros Hasin Hx. unfold py_or, amazon_image_from_asin. rewrite Hasin.
  destruct x as [src|]; [|done]. cbn. by rewrite (Hx src eq_refl).
Qed.

Lemma extract_image_nonempty summary src :
  extract_image_from_summary soup_find_img summary = Some src →
  Str.nonempty src = true.
Proof.
  unfold extract_image_from_summary.
  destruct (soup_find_img summary) as [[s|]|]; [|done..].
  destruct (Str.nonempty s) eqn:E; [|done]. by intros [= <-].
Qed.

Lemma process_entry_image_chosen st e :
  images_chosen soup_find_img st →
  images_chosen soup_find_img (process_entry st e).2.
Proof.
  intros Hst.
  destruct (decide ((process_entry st e).1 = Accepted)) as [Hacc|Hrej];
    [|by rewrite process_entry_rejected].
  revert Hacc. unfold process_entry.
  destruct (extract_amazon_url _ _) as [amazon_url|] eqn:Hurl; [|done].
  destruct (Str.nonempty amazon_url); cbn [negb]; [|done].
  destruct (extract_asin amazon_url) as [asin|] eqn:Hasin; [|done].
  destruct (Str.nonempty asin) eqn:Hne; cbn [negb]; [|done].
  case_bool_decide; [done|].
  destruct (existsb _ _); [done|].
  destruct (dd_read _ _) as [count counts].
  destruct (max_per_category <=? count)%Z; [done|].
  rewrite (py_or_default _ asin Hne (extract_image_nonempty _)).
  destruct (Str.nonempty (default _ _)); cbn [negb]; [|done].
  intros _ d. cbn [snd deals].
  intros [Hd| ->%list_elem_of_singleton]%elem_of_app; [by apply Hst|].
  exists e. split; [|done]. exists amazon_url. by rewrite Hurl, Hasin.
Qed.

End BodyMore.

Module QueryFacts.
Import Urllib UrlFacts.

Lemma dict_get_app k d1 d2 :
  k ∉ map fst d1 → dict_get k (d1 ++ d2) = dict_get k d2.
Proof.
  induction d1 as [|[k0 v0] d1 IH]; [done|]. cbn [map fst app dict_get].
  intros [Hne Hd]%not_elem_of_cons. rewrite string_eqb_decide.
  case_bool_decide; [congruence|by apply IH].
Qed.

Lemma dict_set_app k v d1 d2 :
  k ∉ map fst d1 → dict_set k v (d1 ++ d2) = d1 ++ dict_set k v d2.
Proof.
  induction d1 as [|[k0 v0] d1 IH]; [done|]. cbn [map fst app dict_set].
  intros [Hne Hd]%not_elem_of_cons. rewrite string_eqb_decide.
  case_bool_decide; [congruence|]. by rewrite IH.
Qed.

Lemma dict_set_head k v v0 d : dict_set k v ((k, v0) :: d) = (k, v) :: d.
Proof. cbn [dict_set]. by rewrite String.eqb_refl. Qed.

Lemma dict_get_head k v0 d : dict_get k ((k, v0) :: d) = Some v0.
Proof. cbn [dict_get]. by rewrite String.eqb_refl. Qed.

(** The values of one key, appended one by one. *)
Lemma fold_append_key k l : ∀ l0 acc,
  k ∉ map fst acc →
  fold_left (λ d '(name, value), dict_append name value d)
    (map (λ elt, (k, elt)) l) (acc ++ [(k, VList l0)])
  = acc ++ [(k, VList (l0 ++ l))].
Proof.
  induction l as [|v l IH]; intros l0 acc Hk; cbn [map fold_left].
  - by rewrite app_nil_r.
  - unfold dict_append at 2. rewrite dict_get_app, dict_get_head by done.
    rewrite dict_set_app, dict_set_head by done.
    rewrite IH by done. by rewrite <- app_assoc.
Qed.

Lemma fold_append_item kv acc :
  kv.1 ∉ map fst acc → written kv →
  fold_left (λ d '(name, value), dict_append name value d) (item_pairs kv) acc
  = acc ++ [as_list kv].
Proof.
  destruct kv as [k [l|s]]; cbn [fst item_pairs as_list]; intros Hk Hw.
  - destruct l as [|v l]; [done|]. cbn [map fold_left].
    unfold dict_append at 2. rewrite (dict_get_None k acc Hk).
    replace (dict_set k (VList [v]) acc) with (acc ++ [(k, VList [v])]).
    + by rewrite fold_append_key.
    + rewrite <- (app_nil_r acc) at 2. by rewrite dict_set_app.
  - cbn [fold_left]. unfold dict_append. rewrite (dict_get_None k acc Hk).
    rewrite <- (app_nil_r acc) at 1. by rewrite dict_set_app.
Qed.

(** Parsing what [urlencode] wrote groups the pairs as they were. *)
Lemma fold_append_items d : ∀ acc,
  NoDup (map fst (acc ++ d)) → Forall written d →
  fold_left (λ d '(name, value), dict_append name value d)
    (flat_map item_pairs d) acc
  = acc ++ map as_list d.
Proof.
  induction d as [|kv d IH]; intros acc Hnd Hw; cbn [flat_map map fold_left].
  - by rewrite app_nil_r.
  - inversion_clear Hw as [|? ? Hkv Hd].
    rewrite fold_left_app.
    assert (Hk : kv.1 ∉ map fst acc).
    { rewrite map_app in Hnd. apply NoDup_app in Hnd as (_ & Hdis & _).
      intros Hin. apply (Hdis _ Hin). cbn. left. }
    rewrite fold_append_item by done.
    rewrite IH; [by rewrite <- app_assoc| |done].
    rewrite <- app_assoc. cbn [app].
    replace (map fst (acc ++ as_list kv :: d)) with (map fst (acc ++ kv :: d));
      [done|].
    rewrite !map_app. cbn [map]. by destruct kv as [k [l|s]].
Qed.

Lemma dict_set_Forall (P : string * qvalue → Prop) k v d :
  (∀ k', P (k', v)) → Forall P d → Forall P (dict_set k v d).
Proof.
  intros Hv. induction d as [|[k0 v0] d IH]; intros Hd; cbn [dict_set].
  - by constructor.
  - inversion_clear Hd. destruct (String.eqb k0 k); constructor; auto.
Qed.

Lemma dict_append_listed name value d :
  Forall listed d → Forall listed (dict_append name value d).
Proof.
  intros Hd. unfold dict_append.
  destruct (dict_get name d) as [[l|s]|];
    apply dict_set_Forall; try done; intros k'.
  - destruct l as [|v l]; by eexists _, _.
  - by exists value, [].
  - by exists value, [].
Qed.

Lemma parse_qs_listed qs : Forall listed (parse_qs qs).
Proof.
  unfold parse_qs. generalize (parse_qsl qs). intros pairs.
  assert (H : Forall listed []) by constructor. revert H.
  generalize (@nil (string * qvalue)).
  induction pairs as [|[name value] pairs IH]; intros d Hd; [done|].
  cbn [fold_left]. apply IH. by apply dict_append_listed.
Qed.

Lemma as_list_listed d : Forall listed d → map as_list d = d.
Proof.
  induction 1 as [|[k v] d (v0 & l & Hv) _ IH]; [done|].
  cbn in Hv. subst v. cbn [map as_list]. by rewrite IH.
Qed.

(** Setting the tag in a dictionary of lists, reading the result back as
    lists and setting the tag again gives the same dictionary. *)
Lemma dict_set_as_list k s d :
  Forall listed d →
  dict_set k (VStr s) (map as_list (dict_set k (VStr s) d))
  = dict_set k (VStr s) d.
Proof.
  induction 1 as [|[k0 v0] d (v & l & Hv) Hd IH].
  - cbn. by rewrite String.eqb_refl.
  - cbn in Hv. subst v0. cbn [dict_set].
    destruct (String.eqb k0 k) eqn:E.
    + cbn [map as_list dict_set]. rewrite E. by rewrite as_list_listed.
    + cbn [map as_list dict_set]. rewrite E. by rewrite IH.
Qed.

Lemma written_tagged qs :
  Forall written (dict_set "tag" (VStr AFFILIATE_TAG) (parse_qs qs)).
Proof.
  apply dict_set_Forall; [done|].
  eapply Forall_impl; [apply parse_qs_listed|].
  intros [k v] (v0 & l & Hv). cbn in Hv. subst v. done.
Qed.

(** The query [add_affiliate_tag] writes is a fixed point of its rewriting. *)
Lemma retag_query qs :
  let q := dict_set "tag" (VStr AFFILIATE_TAG) (parse_qs qs) in
  dict_set "tag" (VStr AFFILIATE_TAG) (parse_qs (urlencode q)) = q.
Proof.
  cbn zeta. unfold parse_qs at 1. rewrite tagged_roundtrip.
  rewrite (fold_append_items _ []).
  - cbn [app]. apply dict_set_as_list, parse_qs_listed.
  - cbn [app]. apply dict_set_NoDup. apply parse_qs_values.
  - apply written_tagged.
Qed.

Lemma out_query_retag url : out_query (add_affiliate_tag url) = out_query url.
Proof.
  unfold out_query at 1. rewrite add_affiliate_tag_query.
  unfold out_query. by rewrite retag_query.
Qed.

End QueryFacts.

(** ** Parts of an ASCII text *)

Lemma ascii_text_occurs (pre w s : string) :
  occurs_at pre w s → ascii_text s = true → ascii_text w = true.
Proof.
  intros [post ->]. unfold ascii_text.
  rewrite !UrlFacts.all_chars_app, !andb_true_iff. tauto.
Qed.

(** ** ASCII titles along a run *)

Module AsciiFacts.
Import Urllib UrlFacts.

Section Chars.
Variable P : ascii → bool.






End Chars.



Section Run.
Variable fetch_feed : string → list RawEntry.
Variable soup_find_img : string → option (option string).
Variable time_time : nat → Z.

Local Abbreviation process_entry := (process_entry soup_find_img time_time).
Local Abbreviation entries_loop := (entries_loop soup_find_img time_time).
Local Abbreviation feeds_loop := (feeds_loop fetch_feed soup_find_img time_time).





End Run.

End AsciiFacts.

(** * Further properties of the helpers and of the run *)

(** X1 (the identifier found in a URL).  [extract_asin] returns the leftmost
    run of ten characters among A-Z and 0-9 that the URL holds; it returns
    nothing exactly when the URL holds no such run. *)
Theorem extract_asin_leftmost_run (url : string) :
  match extract_asin url with
  | Some a =>
      is_asin a = true
      ∧ ∃ pre, occurs_at pre a url
          ∧ ∀ pre' w, occurs_at pre' w url → is_asin w = true →
              String.length pre ≤ String.length pre'
  | None => ∀ pre w, occurs_at pre w url → is_asin w = false
  end.
Proof.
  destruct (extract_asin url) as [a|] eqn:E.
  - by apply ReFacts.extract_asin_Some.
  - by apply ReFacts.extract_asin_None.
Qed.

(** X2 (the fallback image names its product).  The image URL built from an
    identifier of ten characters among A-Z and 0-9 holds that identifier as
    its first such run: [extract_asin] reads it back. *)
Theorem identifier_read_back_from_image (a : string) :
  is_asin a = true →
  ∃ image, amazon_image_from_asin (Some a) = Some image
           ∧ extract_asin image = Some a.
Proof.
  intros Ha. unfold amazon_image_from_asin.
  rewrite (ReFacts.is_asin_nonempty a Ha). eexists. split; [reflexivity|].
  by apply extract_asin_image.
Qed.

Lemma identifier_read_back_from_image_witness :
  is_asin "B08XYZ1234" = true
  ∧ ∃ image, amazon_image_from_asin (Some "B08XYZ1234") = Some image
             ∧ extract_asin image = Some "B08XYZ1234".
Proof.
  split; [reflexivity|].
  apply (identifier_read_back_from_image "B08XYZ1234"). reflexivity.
Defined.

(** X3 (the price text always converts, the sentinel never).  The price
    that [main] stores and scores is the one [scrape_amazon_details] returns
    for the price found in the title.  Either no dollar sign of the title is
    followed by a digit, the stored text is the sentinel and its conversion
    to a number fails (the scorer ignores it); or the stored text is the
    price found in the title, a dollar sign, digits and at most a point with
    one or two digits, and its conversion gives a number that is not
    negative. *)
Theorem price_text_converts (title asin : string) :
  let found := extract_price_from_title title in
  let price := d_price (scrape_amazon_details asin found) in
  (found = None ∧ price = "$?"
   ∧ Float.of_string (Str.remove_char "$" price) = None
   ∧ ∀ pre d post, Str.is_digit d = true →
       title ≠ pre +:+ String "$" (String d post))
  ∨ (found = Some price
     ∧ (∃ ds frac, price = String "$" (ds +:+ frac)
          ∧ is_numeral ds = true ∧ is_cents frac = true)
     ∧ (∃ pre, occurs_at pre price title)
     ∧ ∃ q, Float.of_string (Str.remove_char "$" price) = Some (Float.Finite q)
            ∧ (0 <= q)%Q).
Proof.
  cbn zeta. unfold scrape_amazon_details. cbn [d_price].
  destruct (extract_price_from_title title) as [p|] eqn:E.
  - right.
    destruct (ReFacts.extract_price_Some title p E)
      as (ds & frac & -> & Hds & Hfrac & Hocc).
    cbn [or_default Str.nonempty]. split; [done|].
    split; [by exists ds, frac|]. split; [done|].
    by apply FloatFacts.of_string_price.
  - left. split; [done|]. split; [done|]. split; [by vm_compute|].
    by apply PriceFacts.extract_price_None.
Qed.

(** X4 (the discount read from a title).  For an ASCII title of at most
    4300 characters, on which [int] converts every numeral,
    [extract_discount_from_title] is never negative; when it is not zero it
    is the value of a run of digits that stands right before a percent sign
    in the title; and it is zero for a title in which no digit stands right
    before a percent sign. *)
Theorem discount_from_percent (title : string) :
  ascii_text title = true →
  String.length title ≤ INT_MAX_STR_DIGITS →
  (0 ≤ extract_discount_from_title title)%Z
  ∧ (extract_discount_from_title title ≠ 0%Z →
     ∃ pre ds, occurs_at pre (ds +:+ "%") title ∧ is_numeral ds = true
               ∧ String.length ds ≤ INT_MAX_STR_DIGITS
               ∧ extract_discount_from_title title = int_of_digits ds)
  ∧ ((∀ pre d post, Str.is_digit d = true →
        title ≠ pre +:+ String d (String "%" post)) →
     extract_discount_from_title title = 0%Z).
Proof.
  intros _ Hlen.
  split; [apply LinkFacts.extract_discount_nonneg|]. split.
  - intros Hnz. destruct (ReFacts.extract_discount_cases title) as [?|H]; [done|].
    destruct H as (pre & ds & Hocc & Hds & Heq).
    exists pre, ds. split; [done|]. split; [done|]. split; [|done].
    destruct Hocc as [post ->].
    rewrite !ReFacts.string_length_app in Hlen. lia.
  - apply LinkFacts.extract_discount_default.
Qed.

Lemma discount_from_percent_witness :
  ascii_text "Lamp (30% OFF)" = true
  ∧ String.length "Lamp (30% OFF)" ≤ INT_MAX_STR_DIGITS
  ∧ extract_discount_from_title "Lamp (30% OFF)" = 30%Z
  ∧ (0 ≤ extract_discount_from_title "Lamp (30% OFF)")%Z.
Proof.
  assert (H : String.length "Lamp (30% OFF)" ≤ INT_MAX_STR_DIGITS)
    by (apply Nat.leb_le; reflexivity).
  split; [reflexivity|]. split; [exact H|]. split; [reflexivity|].
  exact (proj1 (discount_from_percent "Lamp (30% OFF)" eq_refl H)).
Defined.

(** X5 (the product link of an entry).  For an ASCII summary, a link
    returned by [extract_amazon_url] is not empty and holds "amazon.com": it
    is the entry's own link when that holds "amazon.com", whatever the
    summary says, and otherwise an ASCII text of the summary made of
    "https://www.amazon.com/" and at least one character, none of them
    white space, a double quote or "<".  Nothing is returned exactly when
    the entry's link does not hold "amazon.com" and the summary holds no
    such text. *)
Theorem product_link_shape (summary fallback : string) :
  ascii_text summary = true →
  match extract_amazon_url summary fallback with
  | Some url =>
      Str.contains "amazon.com" url = true ∧ Str.nonempty url = true
      ∧ if Str.contains "amazon.com" fallback then url = fallback
        else ∃ pre tail,
               occurs_at pre url summary
               ∧ url = "https://www.amazon.com/" +:+ tail
               ∧ Str.nonempty tail = true
               ∧ Urllib.all_chars link_char tail = true
               ∧ ascii_text url = true
  | None =>
      Str.contains "amazon.com" fallback = false
      ∧ ∀ pre c post, link_char c = true →
          summary ≠ pre +:+ "https://www.amazon.com/" +:+ String c post
  end.
Proof.
  intros Hascii.
  destruct (extract_amazon_url summary fallback) as [url|] eqn:E.
  - destruct (ReFacts.extract_amazon_url_nonempty _ _ _ E) as [H1 H2].
    split; [done|]. split; [done|].
    destruct (ReFacts.extract_amazon_url_Some _ _ _ E) as [[-> ?]|[-> H]]; [done|].
    destruct H as (pre & tail & Hocc & Hurl & Hne & Htail).
    exists pre, tail. split; [done|]. split; [done|]. split; [done|].
    split; [done|]. by apply (ascii_text_occurs pre url summary).
  - by apply LinkFacts.extract_amazon_url_None.
Qed.

(** A summary with a product link that ends at a tag. *)
Lemma product_link_shape_witness :
  let summary := "Price drop: https://www.amazon.com/dp/B000000001<br>" in
  let fallback := "https://slickdeals.net/f/1" in
  ascii_text summary = true
  ∧ extract_amazon_url summary fallback
    = Some "https://www.amazon.com/dp/B000000001"
  ∧ match extract_amazon_url summary fallback with
    | Some url =>
        Str.contains "amazon.com" url = true ∧ Str.nonempty url = true
        ∧ if Str.contains "amazon.com" fallback then url = fallback
          else ∃ pre tail,
                 occurs_at pre url summary
                 ∧ url = "https://www.amazon.com/" +:+ tail
                 ∧ Str.nonempty tail = true
                 ∧ Urllib.all_chars link_char tail = true
                 ∧ ascii_text url = true
    | None =>
        Str.contains "amazon.com" fallback = false
        ∧ ∀ pre c post, link_char c = true →
            summary ≠ pre +:+ "https://www.amazon.com/" +:+ String c post
    end.
Proof.
  intros summary fallback.
  split; [reflexivity|]. split; [vm_compute; reflexivity|].
  exact (product_link_shape summary fallback eq_refl).
Defined.

(** X6 (the range of the score).  The score lies between 0 and 7, it does
    not decrease when the discount grows, and the sentinel price counts as
    no price at all. *)
Theorem score_range_and_monotone (title price : string) (d1 d2 : Z) :
  (0 ≤ calculate_deal_score title price d1 ≤ 7)%Z
  ∧ ((d1 ≤ d2)%Z →
     (calculate_deal_score title price d1
      ≤ calculate_deal_score title price d2)%Z)
  ∧ calculate_deal_score title "$?" d1 = calculate_deal_score title "" d1.
Proof.
  split; [apply calculate_deal_score_range|].
  split; [apply calculate_deal_score_mono|done].
Qed.

(** X7 (titles equal up to letter case are duplicates).  Two titles with
    the same lower-case form, two equal titles in particular, are duplicates
    for [is_duplicate_title]: their ratio is 1, also for the titles of 200
    characters and more, whose frequent characters the matcher leaves out of
    its index. *)
Theorem titles_equal_up_to_case_are_duplicates (title1 title2 : string) :
  Str.lower title1 = Str.lower title2 → is_duplicate_title title1 title2 = true.
Proof. apply is_duplicate_title_lower. Qed.

Lemma titles_equal_up_to_case_are_duplicates_witness :
  Str.lower "Echo Dot (4th Gen)" = Str.lower "ECHO DOT (4th gen)"
  ∧ is_duplicate_title "Echo Dot (4th Gen)" "ECHO DOT (4th gen)" = true.
Proof.
  split; [reflexivity|].
  apply (titles_equal_up_to_case_are_duplicates
           "Echo Dot (4th Gen)" "ECHO DOT (4th gen)").
  reflexivity.
Defined.

(** X8 (duplicates have lengths close to each other).  Two ASCII titles
    are duplicates only if seventeen times the longer length is at most
    twenty-three times the shorter one; so an empty title is a duplicate of
    the empty title alone. *)
Theorem duplicate_titles_have_close_lengths (title1 title2 : string) :
  ascii_text title1 = true → ascii_text title2 = true →
  is_duplicate_title title1 title2 = true →
  17 * Nat.max (String.length title1) (String.length title2)
  ≤ 23 * Nat.min (String.length title1) (String.length title2).
Proof. intros _ _. apply is_duplicate_title_lengths. Qed.

Lemma duplicate_titles_have_close_lengths_witness :
  ascii_text "Echo Dot 4th Gen" = true
  ∧ ascii_text "Echo Dot 4th Gen!" = true
  ∧ is_duplicate_title "Echo Dot 4th Gen" "Echo Dot 4th Gen!" = true
  ∧ 17 * Nat.max 16 17 ≤ 23 * Nat.min 16 17.
Proof.
  assert (H : is_duplicate_title "Echo Dot 4th Gen" "Echo Dot 4th Gen!" = true)
    by (vm_compute; reflexivity).
  split; [reflexivity|]. split; [reflexivity|]. split; [exact H|].
  exact (duplicate_titles_have_close_lengths
           "Echo Dot 4th Gen" "Echo Dot 4th Gen!" eq_refl eq_refl H).
Defined.



(** X10 (the state only grows).  Between an earlier and a later state of a
    run, the accepted Deals are only appended to (none is removed, changed
    or moved), the seen identifiers and the seen titles only gain elements,
    and the feeds fetched are only appended to. *)
Theorem run_only_grows
    (fetch_feed : string → list RawEntry)
    (soup_find_img : string → option (option string))
    (time_time : nat → Z) (feeds : list string)
    (i j : nat) (s s' : State) :
  i ≤ j →
  run fetch_feed soup_find_img time_time feeds !! i = Some s →
  run fetch_feed soup_find_img time_time feeds !! j = Some s' →
  grows s s'.
Proof.
  apply (chain_lookup grows grows_refl grows_trans).
  apply feeds_loop_chain; [apply process_entry_grows|apply record_fetch_grows].
Qed.

(** In the run over [two_plain_entries] the state after the first fetch has
    no Deal and the state after the second entry has two. *)
Lemma run_only_grows_witness :
  let trace := run (single_feed two_plain_entries) no_image frozen_clock RSS_FEEDS in
  let s1 := default initial (trace !! 1) in
  let s3 := default initial (trace !! 3) in
  1 ≤ 3 ∧ trace !! 1 = Some s1 ∧ trace !! 3 = Some s3
  ∧ length (deals s1) = 0 ∧ length (deals s3) = 2 ∧ grows s1 s3.
Proof.
  intros trace s1 s3.
  assert (H0 : 1 ≤ 3) by lia.
  assert (H1 : trace !! 1 = Some s1) by (vm_compute; reflexivity).
  assert (H3 : trace !! 3 = Some s3) by (vm_compute; reflexivity).
  split; [exact H0|]. split; [exact H1|]. split; [exact H3|].
  split; [vm_compute; reflexivity|]. split; [vm_compute; reflexivity|].
  exact (run_only_grows (single_feed two_plain_entries) no_image frozen_clock
           RSS_FEEDS 1 3 s1 s3 H0 H1 H3).
Defined.

(** X11 (the category breakdown is exact).  At the end of a run
    [category_counts] holds exactly the categories that occur in the output,
    each with the number of Deals of the output that carry it: the
    breakdown that [main] prints has no line with a zero and no line is
    missing. *)
Theorem category_breakdown_exact
    (fetch_feed : string → list RawEntry)
    (soup_find_img : string → option (option string))
    (time_time : nat → Z) (feeds : list string) (c : string) :
  let n := count_category c (curate fetch_feed soup_find_img time_time feeds) in
  category_counts (final_state fetch_feed soup_find_img time_time feeds) !! c
  = if decide (n = 0) then None else Some (Z.of_nat n).
Proof.
  cbn zeta.
  rewrite (count_category_perm c _ _
             (curate_perm fetch_feed soup_find_img time_time feeds)).
  destruct (final_state_inv fetch_feed soup_find_img time_time feeds)
    as [[Hinv _] _].
  pose proof (inv_counts _ _ Hinv c) as Hc.
  pose proof (final_counts_positive fetch_feed soup_find_img time_time feeds c)
    as Hpos.
  unfold counted in Hc.
  destruct (category_counts _ !! c) as [v|]; cbn in Hc.
  - specialize (Hpos v eq_refl). case_decide; [lia|]. by rewrite Hc.
  - case_decide; [done|lia].
Qed.

(** X12 (the feeds are fetched in their order).  In every state of a run
    the feeds fetched so far are an initial part of the list of feeds, in
    its order; and when the run ends below the global capacity every feed
    was fetched, once. *)
Theorem feeds_fetched_in_order
    (fetch_feed : string → list RawEntry)
    (soup_find_img : string → option (option string))
    (time_time : nat → Z) (feeds : list string) :
  Forall (λ s, fetched s `prefix_of` feeds)
    (run fetch_feed soup_find_img time_time feeds)
  ∧ (length (curate fetch_feed soup_find_img time_time feeds) < MAX_DEALS →
     fetched (final_state fetch_feed soup_find_img time_time feeds) = feeds).
Proof.
  destruct (feeds_loop_in_order fetch_feed soup_find_img time_time feeds initial)
    as [H1 H2].
  split.
  - constructor; [apply prefix_nil|].
    eapply Forall_impl; [exact H1|]. by intros s (read & -> & Hpre).
  - rewrite (curate_perm fetch_feed soup_find_img time_time feeds).
    intros Hlt. apply H2. unfold full. fold (final_state fetch_feed soup_find_img time_time feeds).
    lia.
Qed.

(** X13 (the records of the output).  Every Deal of the output has an
    identifier of ten characters among A-Z and 0-9, found in a product link
    that holds "amazon.com" and whose tagged form is the Deal's url; a title
    whose words are separated by single spaces; an image that is not empty;
    a price that is the sentinel or a dollar amount; the rating and the
    reviews "N/A"; one of the ten category labels; a score between 0 and 7
    and a discount that is not negative. *)
Theorem output_records_well_formed
    (fetch_feed : string → list RawEntry)
    (soup_find_img : string → option (option string))
    (time_time : nat → Z) (feeds : list string) (d : Deal) :
  d ∈ curate fetch_feed soup_find_img time_time feeds →
  is_asin (deal_id d) = true
  ∧ (∃ url pre, Str.contains "amazon.com" url = true
       ∧ occurs_at pre (deal_id d) url
       ∧ deal_url d = add_affiliate_tag url)
  ∧ single_spaced (deal_title d) = true
  ∧ Str.nonempty (deal_image d) = true
  ∧ (deal_price d = "$?"
     ∨ ∃ ds frac, deal_price d = String "$" (ds +:+ frac)
         ∧ is_numeral ds = true ∧ is_cents frac = true)
  ∧ deal_rating d = "N/A" ∧ deal_reviews d = "N/A"
  ∧ deal_category d ∈ CATEGORY_LABELS
  ∧ (0 ≤ deal_score d ≤ 7)%Z
  ∧ (0 ≤ deal_discount d)%Z.
Proof.
  intros Hd.
  destruct (curate_origin fetch_feed soup_find_img time_time feeds d Hd)
    as (u & e & _ & _ & url & Hurl & Hasin & Htitle & Hprice & Hrating
        & Hreviews & Hdurl & Hcat & Hscore & Hdisc).
  destruct (ReFacts.extract_asin_Some _ _ Hasin) as (Hid & pre & Hocc & _).
  destruct (ReFacts.extract_amazon_url_nonempty _ _ _ Hurl) as [Hcontains _].
  split; [done|]. split; [by exists url, pre|].
  split; [rewrite Htitle; apply SpaceFacts.clean_title_single_spaced|].
  split.
  { assert (Himg : images_present
                     (final_state fetch_feed soup_find_img time_time feeds)).
    { apply final_state_Forall; [apply process_entry_images|done|constructor]. }
    unfold images_present in Himg. rewrite Forall_forall in Himg.
    apply Himg. by rewrite <- (curate_perm fetch_feed soup_find_img time_time feeds). }
  split.
  { rewrite Hprice.
    destruct (extract_price_from_title _) as [p|] eqn:E; [|by left].
    destruct (ReFacts.extract_price_Some _ p E) as (ds & frac & -> & Hds & Hfrac & _).
    right. by exists ds, frac. }
  split; [done|]. split; [done|].
  split; [rewrite Hcat; apply categorize_label|].
  split; [rewrite Hscore; apply calculate_deal_score_range|].
  rewrite Hdisc. apply LinkFacts.extract_discount_nonneg.
Qed.

(** The first Deal of the run over [two_plain_entries]. *)
Lemma output_records_well_formed_witness :
  let out := curate (single_feed two_plain_entries) no_image frozen_clock RSS_FEEDS in
  let d := default blank_deal (head out) in
  out !! 0 = Some d
  ∧ deal_id d = "B000000001"
  ∧ is_asin (deal_id d) = true
  ∧ deal_price d = "$?"
  ∧ deal_category d ∈ CATEGORY_LABELS
  ∧ (0 ≤ deal_score d ≤ 7)%Z.
Proof.
  intros out d.
  assert (H0 : out !! 0 = Some d) by (vm_compute; reflexivity).
  split; [exact H0|]. split; [vm_compute; reflexivity|].
  split; [vm_compute; reflexivity|]. split; [vm_compute; reflexivity|].
  pose (H := output_records_well_formed (single_feed two_plain_entries) no_image
               frozen_clock RSS_FEEDS d (list_elem_of_lookup_2 out 0 d H0)).
  split; [exact (proj1 (proj2 (proj2 (proj2 (proj2 (proj2 (proj2 (proj2 H))))))))|].
  exact (proj1 (proj2 (proj2 (proj2 (proj2 (proj2 (proj2 (proj2 (proj2 H))))))))).
Defined.

(** X14 (an entry with a stored title is rejected).  An entry whose title,
    stripped and in lower case, is the lower-case form of a title in the
    seen set is not accepted, and it leaves the state as it was. *)
Theorem stored_title_is_rejected
    (soup_find_img : string → option (option string)) (time_time : nat → Z)
    (st : State) (entry : RawEntry) (t : string) :
  t ∈ seen_titles st →
  Str.lower (Str.strip (get (entry_title entry))) = Str.lower t →
  (process_entry soup_find_img time_time st entry).1 ≠ Accepted
  ∧ (process_entry soup_find_img time_time st entry).2 = st.
Proof.
  intros Hin Hlow. apply (process_entry_similar _ _ st entry t Hin).
  by apply is_duplicate_title_lower.
Qed.

(** After "Desk Organizer" is accepted, an entry for another product with
    the title " DESK ORGANIZER " is rejected. *)
Lemma stored_title_is_rejected_witness :
  let e1 := entry_of "Desk Organizer" "https://www.amazon.com/dp/B000000001" in
  let e2 := entry_of " DESK ORGANIZER " "https://www.amazon.com/dp/B000000002" in
  let st := (process_entry no_image frozen_clock initial e1).2 in
  "Desk Organizer" ∈ seen_titles st
  ∧ (process_entry no_image frozen_clock st e2).1 ≠ Accepted
  ∧ (process_entry no_image frozen_clock st e2).2 = st.
Proof.
  intros e1 e2 st.
  assert (Hseen : "Desk Organizer" ∈ seen_titles st).
  { apply (bool_decide_unpack _). vm_compute. exact I. }
  split; [exact Hseen|].
  apply (stored_title_is_rejected no_image frozen_clock st e2 "Desk Organizer" Hseen).
  vm_compute. reflexivity.
Defined.

(** X15 (what fetching costs).  [fetch_feed] returns the entries of the
    first of its two attempts that does not raise, and the empty list when
    both raise.  Over a whole run of [main] on [RSS_FEEDS], whatever the
    network does, the calls of [fetch_feed] sleep for at most 28 seconds in
    all and send at most 14 requests. *)
Theorem fetch_cost_bounded
    (respond : string → nat → option (list RawEntry))
    (soup_find_img : string → option (option string)) (time_time : nat → Z) :
  (∀ url,
     (Net.fetch_feed respond url).2
     = match respond url 0, respond url 1 with
       | Some entries, _ => entries
       | None, Some entries => entries
       | None, None => []
       end)
  ∧ let fetch_feed := λ url, (Net.fetch_feed respond url).2 in
    let st := final_state fetch_feed soup_find_img time_time RSS_FEEDS in
    let effects := fetch_effects respond (fetched st) in
    (slept effects <= 28)%Q ∧ requests effects ≤ 14.
Proof.
  split.
  - intros url. pose proof (fetch_feed_cases respond url) as H.
    destruct (respond url 0); [|destruct (respond url 1)]; by rewrite H.
  - cbn zeta.
    set (st := final_state _ soup_find_img time_time RSS_FEEDS).
    assert (Hlen : length (fetched st) ≤ 7).
    { destruct (feeds_loop_in_order (λ url, (Net.fetch_feed respond url).2)
                  soup_find_img time_time RSS_FEEDS initial) as [H1 _].
      assert (Hpre : fetched st `prefix_of` RSS_FEEDS).
      { unfold st, final_state.
        apply (end_state_Forall (λ s, fetched s `prefix_of` RSS_FEEDS));
          [apply prefix_nil|].
        eapply Forall_impl; [exact H1|]. by intros s (read & -> & Hpre). }
      apply prefix_length in Hpre. exact Hpre. }
    destruct (fetch_effects_cost respond (fetched st)) as [H1 H2].
    split; [|lia].
    eapply Qle_trans; [exact H1|].
    unfold Qle. cbn. lia.
Qed.

(** X16 (a normalized title is single-spaced).  In the result of
    [clean_title] every white-space character is a space that stands
    between two characters that are not white space: the words are
    separated by single spaces and nothing surrounds them. *)
Theorem normalized_title_single_spaced (title : string) :
  single_spaced (clean_title title) = true.
Proof. apply SpaceFacts.clean_title_single_spaced. Qed.



(** X18 (a rejected entry leaves no trace).  An entry that is not accepted
    leaves the whole state as it was, whatever the reason: the read of
    [category_counts], which stores a zero under a category not yet seen,
    only changes the state of an entry that is then accepted. *)
Theorem rejected_entry_leaves_state
    (soup_find_img : string → option (option string)) (time_time : nat → Z)
    (st : State) (entry : RawEntry) :
  (process_entry soup_find_img time_time st entry).1 ≠ Accepted →
  (process_entry soup_find_img time_time st entry).2 = st.
Proof. apply process_entry_rejected. Qed.

(** After twenty-five entries of [crowded_feed] the Tech category is full:
    the twenty-sixth entry is rejected for it. *)
Lemma rejected_entry_leaves_state_witness :
  let trace := run two_feeds no_image frozen_clock RSS_FEEDS in
  let st := default initial (trace !! 26) in
  let entry := sample_entry "ssd" 25 in
  (process_entry no_image frozen_clock st entry).1 = CategoryCapacityReached
  ∧ (process_entry no_image frozen_clock st entry).2 = st.
Proof.
  intros trace st entry.
  assert (H : (process_entry no_image frozen_clock st entry).1
              = CategoryCapacityReached) by (vm_compute; reflexivity).
  split; [exact H|].
  apply (rejected_entry_leaves_state no_image frozen_clock st entry).
  rewrite H. discriminate.
Defined.

(** X19 (the image of a Deal).  Every Deal of the output was built from an
    entry, and its image is the source of the first image of that entry's
    summary when there is one with a source that is not empty, and otherwise
    the fallback URL built from the Deal's identifier. *)
Theorem image_from_summary_or_fallback
    (fetch_feed : string → list RawEntry)
    (soup_find_img : string → option (option string))
    (time_time : nat → Z) (feeds : list string) (d : Deal) :
  d ∈ curate fetch_feed soup_find_img time_time feeds →
  ∃ entry, derived_from entry d ∧ image_chosen soup_find_img entry d.
Proof.
  intros Hd.
  rewrite (curate_perm fetch_feed soup_find_img time_time feeds) in Hd.
  revert d Hd.
  apply (final_state_Forall fetch_feed soup_find_img time_time
           (images_chosen soup_find_img)).
  - intros st e. apply process_entry_image_chosen.
  - done.
  - intros d Hd. by apply elem_of_nil in Hd.
Qed.

(** In the run over [pictured_entries] the first Deal has the image of its
    summary and the second one the fallback for its identifier. *)
Lemma image_from_summary_or_fallback_witness :
  let out := curate (single_feed pictured_entries) sample_soup frozen_clock RSS_FEEDS in
  let d := default blank_deal (head out) in
  out !! 0 = Some d
  ∧ map deal_image out
    = ["https://example.com/desk.jpg"; fallback_image "B000000002"]
  ∧ ∃ entry, derived_from entry d ∧ image_chosen sample_soup entry d.
Proof.
  intros out d.
  assert (H0 : out !! 0 = Some d) by (vm_compute; reflexivity).
  split; [exact H0|]. split; [vm_compute; reflexivity|].
  exact (image_from_summary_or_fallback (single_feed pictured_entries) sample_soup
           frozen_clock RSS_FEEDS d (list_elem_of_lookup_2 out 0 d H0)).
Defined.

(** X20 (the bookkeeping of a run).  In every state of a run the seen
    identifiers are exactly the identifiers of the accepted Deals, the clock
    was read once for every accepted Deal and never for another entry, and
    the Deal accepted as number i carries the reading number i. *)
Theorem bookkeeping_exact
    (fetch_feed : string → list RawEntry)
    (soup_find_img : string → option (option string))
    (time_time : nat → Z) (feeds : list string) :
  Forall (λ st,
            (∀ a, a ∈ seen_asins st ↔ a ∈ map deal_id (deals st))
            ∧ clock_reads st = length (deals st)
            ∧ ∀ i d, deals st !! i = Some d → deal_timestamp d = time_time i)
    (run fetch_feed soup_find_img time_time feeds).
Proof.
  destruct (run_trace fetch_feed soup_find_img time_time feeds) as [Hall _].
  eapply Forall_impl; [exact Hall|]. intros st [[Hinv _] _].
  split; [apply (inv_asins _ _ Hinv)|].
  split; [apply (inv_clock _ _ Hinv)|apply (inv_stamps _ _ Hinv)].
Qed.

(** X21 (tagging twice).  A taggable URL is taggable again once tagged, so
    that [urlparse] raises on neither call; and tagging the tagged URL
    writes the same query again: the query of the URL tagged twice is the
    query of the URL tagged once.  The rest of the URL is not always kept: a
    path that starts with two slashes is read as a host the second time. *)
Theorem retagging_keeps_query (url : string) :
  taggable url = true →
  taggable (add_affiliate_tag url) = true
  ∧ Urllib.query (Urllib.urlparse (add_affiliate_tag (add_affiliate_tag url)))
    = Urllib.query (Urllib.urlparse (add_affiliate_tag url))
  ∧ add_affiliate_tag "http://////x" = "http:////x?tag=syncflow-20"
  ∧ add_affiliate_tag "http:////x?tag=syncflow-20" = "http://x?tag=syncflow-20".
Proof.
  intros Htag. split; [by apply TagFacts.taggable_tagged|].
  split; [|by vm_compute].
  rewrite !UrlFacts.add_affiliate_tag_query. apply QueryFacts.out_query_retag.
Qed.

Lemma retagging_keeps_query_witness :
  taggable foreign_tag_url = true
  ∧ add_affiliate_tag foreign_tag_url
    = "https://www.amazon.com/dp/B08XYZ1234?tag=syncflow-20&ref=abc"
  ∧ taggable (add_affiliate_tag foreign_tag_url) = true
  ∧ Urllib.query (Urllib.urlparse
                    (add_affiliate_tag (add_affiliate_tag foreign_tag_url)))
    = Urllib.query (Urllib.urlparse (add_affiliate_tag foreign_tag_url)).
Proof.
  pose (H := retagging_keeps_query foreign_tag_url eq_refl).
  split; [reflexivity|]. split; [vm_compute; reflexivity|].
  split; [exact (proj1 H)|exact (proj1 (proj2 H))].
Defined.
